(** * dbus-broker: match rules (src/match.c) and peers (src/peer.c)

    A shallow embedding of the match-rule engine and of the peer layer of
    the broker, and the properties of the specification checked on it.

    Conventions of the embedding.
    - A C string is a [string] without the NUL character, and a nullable
      [const char *] is an [option string]; [None] is [NULL].
    - A [uint64_t], a [size_t] or a message type is a [Z]; where the C code
      can wrap around, the wrap-around is written out.
    - The structures that the C code reaches through pointers live in
      finite maps keyed by a handle: a rule by its address, a registry by
      the object that embeds it, an owner and a peer by the id of the peer.
    - An intrusive list is the sequence of its entries, and so is the tree
      of the peers, whose keys never change. The rule tree of an owner is a
      binary tree of rule addresses, which the lookups descend by
      [match_rules_compare].
    - The return value of a function that follows the broker's error
      convention is a [retcode]: zero, a positive module error constant or a
      negative errno.
    - Stateful code runs in the monad [M]: it takes the state of the bus
      and returns a value and the new state, or stops at a failed [assert]
      or at a step that C leaves undefined.
    - The code outside of match.c and peer.c (user accounting, policy, name
      registry, reply registry, connections, address parsing, [calloc] and
      the rebalancing of c-rbtree) is a parameter, the class
      [Collaborators]; every call into the broker's own modules is logged in
      the state. *)

From Stdlib Require Import ZArith Ascii String List Lia Bool.
From stdpp Require Import base option list gmap strings fin_maps.
From Equations Require Import Equations.

Local Open Scope string_scope.
Local Open Scope Z_scope.

(** ** C strings (libc and c-string.h helpers) *)

Module CString.

(** The value of a byte as an [unsigned char]. *)
Definition byte_value (c : ascii) : Z := Z.of_nat (nat_of_ascii c).

(** [strcmp]: the strings are compared byte by byte as [unsigned char], and
    the result is the difference of the first two bytes that differ, the
    terminator counting as 0; the C standard fixes the sign of the result
    only. A byte 0 inside a string, which no C string has, differs from the
    terminator by one. *)
Fixpoint strcmp (a b : string) : Z :=
  match a, b with
  | EmptyString, EmptyString => 0
  | EmptyString, String y _ => Z.min (-1) (0 - byte_value y)
  | String x _, EmptyString => Z.max 1 (byte_value x - 0)
  | String x a', String y b' =>
      if Ascii.eqb x y then strcmp a' b' else byte_value x - byte_value y
  end.

(** [c_string_compare] of c-string.h: [NULL] sorts before every string. *)
Definition c_string_compare (a b : option string) : Z :=
  match a, b with
  | None, None => 0
  | Some _, None => 1
  | None, Some _ => -1
  | Some x, Some y => strcmp x y
  end.

(** [c_string_equal] of c-string.h: two [NULL]s are equal, [NULL] differs
    from every string. *)
Definition c_string_equal (a b : option string) : bool :=
  match a, b with
  | None, None => true
  | Some x, Some y => String.eqb x y
  | _, _ => false
  end.

(** [c_string_prefix (str, prefix)] of c-string.h: the tail of [str] behind
    [prefix] when [str] starts with [prefix], and [NULL] otherwise. *)
Fixpoint c_string_prefix (str prefix : string) {struct prefix}
    : option string :=
  match prefix with
  | EmptyString => Some str
  | String p prefix' =>
      match str with
      | EmptyString => None
      | String c str' =>
          if Ascii.eqb c p then c_string_prefix str' prefix' else None
      end
  end.

(** [strspn] and [strcspn], returning the scanned part and the rest. *)
Fixpoint span (p : ascii -> bool) (s : string) : string * string :=
  match s with
  | EmptyString => (EmptyString, EmptyString)
  | String c s' =>
      if p c then let '(a, b) := span p s' in (String c a, b)
      else (EmptyString, s)
  end.

Definition mem_ascii (set : list ascii) (c : ascii) : bool :=
  existsb (Ascii.eqb c) set.

Definition strspn (s : string) (accept : list ascii) : string * string :=
  span (mem_ascii accept) s.

Definition strcspn (s : string) (reject : list ascii) : string * string :=
  span (fun c => negb (mem_ascii reject c)) s.

(** The character a [const char *] points at; the terminator at the end. *)
Definition deref (s : string) : ascii :=
  match s with
  | EmptyString => zero
  | String c _ => c
  end.

End CString.
Import CString.

(** ** Constants of dbus/protocol.h and dbus/address.h *)

Definition DBUS_MESSAGE_TYPE_INVALID : Z := 0.
Definition DBUS_MESSAGE_TYPE_METHOD_CALL : Z := 1.
Definition DBUS_MESSAGE_TYPE_METHOD_RETURN : Z := 2.
Definition DBUS_MESSAGE_TYPE_ERROR : Z := 3.
Definition DBUS_MESSAGE_TYPE_SIGNAL : Z := 4.

Definition UINT64_MAX : Z := 2 ^ 64 - 1.
Definition ADDRESS_ID_INVALID : Z := UINT64_MAX.

(** [Address] of dbus/address.h, as filled in by [address_from_string]. *)
Inductive Address :=
| ADDRESS_TYPE_INVALID
| ADDRESS_TYPE_OTHER
| ADDRESS_TYPE_ID (id : Z)
| ADDRESS_TYPE_NAME (name : string).

(** ** Return codes *)

Inductive Errno := ENOMEM | ENOTRECOVERABLE | EOTHER (n : Z).

Inductive ErrorCode :=
| MATCH_E_EOF | MATCH_E_INVALID | MATCH_E_QUOTA | MATCH_E_NOT_FOUND
| USER_E_QUOTA
| POLICY_E_ACCESS_DENIED
| CONNECTION_E_EOF | CONNECTION_E_QUOTA
| REPLY_E_EXISTS | REPLY_E_QUOTA
| NAME_E_QUOTA | NAME_E_ALREADY_OWNER | NAME_E_IN_QUEUE | NAME_E_EXISTS
| NAME_E_NOT_FOUND | NAME_E_NOT_OWNER
| PEER_E_EOF | PEER_E_QUOTA | PEER_E_CONNECTION_REFUSED
| PEER_E_PROTOCOL_VIOLATION
| PEER_E_NAME_RESERVED | PEER_E_NAME_UNIQUE | PEER_E_NAME_REFUSED
| PEER_E_NAME_ALREADY_OWNER | PEER_E_NAME_IN_QUEUE | PEER_E_NAME_EXISTS
| PEER_E_NAME_NOT_FOUND | PEER_E_NAME_NOT_OWNER
| PEER_E_MATCH_INVALID | PEER_E_MATCH_NOT_FOUND
| PEER_E_EXPECTED_REPLY_EXISTS | PEER_E_UNEXPECTED_REPLY
| PEER_E_SEND_DENIED | PEER_E_RECEIVE_DENIED.

(** An [int] result: [R_OK] is 0, [R_E e] is the positive enumeration
    constant [e] of some module, [R_NEG n] is the negative errno [-n]. *)
Inductive retcode :=
| R_OK
| R_E (e : ErrorCode)
| R_NEG (n : Errno).

#[global] Instance Errno_eq_dec : EqDecision Errno.
Proof. solve_decision. Defined.
#[global] Instance ErrorCode_eq_dec : EqDecision ErrorCode.
Proof. solve_decision. Defined.
#[global] Instance retcode_eq_dec : EqDecision retcode.
Proof. solve_decision. Defined.

(** The truth value of an [int] in a C condition. The enumerations of the
    error constants start with a [_*_E_SUCCESS] member that is 0, so every
    named error constant is nonzero. *)
Definition c_truthy (r : retcode) : bool :=
  match r with
  | R_OK => false
  | _ => true
  end.

(** util/error.h: [error_origin] and [error_trace] pass their argument on;
    [error_fold] keeps 0 and negative codes and turns the positive error
    constant of a callee, which the caller has no case for, into
    [-ENOTRECOVERABLE]. *)
Definition error_origin (r : retcode) : retcode := r.
Definition error_trace (r : retcode) : retcode := r.
Definition error_fold (r : retcode) : retcode :=
  match r with
  | R_E _ => R_NEG ENOTRECOVERABLE
  | _ => r
  end.

(** ** Match filters and rule keys (match.h) *)

Definition N_ARGS : nat := 64.

Record MatchFilter := mkMatchFilter {
  f_type : Z;
  f_destination : Z;
  f_sender : Z;
  f_interface : option string;
  f_member : option string;
  f_path : option string;
  f_args : list (option string);
  f_argpaths : list (option string);
}.

Record MatchRuleKeys := mkMatchRuleKeys {
  k_sender : option string;
  k_destination : option string;
  k_filter : MatchFilter;
  k_path_namespace : option string;
  k_arg0namespace : option string;
  k_eavesdrop : bool;
}.

(** [a[i]] for an array of string pointers. *)
Definition arr_get (a : list (option string)) (i : nat) : option string :=
  default None (a !! i).

(** [MATCH_FILTER_INIT]. *)
Definition MATCH_FILTER_INIT : MatchFilter :=
  {| f_type := DBUS_MESSAGE_TYPE_INVALID;
     f_destination := ADDRESS_ID_INVALID;
     f_sender := ADDRESS_ID_INVALID;
     f_interface := None; f_member := None; f_path := None;
     f_args := replicate N_ARGS None;
     f_argpaths := replicate N_ARGS None |}.

(** A zero-initialised [MatchRuleKeys] ([calloc], or [keys = {}]). *)
Definition MatchRuleKeys_zero : MatchRuleKeys :=
  {| k_sender := None; k_destination := None;
     k_filter :=
       {| f_type := 0; f_destination := 0; f_sender := 0;
          f_interface := None; f_member := None; f_path := None;
          f_args := replicate N_ARGS None;
          f_argpaths := replicate N_ARGS None |};
     k_path_namespace := None; k_arg0namespace := None;
     k_eavesdrop := false |}.

Definition set_f_type v f := mkMatchFilter v (f_destination f) (f_sender f)
  (f_interface f) (f_member f) (f_path f) (f_args f) (f_argpaths f).
Definition set_f_destination v f := mkMatchFilter (f_type f) v (f_sender f)
  (f_interface f) (f_member f) (f_path f) (f_args f) (f_argpaths f).
Definition set_f_sender v f := mkMatchFilter (f_type f) (f_destination f) v
  (f_interface f) (f_member f) (f_path f) (f_args f) (f_argpaths f).
Definition set_f_interface v f := mkMatchFilter (f_type f) (f_destination f)
  (f_sender f) v (f_member f) (f_path f) (f_args f) (f_argpaths f).
Definition set_f_member v f := mkMatchFilter (f_type f) (f_destination f)
  (f_sender f) (f_interface f) v (f_path f) (f_args f) (f_argpaths f).
Definition set_f_path v f := mkMatchFilter (f_type f) (f_destination f)
  (f_sender f) (f_interface f) (f_member f) v (f_args f) (f_argpaths f).
Definition set_f_args v f := mkMatchFilter (f_type f) (f_destination f)
  (f_sender f) (f_interface f) (f_member f) (f_path f) v (f_argpaths f).
Definition set_f_argpaths v f := mkMatchFilter (f_type f) (f_destination f)
  (f_sender f) (f_interface f) (f_member f) (f_path f) (f_args f) v.

Definition set_k_sender v k := mkMatchRuleKeys v (k_destination k)
  (k_filter k) (k_path_namespace k) (k_arg0namespace k) (k_eavesdrop k).
Definition set_k_destination v k := mkMatchRuleKeys (k_sender k) v
  (k_filter k) (k_path_namespace k) (k_arg0namespace k) (k_eavesdrop k).
Definition set_k_filter v k := mkMatchRuleKeys (k_sender k) (k_destination k)
  v (k_path_namespace k) (k_arg0namespace k) (k_eavesdrop k).
Definition set_k_path_namespace v k := mkMatchRuleKeys (k_sender k)
  (k_destination k) (k_filter k) v (k_arg0namespace k) (k_eavesdrop k).
Definition set_k_arg0namespace v k := mkMatchRuleKeys (k_sender k)
  (k_destination k) (k_filter k) (k_path_namespace k) v (k_eavesdrop k).
Definition set_k_eavesdrop v k := mkMatchRuleKeys (k_sender k)
  (k_destination k) (k_filter k) (k_path_namespace k) (k_arg0namespace k) v.

(** ** match.c: comparison and filtering *)

(** [r = a || r = b || ...]: the first nonzero comparison decides. *)
Definition or_else (r : Z) (k : Z) : Z := if r =? 0 then k else r.

(** The loop of [match_rules_compare] over [args] and [argpaths], from
    index [i] for [n] more rounds. *)
Fixpoint match_rules_compare_args (n i : nat) (f1 f2 : MatchFilter) : Z :=
  match n with
  | O => 0
  | S n' =>
      let r := c_string_compare (arr_get (f_args f1) i) (arr_get (f_args f2) i) in
      if negb (r =? 0) then r else
      let r := c_string_compare (arr_get (f_argpaths f1) i)
                                (arr_get (f_argpaths f2) i) in
      if negb (r =? 0) then r else
      match_rules_compare_args n' (S i) f1 f2
  end.

Definition match_rules_compare (key1 key2 : MatchRuleKeys) : Z :=
  let r :=
    or_else (c_string_compare (k_sender key1) (k_sender key2))
   (or_else (c_string_compare (k_destination key1) (k_destination key2))
   (or_else (c_string_compare (f_interface (k_filter key1))
                              (f_interface (k_filter key2)))
   (or_else (c_string_compare (f_member (k_filter key1))
                              (f_member (k_filter key2)))
   (or_else (c_string_compare (f_path (k_filter key1))
                              (f_path (k_filter key2)))
   (or_else (c_string_compare (k_path_namespace key1) (k_path_namespace key2))
            (c_string_compare (k_arg0namespace key1)
                              (k_arg0namespace key2))))))) in
  if negb (r =? 0) then r else
  if f_type (k_filter key1) >? f_type (k_filter key2) then 1 else
  if f_type (k_filter key1) <? f_type (k_filter key2) then -1 else
  if Z.b2z (k_eavesdrop key1) >? Z.b2z (k_eavesdrop key2) then 1 else
  if Z.b2z (k_eavesdrop key1) <? Z.b2z (k_eavesdrop key2) then -1 else
  match_rules_compare_args N_ARGS 0 (k_filter key1) (k_filter key2).

(** [match_string_prefix]. The two pointers are equal only when both are
    [NULL]: the rule's strings live in the rule's buffer, the filter's in the
    message. [tail == string] holds when the prefix is empty, and
    [*(tail - 1)] is the last character of the prefix. *)
Definition match_string_prefix (str prefix : option string)
    (delimiter : ascii) (delimiter_included : bool) : bool :=
  match str, prefix with
  | None, None => true
  | None, Some _ | Some _, None => false
  | Some s, Some p =>
      match c_string_prefix s p with
      | None => false
      | Some tail =>
          if delimiter_included then
            if (String.length p =? O)%nat
               || (negb (Ascii.eqb (deref tail) zero)
                   && negb (Ascii.eqb
                              (default zero (String.get (String.length p - 1) s))
                              delimiter))
            then false else true
          else
            if negb (Ascii.eqb (deref tail) zero)
               && negb (Ascii.eqb (deref tail) delimiter)
            then false else true
      end
  end.

(** The loop of [match_rule_keys_match_filter] over the arguments. *)
Fixpoint match_filter_args (n i : nat) (keys : MatchRuleKeys)
    (flt : MatchFilter) : bool :=
  match n with
  | O => true
  | S n' =>
      let ka := arr_get (f_args (k_filter keys)) i in
      let kp := arr_get (f_argpaths (k_filter keys)) i in
      if bool_decide (is_Some ka)
         && negb (c_string_equal ka (arr_get (f_args flt) i))
      then false else
      if bool_decide (is_Some kp)
         && (negb (match_string_prefix (arr_get (f_argpaths flt) i) kp "/"%char true)
             && negb (match_string_prefix kp (arr_get (f_argpaths flt) i) "/"%char true))
      then false else
      match_filter_args n' (S i) keys flt
  end.

Definition match_rule_keys_match_filter (keys : MatchRuleKeys)
    (flt : MatchFilter) : bool :=
  let kf := k_filter keys in
  if negb (f_type kf =? DBUS_MESSAGE_TYPE_INVALID)
     && negb (f_type kf =? f_type flt) then false else
  if negb (f_destination kf =? ADDRESS_ID_INVALID)
     && negb (f_destination kf =? f_destination flt) then false else
  if negb (f_sender kf =? ADDRESS_ID_INVALID)
     && negb (f_sender kf =? f_sender flt) then false else
  if bool_decide (is_Some (f_interface kf))
     && negb (c_string_equal (f_interface kf) (f_interface flt)) then false else
  if bool_decide (is_Some (f_member kf))
     && negb (c_string_equal (f_member kf) (f_member flt)) then false else
  if bool_decide (is_Some (f_path kf))
     && negb (c_string_equal (f_path kf) (f_path flt)) then false else
  if bool_decide (is_Some (k_path_namespace keys))
     && negb (match_string_prefix (k_path_namespace keys) (f_path flt) "/"%char false)
  then false else
  if bool_decide (is_Some (k_arg0namespace keys))
     && negb (match_string_prefix (k_arg0namespace keys)
                                  (arr_get (f_args flt) 0) "."%char false)
  then false else
  match_filter_args N_ARGS 0 keys flt.

(** ** match.c: the rule parser *)

(** [match_key_equal (key1, key2, n_key2)]: the literal [key1] against the
    [n_key2] characters at [key2], which the model holds as one string. *)
Definition match_key_equal (key1 key2 : string) : bool :=
  (String.length key1 =? String.length key2)%nat && String.eqb key1 key2.

Definition is_digit (c : ascii) : bool :=
  (nat_of_ascii "0" <=? nat_of_ascii c)%nat
  && (nat_of_ascii c <=? nat_of_ascii "9")%nat.

(** The loop of [match_rule_keys_assign] that reads at most [j] decimal
    digits of an [argN] key. *)
Fixpoint arg_index (j : nat) (key : string) (i : Z) : Z * string :=
  match j with
  | O => (i, key)
  | S j' =>
      match key with
      | EmptyString => (i, key)
      | String c key' =>
          if negb (is_digit c) then (i, key)
          else arg_index j' key'
                 (i * 10 + Z.of_nat (nat_of_ascii c) - Z.of_nat (nat_of_ascii "0"))
      end
  end.

Definition is_set (p : option string) : bool := bool_decide (is_Some p).

Section Parser.

(** [address_from_string] is defined in dbus/address.c, outside of match.c
    and peer.c; the parser is stated for any such function. *)
Variable address_from_string : string -> Address.

Definition match_rule_keys_assign (keys : MatchRuleKeys) (key value : string)
    : retcode * MatchRuleKeys :=
  let kf := k_filter keys in
  if match_key_equal "type" key then
    if negb (f_type kf =? DBUS_MESSAGE_TYPE_INVALID) then (R_E MATCH_E_INVALID, keys)
    else if (strcmp value "signal" =? 0) then
      (R_OK, set_k_filter (set_f_type DBUS_MESSAGE_TYPE_SIGNAL kf) keys)
    else if (strcmp value "method_call" =? 0) then
      (R_OK, set_k_filter (set_f_type DBUS_MESSAGE_TYPE_METHOD_CALL kf) keys)
    else if (strcmp value "method_return" =? 0) then
      (R_OK, set_k_filter (set_f_type DBUS_MESSAGE_TYPE_METHOD_RETURN kf) keys)
    else if (strcmp value "error" =? 0) then
      (R_OK, set_k_filter (set_f_type DBUS_MESSAGE_TYPE_ERROR kf) keys)
    else (R_E MATCH_E_INVALID, keys)
  else if match_key_equal "sender" key then
    if is_set (k_sender keys) then (R_E MATCH_E_INVALID, keys)
    else (R_OK, set_k_sender (Some value) keys)
  else if match_key_equal "destination" key then
    if is_set (k_destination keys) then (R_E MATCH_E_INVALID, keys)
    else
      let keys := set_k_destination (Some value) keys in
      match address_from_string value with
      | ADDRESS_TYPE_ID id =>
          (R_OK, set_k_filter (set_f_destination id (k_filter keys)) keys)
      | _ =>
          (R_OK, set_k_filter
                   (set_f_destination ADDRESS_ID_INVALID (k_filter keys)) keys)
      end
  else if match_key_equal "interface" key then
    if is_set (f_interface kf) then (R_E MATCH_E_INVALID, keys)
    else (R_OK, set_k_filter (set_f_interface (Some value) kf) keys)
  else if match_key_equal "member" key then
    if is_set (f_member kf) then (R_E MATCH_E_INVALID, keys)
    else (R_OK, set_k_filter (set_f_member (Some value) kf) keys)
  else if match_key_equal "path" key then
    if is_set (f_path kf) || is_set (k_path_namespace keys)
    then (R_E MATCH_E_INVALID, keys)
    else (R_OK, set_k_filter (set_f_path (Some value) kf) keys)
  else if match_key_equal "path_namespace" key then
    if is_set (k_path_namespace keys) || is_set (f_path kf)
    then (R_E MATCH_E_INVALID, keys)
    else (R_OK, set_k_path_namespace (Some value) keys)
  else if match_key_equal "eavesdrop" key then
    if (strcmp value "true" =? 0) then (R_OK, set_k_eavesdrop true keys)
    else if (strcmp value "false" =? 0) then (R_OK, set_k_eavesdrop false keys)
    else (R_E MATCH_E_INVALID, keys)
  else if match_key_equal "arg0namespace" key then
    if is_set (k_arg0namespace keys) || is_set (arr_get (f_args kf) 0)
       || is_set (arr_get (f_argpaths kf) 0)
    then (R_E MATCH_E_INVALID, keys)
    else (R_OK, set_k_arg0namespace (Some value) keys)
  else if (3 <=? String.length key)%nat
          && match_key_equal "arg" (String.substring 0 3 key) then
    let key := String.substring 3 (String.length key - 3) key in
    let '(i, key) := arg_index 2 key 0 in
    if (i =? 0) && is_set (k_arg0namespace keys) then (R_E MATCH_E_INVALID, keys)
    else if i >? 63 then (R_E MATCH_E_INVALID, keys)
    else if is_set (arr_get (f_args kf) (Z.to_nat i))
            || is_set (arr_get (f_argpaths kf) (Z.to_nat i))
    then (R_E MATCH_E_INVALID, keys)
    else if match_key_equal "" key then
      (R_OK, set_k_filter
               (set_f_args (<[Z.to_nat i := Some value]> (f_args kf)) kf) keys)
    else if match_key_equal "path" key then
      (R_OK, set_k_filter
               (set_f_argpaths (<[Z.to_nat i := Some value]> (f_argpaths kf)) kf)
               keys)
    else (R_E MATCH_E_INVALID, keys)
  else (R_E MATCH_E_INVALID, keys).

End Parser.

(** The pointer behind the one given; it stays on the terminator. *)
Definition advance (s : string) : string :=
  match s with
  | EmptyString => EmptyString
  | String _ s' => s'
  end.

(** The leading loop of [match_string_value_pop]: every apostrophe is
    skipped and toggles [quoted]. *)
Fixpoint skip_quotes (s : string) (quoted : bool) : string * bool :=
  match s with
  | EmptyString => (s, quoted)
  | String c s' =>
      if Ascii.eqb c "'" then skip_quotes s' (negb quoted) else (s, quoted)
  end.

(** [match_string_value_pop (&match, &quoted)]: the character returned, the
    new [*match] and the new [*quoted]. *)
Definition match_string_value_pop (s : string) (quoted : bool)
    : ascii * string * bool :=
  let '(s, quoted) := skip_quotes s quoted in
  match s with
  | EmptyString => (zero, s, quoted)
  | String c s' =>
      if Ascii.eqb c "," then
        (if quoted then ","%char else zero, s', quoted)
      else if Ascii.eqb c "\" then
        if negb quoted && Ascii.eqb (deref s') "'"
        then ("'"%char, advance s', quoted)
        else ("\"%char, s', quoted)
      else (c, s', quoted)
  end.

Definition WHITESPACE : list ascii :=
  [" "%char; "009"%char; "010"%char; "013"%char].

(** [match_rule_key_read (&key, &n_key, &match)]: the result, the key (set
    on success only) and the new [*match]. *)
Definition match_rule_key_read (s : string) : retcode * string * string :=
  let '(_, s) := strspn s (WHITESPACE ++ ["="%char]) in
  if Ascii.eqb (deref s) zero then (R_E MATCH_E_EOF, EmptyString, s) else
  let '(key, s) := strcspn s (WHITESPACE ++ ["="%char]) in
  if Ascii.eqb (deref s) zero then (R_E MATCH_E_INVALID, EmptyString, s) else
  let '(_, s) := strspn s WHITESPACE in
  if negb (Ascii.eqb (deref s) "=") then (R_E MATCH_E_INVALID, EmptyString, s)
  else (R_OK, key, advance s).

(** Every character that [match_string_value_pop] hands out is taken from
    the input, which makes the loops below terminate. *)
Lemma skip_quotes_length s q :
  (String.length (fst (skip_quotes s q)) <= String.length s)%nat.
Proof.
  revert q; induction s as [|c s IH]; intros q; simpl; [lia|].
  destruct (Ascii.eqb c "'"); simpl; [specialize (IH (negb q)); lia | lia].
Qed.

Lemma match_string_value_pop_length s q c s' q' :
  match_string_value_pop s q = (c, s', q') ->
  (String.length s' <= String.length s)%nat
  /\ (c <> zero -> (String.length s' < String.length s)%nat).
Proof.
  unfold match_string_value_pop.
  pose proof (skip_quotes_length s q) as H.
  destruct (skip_quotes s q) as [t qq]; simpl in H.
  destruct t as [|d t]; [intros [= <- <- _]; split; [lia | congruence]|].
  simpl in H.
  destruct (Ascii.eqb d ","); [intros [= _ <- _]; split; lia|].
  destruct (Ascii.eqb d "\").
  - destruct (negb qq && Ascii.eqb (deref t) "'"); intros [= _ <- _];
      [destruct t; simpl in *; split; lia | split; lia].
  - intros [= _ <- _]; split; lia.
Qed.

Definition inspect {A : Type} (x : A) : {y : A | x = y} := exist _ x eq_refl.

(** The [do ... while (c)] loop of [match_rule_keys_parse]: the characters
    written to the buffer before the terminator (the value), the new
    [rule_string] and the final [quoted]. *)
Equations? read_value (s : string) (quoted : bool) : string * string * bool
  by wf (String.length s) lt :=
read_value s quoted with inspect (match_string_value_pop s quoted) := {
  | exist _ (c, s', q') Hpop with inspect (Ascii.eqb c zero) := {
    | exist _ true _ => (EmptyString, s', q')
    | exist _ false Hc =>
        let '(v, s'', q'') := read_value s' q' in (String c v, s'', q'') } }.
Proof.
  eapply match_string_value_pop_length; [exact Hpop|].
  intros ->. discriminate.
Qed.

Section ParserLoop.

Variable address_from_string : string -> Address.

(** The [while (i < n_buffer)] loop of [match_rule_keys_parse] together
    with the code behind it. Every round writes the value and its
    terminator to the buffer, so [i] grows. *)
Equations? match_rule_keys_parse_loop (n_buffer i : nat)
    (keys : MatchRuleKeys) (rule_string : string)
    : retcode * MatchRuleKeys by wf (n_buffer - i)%nat lt :=
match_rule_keys_parse_loop n_buffer i keys rule_string
  with inspect (i <? n_buffer)%nat := {
  | exist _ false _ =>
      (* the loop ends with r == 0, which is not MATCH_E_EOF *)
      (error_origin (R_NEG ENOTRECOVERABLE), keys)
  | exist _ true Hlt with match_rule_key_read rule_string := {
    | (R_E MATCH_E_EOF, _, _) => (R_OK, keys)
    | (R_E e, _, _) => (error_trace (R_E e), keys)
    | (R_NEG n, _, _) => (error_trace (R_NEG n), keys)
    | (R_OK, key, rest) with read_value rest false := {
      | (value, rest', quoted) with quoted := {
        | true => (R_E MATCH_E_INVALID, keys)
        | false with match_rule_keys_assign address_from_string keys key value := {
          | (R_OK, keys') =>
              match_rule_keys_parse_loop n_buffer
                (i + (String.length value + 1))%nat keys' rest'
          | (r, keys') => (error_trace r, keys') } } } } }.
Proof.
  apply Nat.ltb_lt in Hlt. lia.
Qed.

Definition match_rule_keys_parse (keys : MatchRuleKeys) (n_buffer : nat)
    (rule_string : string) : retcode * MatchRuleKeys :=
  let keys :=
    set_k_filter
      (set_f_sender ADDRESS_ID_INVALID
         (set_f_destination ADDRESS_ID_INVALID
            (set_f_type DBUS_MESSAGE_TYPE_INVALID (k_filter keys)))) keys in
  match_rule_keys_parse_loop n_buffer 0 keys rule_string.

End ParserLoop.

(** ** Rules, registries and owners (match.h) *)

(** A [MatchRegistry *]: the registry embedded in the bus
    ([wildcard_matches], [driver_matches]), in the peer with the given id
    ([peer->matches]) or in the name with the given string
    ([name->matches]). *)
Inductive RegistryRef :=
| REG_WILDCARD
| REG_DRIVER
| REG_PEER (id : Z)
| REG_NAME (name : string).

#[global] Instance RegistryRef_eq_dec : EqDecision RegistryRef.
Proof. solve_decision. Defined.

#[global] Instance RegistryRef_countable : Countable RegistryRef.
Proof.
  refine (inj_countable'
    (fun r => match r with
              | REG_WILDCARD => inl (inl tt)
              | REG_DRIVER => inl (inr tt)
              | REG_PEER id => inr (inl id)
              | REG_NAME name => inr (inr name)
              end)
    (fun x => match x with
              | inl (inl _) => REG_WILDCARD
              | inl (inr _) => REG_DRIVER
              | inr (inl id) => REG_PEER id
              | inr (inr name) => REG_NAME name
              end) _).
  by intros [].
Defined.

(** The three lists of a registry hold the addresses of the rules linked
    into them, first entry first. *)
Record MatchRegistry := mkMatchRegistry {
  rule_list : list nat;
  eavesdrop_list : list nat;
  monitor_list : list nat;
}.

Definition MATCH_REGISTRY_INIT : MatchRegistry := mkMatchRegistry [] [] [].

Inductive UserSlot :=
| USER_SLOT_BYTES | USER_SLOT_FDS | USER_SLOT_MATCHES | USER_SLOT_OBJECTS
| USER_SLOT_NAMES | USER_SLOT_REPLIES.

(** A [UserCharge] that holds an amount of a slot of a user; an unset
    charge is [None]. *)
Record UserCharge := mkUserCharge {
  charge_user : Z;
  charge_slot : UserSlot;
  charge_amount : Z;
}.

(** A [MatchRule]. [r_owner] is the handle of the [MatchOwner] (the id of
    the peer that embeds it as [owned_matches]); [r_registry] is the
    registry pointer, set exactly while [registry_link] is linked. *)
Record MatchRule := mkMatchRule {
  r_keys : MatchRuleKeys;
  r_owner : Z;
  r_registry : option RegistryRef;
  r_n_user_refs : Z;
  r_charge0 : option UserCharge;
  r_charge1 : option UserCharge;
}.

Definition set_r_keys v r := mkMatchRule v (r_owner r) (r_registry r)
  (r_n_user_refs r) (r_charge0 r) (r_charge1 r).
Definition set_r_registry v r := mkMatchRule (r_keys r) (r_owner r) v
  (r_n_user_refs r) (r_charge0 r) (r_charge1 r).
Definition set_r_n_user_refs v r := mkMatchRule (r_keys r) (r_owner r)
  (r_registry r) v (r_charge0 r) (r_charge1 r).
Definition set_r_charge0 v r := mkMatchRule (r_keys r) (r_owner r)
  (r_registry r) (r_n_user_refs r) v (r_charge1 r).
Definition set_r_charge1 v r := mkMatchRule (r_keys r) (r_owner r)
  (r_registry r) (r_n_user_refs r) (r_charge0 r) v.

(** [MATCH_RULE_NULL] with the owner set. *)
Definition MATCH_RULE_NULL (owner : Z) : MatchRule :=
  mkMatchRule MatchRuleKeys_zero owner None 0 None None.

(** ** c-rbtree: the tree of the rules of an owner

    Modelled from the spec: the c-rbtree library is not part of src. A tree
    is given by its shape, with the address of a rule at every node; the
    colours of the nodes are left to the library. *)
Inductive CRBTree : Type :=
| CRB_NULL
| CRB_Node (left : CRBTree) (entry : nat) (right : CRBTree).

#[global] Instance CRBTree_eq_dec : EqDecision CRBTree.
Proof. solve_decision. Defined.

(** The entries in tree order, as [c_rbtree_for_each_entry] visits them. *)
Fixpoint c_rbtree_entries (tree : CRBTree) : list nat :=
  match tree with
  | CRB_NULL => []
  | CRB_Node l a r => c_rbtree_entries l ++ a :: c_rbtree_entries r
  end.

#[global] Instance CRBTree_elem_of : ElemOf nat CRBTree :=
  fun a tree => a ∈ c_rbtree_entries tree.

(** Modelled from the spec: [c_rbtree_is_empty] tells whether the tree has
    no root. *)
Definition c_rbtree_is_empty (tree : CRBTree) : bool :=
  match tree with
  | CRB_NULL => true
  | CRB_Node _ _ _ => false
  end.

(** Modelled from the spec: [c_rbtree_find_slot] of c-rbtree.h descends
    from the root, to the left of a node that the key compares less than and
    to the right of one that it compares greater than. At a node that
    compares equal it returns [NULL] with that node as the parent ([inl]);
    at an empty link it returns the link ([inr]), which is given by the turns
    from the root, [true] for a turn to the right. *)
Fixpoint c_rbtree_find_slot {K : Type} (compare : K -> nat -> Z) (k : K)
    (tree : CRBTree) : nat + list bool :=
  match tree with
  | CRB_NULL => inr []
  | CRB_Node l a r =>
      let v := compare k a in
      if v <? 0 then
        match c_rbtree_find_slot compare k l with
        | inl parent => inl parent
        | inr slot => inr (false :: slot)
        end
      else if v >? 0 then
        match c_rbtree_find_slot compare k r with
        | inl parent => inl parent
        | inr slot => inr (true :: slot)
        end
      else inl a
  end.

(** Modelled from the spec: [c_rbtree_find_node], on which the macro
    [c_rbtree_find_entry] rests, makes the same descent and returns the node
    that compares equal, or [NULL]. *)
Definition c_rbtree_find_node {K : Type} (compare : K -> nat -> Z) (k : K)
    (tree : CRBTree) : option nat :=
  match c_rbtree_find_slot compare k tree with
  | inl node => Some node
  | inr _ => None
  end.

(** Modelled from the spec: [c_rbtree_link] of the c-rbtree library links
    the node [a] as a leaf at a slot and leaves the rest of the tree as it
    is. *)
Fixpoint c_rbtree_link (tree : CRBTree) (slot : list bool) (a : nat)
    : CRBTree :=
  match tree, slot with
  | CRB_NULL, _ => CRB_Node CRB_NULL a CRB_NULL
  | CRB_Node l x r, false :: slot' => CRB_Node (c_rbtree_link l slot' a) x r
  | CRB_Node l x r, true :: slot' => CRB_Node l x (c_rbtree_link r slot' a)
  | CRB_Node l x r, [] => tree
  end.

(** Modelled from the spec: the first entry of a tree in tree order and the
    tree without it. *)
Fixpoint c_rbtree_pop_first (tree : CRBTree) : option (nat * CRBTree) :=
  match tree with
  | CRB_NULL => None
  | CRB_Node l x r =>
      match c_rbtree_pop_first l with
      | None => Some (x, r)
      | Some (a, l') => Some (a, CRB_Node l' x r)
      end
  end.

(** Modelled from the spec: the tree with the node [a] unlinked. A node
    with two children is replaced by the node that follows it in tree order,
    as a binary search tree does it. *)
Fixpoint c_rbtree_unlink (tree : CRBTree) (a : nat) : CRBTree :=
  match tree with
  | CRB_NULL => CRB_NULL
  | CRB_Node l x r =>
      if (x =? a)%nat then
        match l, c_rbtree_pop_first r with
        | CRB_NULL, _ => r
        | _, None => l
        | _, Some (next, r') => CRB_Node l next r'
        end
      else CRB_Node (c_rbtree_unlink l a) x (c_rbtree_unlink r a)
  end.

(** The rule tree of a [MatchOwner]. *)
Record MatchOwner := mkMatchOwner { rule_tree : CRBTree }.

Definition MATCH_OWNER_INIT : MatchOwner := mkMatchOwner CRB_NULL.

(** ** Peers (peer.h) *)

Record Peer := mkPeer {
  p_id : Z;
  p_user : Z;
  p_registered : bool;
  p_monitor : bool;
}.

#[global] Instance Peer_eq_dec : EqDecision Peer.
Proof. solve_decision. Defined.

Definition set_p_registered v p :=
  mkPeer (p_id p) (p_user p) v (p_monitor p).

Record PeerRegistry := mkPeerRegistry {
  peer_tree : list Peer;
  ids : Z;
}.

(** ** c-rbtree: the tree of the peers

    The tree of the peers is held as the sequence of its entries in tree
    order. The peers are keyed by their ids, which never change, so the tree
    stays ordered by [peer_compare], and the descent of
    [c_rbtree_find_entry] ends at the peer that compares equal to the key
    when there is one. *)
Definition c_rbtree_find_entry {K A : Type} (compare : K -> A -> Z) (k : K)
    (tree : list A) : option A :=
  List.find (fun x => compare k x =? 0) tree.

(** ** Messages (dbus/message.h), as far as the peer layer reads them *)

Record Message := mkMessage {
  m_type : Z;
  m_flags : Z;
  m_serial : Z;
  m_interface : option string;
  m_member : option string;
  m_path : option string;
  m_args : list (ascii * option string);
}.

Definition DBUS_HEADER_FLAG_NO_REPLY_EXPECTED : Z := 1.

(** A [NameSet]: the names of an owner, or a snapshot of names. *)
Inductive NameSet :=
| NAME_SET_TYPE_OWNER (owner : Z)
| NAME_SET_TYPE_SNAPSHOT (names : list string).

(** ** The collaborators outside match.c and peer.c

    User accounting, the policy, the name registry, the reply registry and
    the connections keep their state in a world [W]. The calls that change
    it return the new world. *)
Class Collaborators (W : Type) := {
  address_from_string : string -> Address;
  sizeof_MatchRule : Z;
  (** whether [calloc] of that many bytes succeeds *)
  calloc : W -> Z -> bool;
  (** [c_rbtree_add] and [c_rbtree_remove] of the c-rbtree library: the
      node is linked at the slot, or unlinked, and the library restores the
      balance of the tree by rotations of its choice *)
  c_rbtree_add : CRBTree -> list bool -> nat -> CRBTree;
  c_rbtree_remove : CRBTree -> nat -> CRBTree;
  user_charge : W -> Z -> UserSlot -> Z -> retcode * W;
  user_charge_deinit : W -> UserCharge -> W;
  peer_policy_check_own : W -> Z -> string -> retcode;
  peer_policy_check_send :
    W -> Z -> NameSet -> Message -> retcode;
  peer_policy_check_receive :
    W -> Z -> option NameSet -> Message -> retcode;
  name_registry_request_name : W -> Z -> string -> Z -> retcode * W;
  name_registry_release_name : W -> Z -> string -> retcode * W;
  name_registry_ref_name : W -> string -> retcode * W;
  name_ref : W -> string -> W;
  name_unref : W -> string -> W;
  name_owner_primaries : W -> Z -> list string;
  reply_slot_new : W -> Z -> Z -> Z -> Z -> Z -> Z -> retcode * W;
  reply_slot_free : W -> Z -> Z -> Z -> W;
  connection_queue : W -> Z -> option Z -> Z -> Message -> retcode * W;
  connection_shutdown : W -> Z -> W;
}.

(** The calls into the collaborators, as they are logged. *)
Inductive Event :=
| EV_user_charge (user : Z) (slot : UserSlot) (amount : Z)
| EV_user_charge_deinit (c : UserCharge)
| EV_policy_check_own (peer : Z) (name : string)
| EV_policy_check_send (sender receiver : Z)
| EV_policy_check_receive (receiver : Z)
| EV_name_registry_request_name (peer : Z) (name : string)
| EV_name_registry_release_name (peer : Z) (name : string)
| EV_name_registry_ref_name (name : string)
| EV_name_ref (name : string)
| EV_name_unref (name : string)
| EV_reply_slot_new (receiver sender serial : Z)
| EV_reply_slot_free (receiver sender serial : Z)
  | EV_connection_queue (receiver : Z) (transaction_id : Z)
  | EV_connection_shutdown (receiver : Z).

(** ** The state of the bus *)

Record State (W : Type) := mkState {
  st_rules : gmap nat MatchRule;
  st_owners : gmap Z MatchOwner;
  st_registries : gmap RegistryRef MatchRegistry;
  st_peers : PeerRegistry;
  st_transaction_ids : Z;
  st_world : W;
  st_log : list Event;
}.
Arguments mkState {W}.
Arguments st_rules {W}.
Arguments st_owners {W}.
Arguments st_registries {W}.
Arguments st_peers {W}.
Arguments st_transaction_ids {W}.
Arguments st_world {W}.
Arguments st_log {W}.

Section StateSetters.
Context {W : Type}.
Implicit Type st : State W.

Definition set_st_rules v st := mkState v (st_owners st)
  (st_registries st) (st_peers st) (st_transaction_ids st) (st_world st)
  (st_log st).
Definition set_st_owners v st := mkState (st_rules st) v
  (st_registries st) (st_peers st) (st_transaction_ids st) (st_world st)
  (st_log st).
Definition set_st_registries v st := mkState (st_rules st)
  (st_owners st) v (st_peers st) (st_transaction_ids st) (st_world st)
  (st_log st).
Definition set_st_peers v st := mkState (st_rules st)
  (st_owners st) (st_registries st) v (st_transaction_ids st) (st_world st)
  (st_log st).
Definition set_st_transaction_ids v st := mkState (st_rules st)
  (st_owners st) (st_registries st) (st_peers st) v (st_world st)
  (st_log st).
Definition set_st_world (v : W) st := mkState (st_rules st)
  (st_owners st) (st_registries st) (st_peers st) (st_transaction_ids st) v
  (st_log st).
Definition set_st_log v st := mkState (st_rules st)
  (st_owners st) (st_registries st) (st_peers st) (st_transaction_ids st)
  (st_world st) v.
End StateSetters.

(** The address that [calloc] hands out for a new rule: one that holds
no rule. *)
Definition st_brk {W : Type} (st : State W) : nat := fresh (dom (st_rules st)).

(** ** The monad of the stateful code

    A computation takes the state and either returns a value and the new
    state or stops ([None]): at a failed [assert], at a dangling pointer or
    at a loop that has run out of its bound. *)
Definition M (W A : Type) : Type := State W -> option (A * State W).

Definition ret {W A} (x : A) : M W A := fun st => Some (x, st).
Definition bind {W A B} (m : M W A) (k : A -> M W B) : M W B :=
  fun st => match m st with
            | Some (x, st') => k x st'
            | None => None
            end.
Definition get {W} : M W (State W) := fun st => Some (st, st).
Definition modify {W} (f : State W -> State W) : M W unit :=
  fun st => Some (tt, f st).
Definition assert {W} (b : bool) : M W unit :=
  fun st => if b then Some (tt, st) else None.

Notation "'let!' x ':=' m 'in' k" := (bind m (fun x => k))
  (at level 10, x pattern, m at level 100, k at level 200,
   format "'[v' 'let!'  x  ':='  m  'in' '/' k ']'").
Notation "m '>>' k" := (bind m (fun _ => k))
  (at level 100, k at level 200, right associativity).

Section MatchState.

Context {W : Type} `{Collaborators W}.

Definition log_event (e : Event) : M W unit :=
  modify (fun st => set_st_log (st_log st ++ [e]) st).

(** [*rule] for a rule pointer; there is no rule behind a dangling one. *)
Definition load_rule (a : nat) : M W MatchRule :=
  fun st => match st_rules st !! a with
            | Some r => Some (r, st)
            | None => None
            end.

Definition store_rule (a : nat) (r : MatchRule) : M W unit :=
  modify (fun st => set_st_rules (<[a := r]> (st_rules st)) st).

Definition registry_at (st : State W) (ref : RegistryRef) : MatchRegistry :=
  default MATCH_REGISTRY_INIT (st_registries st !! ref).

Definition owner_at (st : State W) (owner : Z) : MatchOwner :=
  default MATCH_OWNER_INIT (st_owners st !! owner).

Definition do_user_charge (user : Z) (slot : UserSlot) (amount : Z)
    : M W retcode :=
  log_event (EV_user_charge user slot amount) >>
  fun st => let '(r, w) := user_charge (st_world st) user slot amount in
            Some (r, set_st_world w st).

(** [user_charge_deinit]: nothing to release for an unset charge. *)
Definition do_user_charge_deinit (c : option UserCharge) : M W unit :=
  match c with
  | None => ret tt
  | Some c =>
      log_event (EV_user_charge_deinit c) >>
      modify (fun st => set_st_world (user_charge_deinit (st_world st) c) st)
  end.

Definition list_remove (a : nat) (l : list nat) : list nat :=
  List.filter (fun x => negb (x =? a)%nat) l.

Definition match_rule_unlink (a : nat) : M W unit :=
  let! rule := load_rule a in
  match r_registry rule with
  | None => ret tt
  | Some ref =>
      modify (fun st =>
        let reg := registry_at st ref in
        set_st_registries
          (<[ref := mkMatchRegistry (list_remove a (rule_list reg))
                      (list_remove a (eavesdrop_list reg))
                      (list_remove a (monitor_list reg))]>
             (st_registries st)) st) >>
      store_rule a (set_r_registry None rule)
  end.

(** [c_rbtree_remove_init]: a node that is linked, which for the node of a
    rule means that it is in the tree of its owner, is removed; nothing is
    done for a node that is not. *)
Definition c_rbtree_remove_init (tree : CRBTree) (a : nat) : CRBTree :=
  if bool_decide (a ∈ c_rbtree_entries tree) then c_rbtree_remove tree a
  else tree.

Definition match_rule_free (rule : option nat) : M W unit :=
  match rule with
  | None => ret tt
  | Some a =>
      let! r := load_rule a in
      assert (r_n_user_refs r =? 0) >>
      do_user_charge_deinit (r_charge1 r) >>
      do_user_charge_deinit (r_charge0 r) >>
      modify (fun st =>
        set_st_owners
          (<[r_owner r :=
               mkMatchOwner
                 (c_rbtree_remove_init (rule_tree (owner_at st (r_owner r))) a)]>
             (st_owners st)) st) >>
      match_rule_unlink a >>
      modify (fun st => set_st_rules (delete a (st_rules st)) st)
  end.

(** [match_rule_new]: the result and [*rulep]. [calloc] either fails or
    hands out the address [st_brk]. The cleanup handler of the local [rule]
    frees it on the error paths behind the allocation. *)
Definition match_rule_new (owner user : Z) (n : Z)
    : M W (retcode * option nat) :=
  let! st := get in
  if negb (calloc (st_world st) (sizeof_MatchRule + n)) then
    ret (error_origin (R_NEG ENOMEM), None)
  else
  let a := st_brk st in
  store_rule a (MATCH_RULE_NULL owner) >>
  let! r := do_user_charge user USER_SLOT_BYTES (sizeof_MatchRule + n) in
  (if c_truthy r then ret tt else
     let! rule := load_rule a in
     store_rule a
       (set_r_charge0
          (Some (mkUserCharge user USER_SLOT_BYTES (sizeof_MatchRule + n)))
          rule)) >>
  let! r :=
    (if c_truthy r then ret r else
       let! r := do_user_charge user USER_SLOT_MATCHES 1 in
       (if c_truthy r then ret tt else
          let! rule := load_rule a in
          store_rule a
            (set_r_charge1 (Some (mkUserCharge user USER_SLOT_MATCHES 1))
               rule)) >>
       ret r) in
  if c_truthy r then
    match_rule_free (Some a) >>
    ret (if bool_decide (r = R_E USER_E_QUOTA) then R_E MATCH_E_QUOTA
         else error_fold r, None)
  else ret (R_OK, Some a).

Definition SIZE_MAX : Z := 2 ^ 64 - 1.

Definition match_rule_user_ref (rule : option nat) : M W (option nat) :=
  match rule with
  | None => ret None
  | Some a =>
      let! r := load_rule a in
      assert (r_n_user_refs r >? 0) >>
      store_rule a
        (set_r_n_user_refs ((r_n_user_refs r + 1) mod (SIZE_MAX + 1)) r) >>
      ret (Some a)
  end.

Definition match_rule_user_unref (rule : option nat) : M W unit :=
  match rule with
  | None => ret tt
  | Some a =>
      let! r := load_rule a in
      assert (r_n_user_refs r >? 0) >>
      store_rule a (set_r_n_user_refs (r_n_user_refs r - 1) r) >>
      if r_n_user_refs r - 1 =? 0 then match_rule_free (Some a) else ret tt
  end.

Definition match_rule_link (a : nat) (registry : RegistryRef)
    (monitor : bool) : M W unit :=
  let! rule := load_rule a in
  if bool_decide (is_Some (r_registry rule)) then
    assert (bool_decide (r_registry rule = Some registry))
  else
    store_rule a (set_r_registry (Some registry) rule) >>
    modify (fun st =>
      let reg := registry_at st registry in
      set_st_registries
        (<[registry :=
             if monitor then
               mkMatchRegistry (rule_list reg) (eavesdrop_list reg)
                 (monitor_list reg ++ [a])
             else if k_eavesdrop (r_keys rule) then
               mkMatchRegistry (rule_list reg) (eavesdrop_list reg ++ [a])
                 (monitor_list reg)
             else
               mkMatchRegistry (rule_list reg ++ [a]) (eavesdrop_list reg)
                 (monitor_list reg)]>
           (st_registries st)) st).

(** The comparison of [match_rules_compare] against the rule at a node
    of the tree. *)
Definition rule_tree_compare (rules : gmap nat MatchRule)
    (k : MatchRuleKeys) (a : nat) : Z :=
  match rules !! a with
  | Some r => match_rules_compare k (r_keys r)
  | None => 1
  end.

(** [match_owner_ref_rule]: the result and what is stored to [*rulep];
    [rulep] tells whether the caller passed a pointer. The cleanup
    handler of the local [rule] drops the user reference of the rule that
    was created unless the rule went into the tree. *)
Definition match_owner_ref_rule (owner : Z) (rulep : bool) (user : Z)
    (rule_string : string) : M W (retcode * option nat) :=
  let n_buffer := (String.length rule_string + 1)%nat in
  let! (r, rule) := match_rule_new owner user (Z.of_nat n_buffer) in
  match rule with
  | None => ret (error_trace r, None)
  | Some a =>
      let! new := load_rule a in
      let new :=
        set_r_n_user_refs ((r_n_user_refs new + 1) mod (SIZE_MAX + 1)) new in
      let '(r, keys) :=
        match_rule_keys_parse address_from_string (r_keys new) n_buffer
          rule_string in
      let new := set_r_keys keys new in
      store_rule a new >>
      if c_truthy r then
        match_rule_user_unref (Some a) >> ret (error_trace r, None)
      else
        let! st := get in
        let tree := rule_tree (owner_at st owner) in
        match c_rbtree_find_slot (rule_tree_compare (st_rules st)) keys tree with
        | inl parent =>
            (* one already exists, take a ref on that instead and drop the
               one we created *)
            let! out :=
              (if rulep then match_rule_user_ref (Some parent)
               else ret None) in
            match_rule_user_unref (Some a) >>
            ret (R_OK, out)
        | inr slot =>
            (* link the new rule into the rbtree *)
            modify (fun st =>
              set_st_owners
                (<[owner := mkMatchOwner (c_rbtree_add tree slot a)]>
                   (st_owners st)) st) >>
            ret (R_OK, if rulep then Some a else None)
        end
  end.

End MatchState.

(** ** match.c: walking the lists of a registry

    A cursor is a rule pointer, [None] for [NULL]. A step that the C code
    leaves undefined (the entry of a list head, a dangling rule) has no
    result: the outer [option] is [None]. *)

Definition c_list_first_entry (l : list nat) : option nat := head l.
Definition c_list_last_entry (l : list nat) : option nat := last l.

(** The entries behind [a] in a list that holds [a]. *)
Fixpoint c_list_behind (a : nat) (l : list nat) : option (list nat) :=
  match l with
  | [] => None
  | x :: l' => if (x =? a)%nat then Some l' else c_list_behind a l'
  end.

(** [c_list_entry (rule->registry_link.next, ...)]: the entry behind the
    rule in the list of the registry it is linked in. Behind the last entry
    comes the list head, which is no entry. *)
Definition registry_link_next (reg : MatchRegistry) (a : nat) : option nat :=
  let chain :=
    match c_list_behind a (eavesdrop_list reg) with
    | Some t => Some t
    | None =>
        match c_list_behind a (rule_list reg) with
        | Some t => Some t
        | None => c_list_behind a (monitor_list reg)
        end
    end in
  match chain with
  | Some (x :: _) => Some x
  | _ => None
  end.

Definition ptr_eqb (p q : option nat) : bool := bool_decide (p = q).

Definition match_rule_next (rules : gmap nat MatchRule) (reg : MatchRegistry)
    (rule : option nat) (unicast : bool) : option (option nat) :=
  match rule with
  | None =>
      match c_list_first_entry (eavesdrop_list reg) with
      | Some a => Some (Some a)
      | None =>
          if unicast then Some None
          else Some (c_list_first_entry (rule_list reg))
      end
  | Some a =>
      match rules !! a with
      | None => None
      | Some r =>
          if k_eavesdrop (r_keys r) then
            if negb (ptr_eqb rule (c_list_last_entry (eavesdrop_list reg)))
            then Some <$> registry_link_next reg a
            else if unicast then Some None
            else Some (c_list_first_entry (rule_list reg))
          else
            if negb (ptr_eqb rule (c_list_last_entry (rule_list reg)))
            then Some <$> registry_link_next reg a
            else Some None
      end
  end.

(** The [for] loop of [match_rule_next_match], entered with the value of
    its loop variable. It takes a round per rule it passes; [fuel] bounds
    the rounds. *)
Fixpoint match_rule_next_match_loop (fuel : nat) (rules : gmap nat MatchRule)
    (reg : MatchRegistry) (rule : option nat) (unicast : bool)
    (flt : MatchFilter) : option (option nat) :=
  match rule with
  | None => Some None
  | Some a =>
      match rules !! a with
      | None => None
      | Some r =>
          if match_rule_keys_match_filter (r_keys r) flt then Some (Some a)
          else
            match fuel with
            | O => None
            | S fuel' =>
                match match_rule_next rules reg rule unicast with
                | None => None
                | Some next =>
                    match_rule_next_match_loop fuel' rules reg next unicast flt
                end
            end
      end
  end.

Definition registry_size (reg : MatchRegistry) : nat :=
  length (rule_list reg) + length (eavesdrop_list reg)
  + length (monitor_list reg).

Definition match_rule_next_match (rules : gmap nat MatchRule)
    (reg : MatchRegistry) (rule : option nat) (flt : MatchFilter)
    : option (option nat) :=
  let unicast := negb (f_destination flt =? ADDRESS_ID_INVALID) in
  match match_rule_next rules reg rule unicast with
  | None => None
  | Some first =>
      match_rule_next_match_loop (registry_size reg) rules reg first unicast flt
  end.

(** The [for] loop of [match_rule_next_monitor_match] over the entries
    [l] that start at the loop variable. An empty [l] stands for a loop
    variable that has left the list. *)
Fixpoint match_rule_next_monitor_match_loop (rules : gmap nat MatchRule)
    (last : option nat) (l : list nat) (flt : MatchFilter)
    : option (option nat) :=
  match l with
  | [] => None
  | a :: l' =>
      if ptr_eqb (Some a) last then Some None
      else
        match rules !! a with
        | None => None
        | Some r =>
            if match_rule_keys_match_filter (r_keys r) flt then Some (Some a)
            else match_rule_next_monitor_match_loop rules last l' flt
        end
  end.

Definition match_rule_next_monitor_match (rules : gmap nat MatchRule)
    (reg : MatchRegistry) (rule : option nat) (flt : MatchFilter)
    : option (option nat) :=
  let last := c_list_last_entry (monitor_list reg) in
  match rule with
  | Some a =>
      match c_list_behind a (monitor_list reg) with
      | Some l => match_rule_next_monitor_match_loop rules last l flt
      | None => None
      end
  | None =>
      match monitor_list reg with
      | [] => Some None
      | l => match_rule_next_monitor_match_loop rules last l flt
      end
  end.

(** The caller's loop: [match_rule_next_monitor_match] from [NULL] until it
    returns [NULL], collecting the rules it yields. *)
Fixpoint monitor_matches_from (fuel : nat) (rules : gmap nat MatchRule)
    (reg : MatchRegistry) (rule : option nat) (flt : MatchFilter)
    : option (list nat) :=
  match match_rule_next_monitor_match rules reg rule flt with
  | None => None
  | Some None => Some []
  | Some (Some a) =>
      match fuel with
      | O => None
      | S fuel' => cons a <$> monitor_matches_from fuel' rules reg (Some a) flt
      end
  end.

Definition monitor_matches (rules : gmap nat MatchRule) (reg : MatchRegistry)
    (flt : MatchFilter) : option (list nat) :=
  monitor_matches_from (length (monitor_list reg)) rules reg None flt.

(** ** peer.c *)

Definition peer_compare (id : Z) (peer : Peer) : Z :=
  if id <? p_id peer then -1
  else if id >? p_id peer then 1
  else 0.

Definition peer_registry_find_peer (registry : PeerRegistry) (id : Z)
    : option Peer :=
  match c_rbtree_find_entry peer_compare id (peer_tree registry) with
  | Some peer => if p_registered peer then Some peer else None
  | None => None
  end.

Section PeerState.

Context {W : Type} `{Collaborators W}.

(** A [Peer *] is held as the id of the peer, which is unique among the
    peers of the bus; [*peer] is the entry of the peer tree. *)
Definition load_peer (peer : Z) : M W Peer :=
  fun st =>
    match c_rbtree_find_entry peer_compare peer (peer_tree (st_peers st)) with
    | Some p => Some (p, st)
    | None => None
    end.

Definition store_peer (p : Peer) : M W unit :=
  modify (fun st =>
    set_st_peers
      (mkPeerRegistry
         (map (fun q => if p_id q =? p_id p then p else q)
              (peer_tree (st_peers st)))
         (ids (st_peers st))) st).

Definition peer_register (peer : Z) : M W unit :=
  let! p := load_peer peer in
  assert (negb (p_registered p)) >>
  assert (negb (p_monitor p)) >>
  store_peer (set_p_registered true p).

Definition peer_unregister (peer : Z) : M W unit :=
  let! p := load_peer peer in
  assert (p_registered p) >>
  assert (negb (p_monitor p)) >>
  store_peer (set_p_registered false p).

Definition do_policy_check_own (peer : Z) (name : string) : M W retcode :=
  log_event (EV_policy_check_own peer name) >>
  fun st => Some (peer_policy_check_own (st_world st) peer name, st).

Definition do_policy_check_send (sender : Z) (receiver_names : NameSet)
    (receiver : Z) (message : Message) : M W retcode :=
  log_event (EV_policy_check_send sender receiver) >>
  fun st =>
    Some (peer_policy_check_send (st_world st) sender receiver_names message,
          st).

Definition do_policy_check_receive (receiver : Z)
    (sender_names : option NameSet) (message : Message) : M W retcode :=
  log_event (EV_policy_check_receive receiver) >>
  fun st =>
    Some (peer_policy_check_receive (st_world st) receiver sender_names
            message, st).

Definition do_world (e : Event) (f : W -> retcode * W) : M W retcode :=
  log_event e >>
  fun st => let '(r, w) := f (st_world st) in Some (r, set_st_world w st).

Definition do_world_ (e : Event) (f : W -> W) : M W unit :=
  log_event e >>
  modify (fun st => set_st_world (f (st_world st)) st).

Definition peer_request_name (peer : Z) (name : string) (flags : Z)
    : M W retcode :=
  if strcmp name "org.freedesktop.DBus" =? 0 then ret (R_E PEER_E_NAME_RESERVED)
  else if Ascii.eqb (deref name) ":" then ret (R_E PEER_E_NAME_UNIQUE)
  else
    let! r := do_policy_check_own peer name in
    if c_truthy r then
      if bool_decide (r = R_E POLICY_E_ACCESS_DENIED)
      then ret (R_E PEER_E_NAME_REFUSED)
      else ret (error_fold r)
    else
      let! r :=
        do_world (EV_name_registry_request_name peer name)
          (fun w => name_registry_request_name w peer name flags) in
      if bool_decide (r = R_E NAME_E_QUOTA) then ret (R_E PEER_E_QUOTA)
      else if bool_decide (r = R_E NAME_E_ALREADY_OWNER)
      then ret (R_E PEER_E_NAME_ALREADY_OWNER)
      else if bool_decide (r = R_E NAME_E_IN_QUEUE)
      then ret (R_E PEER_E_NAME_IN_QUEUE)
      else if bool_decide (r = R_E NAME_E_EXISTS)
      then ret (R_E PEER_E_NAME_EXISTS)
      else if c_truthy r then ret (error_fold r)
      else ret R_OK.

Definition peer_release_name (peer : Z) (name : string) : M W retcode :=
  if strcmp name "org.freedesktop.DBus" =? 0 then ret (R_E PEER_E_NAME_RESERVED)
  else if Ascii.eqb (deref name) ":" then ret (R_E PEER_E_NAME_UNIQUE)
  else
    let! r :=
      do_world (EV_name_registry_release_name peer name)
        (fun w => name_registry_release_name w peer name) in
    if bool_decide (r = R_E NAME_E_NOT_FOUND)
    then ret (R_E PEER_E_NAME_NOT_FOUND)
    else if bool_decide (r = R_E NAME_E_NOT_OWNER)
    then ret (R_E PEER_E_NAME_NOT_OWNER)
    else if c_truthy r then ret (error_fold r)
    else ret R_OK.

Definition peer_link_match (peer : Z) (rule : nat) (monitor : bool)
    : M W retcode :=
  let! r := load_rule rule in
  match k_sender (r_keys r) with
  | None => match_rule_link rule REG_WILDCARD monitor >> ret R_OK
  | Some sender_name =>
      if strcmp sender_name "org.freedesktop.DBus" =? 0 then
        match_rule_link rule REG_DRIVER monitor >> ret R_OK
      else
        match address_from_string sender_name with
        | ADDRESS_TYPE_ID id =>
            let! st := get in
            match peer_registry_find_peer (st_peers st) id with
            | Some sender =>
                match_rule_link rule (REG_PEER (p_id sender)) monitor >>
                ret R_OK
            | None =>
                if id >=? ids (st_peers st) then
                  store_rule rule
                    (set_r_keys
                       (set_k_filter
                          (set_f_sender id (k_filter (r_keys r))) (r_keys r))
                       r) >>
                  match_rule_link rule REG_WILDCARD monitor >> ret R_OK
                else ret R_OK
            end
        | ADDRESS_TYPE_NAME _ | ADDRESS_TYPE_OTHER =>
            let! r :=
              do_world (EV_name_registry_ref_name sender_name)
                (fun w => name_registry_ref_name w sender_name) in
            if c_truthy r then ret (error_fold r)
            else
              match_rule_link rule (REG_NAME sender_name) monitor >>
              do_world_ (EV_name_ref sender_name)
                (fun w => name_ref w sender_name) >>
              do_world_ (EV_name_unref sender_name)
                (fun w => name_unref w sender_name) >>
              ret R_OK
        | ADDRESS_TYPE_INVALID => ret (error_origin (R_NEG ENOTRECOVERABLE))
        end
  end.

Definition peer_add_match (peer : Z) (rule_string : string)
    (force_eavesdrop : bool) : M W retcode :=
  let! p := load_peer peer in
  let! (r, rule) := match_owner_ref_rule peer true (p_user p) rule_string in
  if c_truthy r then
    if bool_decide (r = R_E MATCH_E_QUOTA) then ret (R_E PEER_E_QUOTA)
    else if bool_decide (r = R_E MATCH_E_INVALID)
    then ret (R_E PEER_E_MATCH_INVALID)
    else ret (error_fold r)
  else
    match rule with
    | None => fun _ => None
    | Some a =>
        (if force_eavesdrop then
           let! x := load_rule a in
           store_rule a (set_r_keys (set_k_eavesdrop true (r_keys x)) x)
         else ret tt) >>
        let! r := peer_link_match peer a false in
        if c_truthy r then
          match_rule_user_unref (Some a) >> ret (error_trace r)
        else ret R_OK
    end.

End PeerState.

Section Routing.

Context {W : Type} `{Collaborators W}.

Definition lift {A : Type} (x : option A) : M W A :=
  fun st => match x with
            | Some v => Some (v, st)
            | None => None
            end.

Definition do_match_rule_next_match (matches : RegistryRef)
    (rule : option nat) (flt : MatchFilter) : M W (option nat) :=
  let! st := get in
  lift (match_rule_next_match (st_rules st) (registry_at st matches) rule flt).

(** The body of the loop of [peer_broadcast_to_matches] for one rule:
    [None] stands for [continue] or the end of the body, [Some r] for
    [return r]. *)
Definition peer_broadcast_to_matches_body (sender_policy : option Z)
    (sender_names : option NameSet) (flt : MatchFilter)
    (transaction_id : Z) (message : Message) (rule : nat)
    : M W (option retcode) :=
  let! r := load_rule rule in
  let receiver := r_owner r in
  let receiver_names := NAME_SET_TYPE_OWNER receiver in
  (* exclude the destination from broadcasts *)
  if f_destination flt =? receiver then ret None else
  let! denied :=
    match sender_policy with
    | Some policy =>
        let! r := do_policy_check_send policy receiver_names receiver message in
        if c_truthy r then
          if bool_decide (r = R_E POLICY_E_ACCESS_DENIED) then ret (Some None)
          else ret (Some (Some (error_fold r)))
        else ret None
    | None => ret None
    end in
  match denied with
  | Some out => ret out
  | None =>
      let! r := do_policy_check_receive receiver sender_names message in
      if c_truthy r then
        if bool_decide (r = R_E POLICY_E_ACCESS_DENIED) then ret None
        else ret (Some (error_fold r))
      else
        let! r :=
          do_world (EV_connection_queue receiver transaction_id)
            (fun w => connection_queue w receiver None transaction_id message) in
        if c_truthy r then
          if bool_decide (r = R_E CONNECTION_E_QUOTA) then
            do_world_ (EV_connection_shutdown receiver)
              (fun w => connection_shutdown w receiver) >> ret None
          else ret (Some (error_fold r))
        else ret None
  end.

(** The loop of [peer_broadcast_to_matches], entered with the value of
    its loop variable. It takes a round per rule; [fuel] bounds the
    rounds. *)
Fixpoint peer_broadcast_to_matches_loop (fuel : nat)
    (sender_policy : option Z) (sender_names : option NameSet)
    (matches : RegistryRef) (flt : MatchFilter) (transaction_id : Z)
    (message : Message) (rule : option nat) : M W retcode :=
  match rule with
  | None => ret R_OK
  | Some a =>
      match fuel with
      | O => fun _ => None
      | S fuel' =>
          let! out :=
            peer_broadcast_to_matches_body sender_policy sender_names flt
              transaction_id message a in
          match out with
          | Some r => ret r
          | None =>
              let! next := do_match_rule_next_match matches rule flt in
              peer_broadcast_to_matches_loop fuel' sender_policy sender_names
                matches flt transaction_id message next
          end
      end
  end.

Definition peer_broadcast_to_matches (sender_policy : option Z)
    (sender_names : option NameSet) (matches : RegistryRef)
    (flt : MatchFilter) (transaction_id : Z) (message : Message)
    : M W retcode :=
  let! st := get in
  let! first := do_match_rule_next_match matches None flt in
  peer_broadcast_to_matches_loop (registry_size (registry_at st matches))
    sender_policy sender_names matches flt transaction_id message first.

(** The filter that [peer_broadcast] builds from the message when the
    caller passes none. *)
Definition message_arg (message : Message) (i : nat) : ascii * option string :=
  default (zero, None) (m_args message !! i).

Definition fallback_filter (sender_id : Z) (destination : option Z)
    (message : Message) : MatchFilter :=
  {| f_type := m_type message;
     f_sender := sender_id;
     f_destination := default ADDRESS_ID_INVALID destination;
     f_interface := m_interface message;
     f_member := m_member message;
     f_path := m_path message;
     f_args :=
       map (fun i => let '(e, v) := message_arg message i in
                     if Ascii.eqb e "s" then v else None) (seq 0 N_ARGS);
     f_argpaths :=
       map (fun i => let '(e, v) := message_arg message i in
                     if Ascii.eqb e "s" then v
                     else if Ascii.eqb e "o" then v else None)
           (seq 0 N_ARGS) |}.

(** The loops of [peer_broadcast] over the registries of the names of the
    sender; the first error ends them. *)
Fixpoint peer_broadcast_to_names (sender_policy : option Z)
    (sender_names : option NameSet) (names : list string)
    (flt : MatchFilter) (transaction_id : Z) (message : Message)
    : M W retcode :=
  match names with
  | [] => ret R_OK
  | name :: names' =>
      let! r :=
        peer_broadcast_to_matches sender_policy sender_names (REG_NAME name)
          flt transaction_id message in
      if c_truthy r then ret (error_trace r)
      else peer_broadcast_to_names sender_policy sender_names names' flt
             transaction_id message
  end.

Definition peer_broadcast (sender_policy : option Z)
    (sender_names : option NameSet) (sender_matches : option RegistryRef)
    (sender_id : Z) (destination : option Z) (flt : option MatchFilter)
    (message : Message) : M W retcode :=
  let flt :=
    match flt with
    | Some f => f
    | None => fallback_filter sender_id destination message
    end in
  (* start a new transaction, to avoid duplicates *)
  modify (fun st =>
    set_st_transaction_ids
      ((st_transaction_ids st + 1) mod (UINT64_MAX + 1)) st) >>
  let! st := get in
  let txn := st_transaction_ids st in
  let! r :=
    peer_broadcast_to_matches sender_policy sender_names REG_WILDCARD flt txn
      message in
  if c_truthy r then ret (error_trace r) else
  let! r :=
    match sender_matches with
    | Some m =>
        peer_broadcast_to_matches sender_policy sender_names m flt txn message
    | None => ret R_OK
    end in
  if c_truthy r then ret (error_trace r) else
  match sender_names with
  | Some (NAME_SET_TYPE_OWNER owner) =>
      let! st := get in
      peer_broadcast_to_names sender_policy sender_names
        (name_owner_primaries (st_world st) owner) flt txn message
  | Some (NAME_SET_TYPE_SNAPSHOT names) =>
      peer_broadcast_to_names sender_policy sender_names names flt txn message
  | None =>
      (* sent from the driver *)
      let! r :=
        peer_broadcast_to_matches None None REG_DRIVER flt txn message in
      if c_truthy r then ret (error_trace r) else ret R_OK
  end.

(** [peer_queue_call]. The cleanup handler of the local [slot] frees the
    reply slot on every return but the last. *)
Definition peer_queue_call (sender_policy : Z)
    (sender_names : option NameSet) (sender_matches : option RegistryRef)
    (sender_replies : option Z) (sender_user : Z) (sender_id : Z)
    (receiver : Z) (message : Message) : M W retcode :=
  let! rcv := load_peer receiver in
  let serial := m_serial message in
  let free_slot (slot : bool) : M W unit :=
    if slot then
      do_world_ (EV_reply_slot_free receiver sender_id serial)
        (fun w => reply_slot_free w receiver sender_id serial)
    else ret tt in
  let! early :=
    match sender_replies with
    | Some replies =>
        if (m_type message =? DBUS_MESSAGE_TYPE_METHOD_CALL)
           && (Z.land (m_flags message) DBUS_HEADER_FLAG_NO_REPLY_EXPECTED =? 0)
        then
          let! r :=
            do_world (EV_reply_slot_new receiver sender_id serial)
              (fun w => reply_slot_new w receiver replies (p_user rcv)
                          sender_user sender_id serial) in
          if bool_decide (r = R_E REPLY_E_EXISTS)
          then ret (inl (R_E PEER_E_EXPECTED_REPLY_EXISTS))
          else if bool_decide (r = R_E REPLY_E_QUOTA)
          then ret (inl (R_E PEER_E_QUOTA))
          else if c_truthy r then ret (inl (error_fold r))
          else ret (inr true)
        else ret (inr false)
    | None => ret (inr false)
    end in
  match early with
  | inl r => ret r
  | inr slot =>
      let! r := do_policy_check_receive receiver sender_names message in
      if c_truthy r then
        free_slot slot >>
        if bool_decide (r = R_E POLICY_E_ACCESS_DENIED)
        then ret (R_E PEER_E_RECEIVE_DENIED) else ret (error_fold r)
      else
      let! r :=
        do_policy_check_send sender_policy (NAME_SET_TYPE_OWNER receiver)
          receiver message in
      if c_truthy r then
        free_slot slot >>
        if bool_decide (r = R_E POLICY_E_ACCESS_DENIED)
        then ret (R_E PEER_E_SEND_DENIED) else ret (error_fold r)
      else
      let! r :=
        do_world (EV_connection_queue receiver 0)
          (fun w => connection_queue w receiver (Some sender_user) 0 message) in
      if c_truthy r then
        free_slot slot >>
        if c_truthy (R_E CONNECTION_E_QUOTA) then ret (R_E PEER_E_QUOTA)
        else ret (error_fold r)
      else
      (* for eavesdropping *)
      let! r :=
        peer_broadcast (Some sender_policy) sender_names sender_matches
          sender_id (Some receiver) None message in
      if c_truthy r then free_slot slot >> ret (error_trace r)
      else ret R_OK
  end.

End Routing.

(** ** A reference instance of the collaborators

    The scenarios of the specification are run against this instance. *)

Module Reference.

(** The decimal number in front of the first character that is no
    digit, and the rest; [None] without a digit. *)
Fixpoint read_decimal (s : string) (acc : option Z) : option Z * string :=
  match s with
  | EmptyString => (acc, s)
  | String c s' =>
      if is_digit c then
        read_decimal s'
          (Some (default 0 acc * 10
                 + (Z.of_nat (nat_of_ascii c) - Z.of_nat (nat_of_ascii "0"))))
      else (acc, s)
  end.

(** Modelled from the spec: [address_from_string] of dbus/address.c, which
    is defined outside of match.c and peer.c. Unique-ids are strings
    [":<u64>.<u64>"], and the id of the peer is the second number; any
    other string that starts with a colon is no name. *)
Definition parse_address (s : string) : Address :=
  match s with
  | String ":" rest =>
      match read_decimal rest None with
      | (Some _, String "." rest') =>
          match read_decimal rest' None with
          | (Some id, EmptyString) =>
              if id <=? UINT64_MAX then ADDRESS_TYPE_ID id
              else ADDRESS_TYPE_OTHER
          | _ => ADDRESS_TYPE_OTHER
          end
      | _ => ADDRESS_TYPE_OTHER
      end
  | _ => ADDRESS_TYPE_NAME s
  end.

(** The world of the reference instance: the use and the limit of the
    MATCHES slot, shared by all users, and the result that the next
    [connection_queue] returns. *)
Record World := mkWorld {
  matches_used : Z;
  matches_max : Z;
  queue_result : retcode;
}.

(** Modelled from the spec: [user_charge] of util/user.c fails with
    [USER_E_QUOTA] if and only if the use and the amount exceed the
    limit. *)
Definition charge (w : World) (user : Z) (slot : UserSlot) (amount : Z)
    : retcode * World :=
  match slot with
  | USER_SLOT_MATCHES =>
      if matches_used w + amount >? matches_max w then (R_E USER_E_QUOTA, w)
      else (R_OK, mkWorld (matches_used w + amount) (matches_max w)
                    (queue_result w))
  | _ => (R_OK, w)
  end.

Definition charge_deinit (w : World) (c : UserCharge) : World :=
  match charge_slot c with
  | USER_SLOT_MATCHES =>
      mkWorld (matches_used w - charge_amount c) (matches_max w)
        (queue_result w)
  | _ => w
  end.

(** The reference instance. Its [calloc] never fails, its policy allows
    everything, and its tree operations link and unlink a node with no
    rotation, which is what the c-rbtree library does on a tree of a root
    and its two children. *)
#[global] Instance collaborators : Collaborators World := {|
  address_from_string := parse_address;
  sizeof_MatchRule := 1024;
  calloc := fun _ _ => true;
  c_rbtree_add := c_rbtree_link;
  c_rbtree_remove := c_rbtree_unlink;
  user_charge := charge;
  user_charge_deinit := charge_deinit;
  peer_policy_check_own := fun _ _ _ => R_OK;
  peer_policy_check_send := fun _ _ _ _ => R_OK;
  peer_policy_check_receive := fun _ _ _ _ => R_OK;
  name_registry_request_name := fun w _ _ _ => (R_OK, w);
  name_registry_release_name := fun w _ _ => (R_OK, w);
  name_registry_ref_name := fun w _ => (R_OK, w);
  name_ref := fun w _ => w;
  name_unref := fun w _ => w;
  name_owner_primaries := fun _ _ => [];
  reply_slot_new := fun w _ _ _ _ _ _ => (R_OK, w);
  reply_slot_free := fun w _ _ _ => w;
  connection_queue := fun w _ _ _ _ => (queue_result w, w);
  connection_shutdown := fun w _ => w;
|}.

Definition world0 : World := mkWorld 0 256 R_OK.

(** A bus without rules that holds the given peers. *)
Definition bus (peers : list Peer) (next_id : Z) (w : World) : State World :=
  mkState ∅ ∅ ∅ (mkPeerRegistry peers next_id) 0 w [].

(** The keys of a rule string, as [match_rule_keys_parse] leaves them in
    a fresh rule. *)
Definition keys_of (rule_string : string) : retcode * MatchRuleKeys :=
  match_rule_keys_parse parse_address MatchRuleKeys_zero
    (String.length rule_string + 1) rule_string.

(** A signal without destination whose first argument is the string
    [arg0], sent on [path]. *)
Definition signal (path arg0 : string) : Message :=
  mkMessage DBUS_MESSAGE_TYPE_SIGNAL 0 1 (Some "org.example.Iface")
    (Some "Changed") (Some path) [("s"%char, Some arg0)].


(** The state a computation leaves; the state it started in when it
stops. *)
Definition exec {A : Type} (m : M World A) (st : State World) : State World :=
  match m st with
  | Some (_, st') => st'
  | None => st
  end.

Definition reference_peers : list Peer :=
  [mkPeer 1 1000 true false; mkPeer 2 1000 true false;
 mkPeer 3 1000 false false; mkPeer 4 1000 true false;
 mkPeer 9 0 false false].

(** A new rule of the owner [peer] that is linked with [monitor] set, the
way [peer_become_monitor] links the rules of a monitor. *)
Definition add_monitor_rule (peer : Z) (rule_string : string) : M World retcode :=
  let! (r, rule) := match_owner_ref_rule peer true 0 rule_string in
  match rule with
  | Some a => peer_link_match peer a true
  | None => ret r
  end.

(** Peer 9 monitors with the one rule ["type='signal'"]. *)
Definition one_monitor_rule : State World :=
  exec (add_monitor_rule 9 "type='signal'") (bus reference_peers 10 world0).

(** Peer 9 monitors with the two rules ["type='signal'"] and
["member='Changed'"]. *)
Definition two_monitor_rules : State World :=
  exec (add_monitor_rule 9 "member='Changed'") one_monitor_rule.

(** A method call with serial 5 that expects a reply. *)
Definition method_call : Message :=
  mkMessage DBUS_MESSAGE_TYPE_METHOD_CALL 0 5 (Some "org.example.Iface")
  (Some "Get") (Some "/a") [].

(** The bus of the reference peers on which every [connection_queue]
returns [r]. *)
Definition queue_returns (r : retcode) : State World :=
  bus reference_peers 10 (mkWorld 0 256 r).

(** Peer 1 calls peer 2. *)
Definition call_1_to_2 : M World retcode :=
  peer_queue_call 1 (Some (NAME_SET_TYPE_OWNER 1)) (Some (REG_PEER 1)) (Some 1)
  1000 1 2 method_call.

(** The rule ["sender=':1.<id>'"] of peer 1, created and not yet linked. *)
Definition with_sender_rule (rule_string : string) : State World :=
  exec (match_owner_ref_rule 1 true 1000 rule_string)
  (bus reference_peers 10 world0).

(** Peer 4 and peer 2 each have the rule ["eavesdrop='true'"]; both rules
are in the eavesdrop list of the wildcard registry. *)
Definition two_eavesdroppers : State World :=
  exec (peer_add_match 4 "eavesdrop='true'" false >>
      peer_add_match 2 "eavesdrop='true'" false)
  (bus reference_peers 10 world0).

(** Peer 1 has added the rule ["type='signal'"] once. *)
Definition one_rule : State World :=
  exec (match_owner_ref_rule 1 true 1000 "type='signal'")
  (bus reference_peers 10 world0).

(** The same with a limit of one match rule for the user. *)
Definition one_rule_at_quota : State World :=
  exec (match_owner_ref_rule 1 true 1000 "type='signal'")
  (bus reference_peers 10 (mkWorld 0 1 R_OK)).

End Reference.

(** ** Where a rule is linked *)

Section Linked.

Context {W : Type}.

(** The list of a registry that [match_rule_link] puts a rule into. *)
Definition link_list (monitor : bool) (r : MatchRule) (reg : MatchRegistry)
    : list nat :=
  if monitor then monitor_list reg
  else if k_eavesdrop (r_keys r) then eavesdrop_list reg
  else rule_list reg.

(** The rule at [a] is linked into the registry [ref]: its registry
pointer is [ref] and it is the last entry of the list it belongs to. *)
Definition rule_linked_in (st : State W) (a : nat) (ref : RegistryRef)
    (monitor : bool) : Prop :=
  exists r, st_rules st !! a = Some r /\ r_registry r = Some ref
  /\ c_list_last_entry (link_list monitor r (registry_at st ref)) = Some a.

End Linked.

(** ** The order of a broadcast and its log *)

(** The event is no [connection_queue] on the connection of [dest]. *)
Definition not_queued_to (dest : Z) (e : Event) : Prop :=
  match e with
  | EV_connection_queue receiver _ => receiver <> dest
  | _ => True
  end.

(** From [st] to [st'] the log grew by events that queue nothing to
[dest]. *)
Definition log_extends {W : Type} (dest : Z) (st st' : State W) : Prop :=
  exists evs, st_log st' = (st_log st ++ evs)%list
  /\ Forall (not_queued_to dest) evs.

(** A registry whose lists agree with the [eavesdrop] flags of the rules
in them, as [match_rule_link] fills them, and hold no rule twice. *)
Definition registry_wf (rules : gmap nat MatchRule) (reg : MatchRegistry)
    : Prop :=
  NoDup (eavesdrop_list reg ++ rule_list reg)%list
  /\ (forall a, a ∈ eavesdrop_list reg ->
      exists r, rules !! a = Some r /\ k_eavesdrop (r_keys r) = true)
  /\ (forall a, a ∈ rule_list reg ->
      exists r, rules !! a = Some r /\ k_eavesdrop (r_keys r) = false).

(** The rules that [match_rule_next] walks over: the eavesdrop list, and
behind it the rule list unless the message has a destination. *)
Definition walk (reg : MatchRegistry) (unicast : bool) : list nat :=
  (eavesdrop_list reg ++ (if unicast then [] else rule_list reg))%list.

Definition rule_matches (rules : gmap nat MatchRule) (flt : MatchFilter)
    (a : nat) : bool :=
  match rules !! a with
  | Some r => match_rule_keys_match_filter (r_keys r) flt
  | None => false
  end.

Definition first_match (rules : gmap nat MatchRule) (flt : MatchFilter)
    (l : list nat) : option nat :=
  List.find (rule_matches rules flt) l.

(** ** The rules of an owner *)

(** The fields of the keys that [match_rules_compare] compares: the
canonical key tuple of a rule. *)
Definition canonical (k : MatchRuleKeys) :=
  (k_sender k, k_destination k, f_interface (k_filter k), f_member (k_filter k),
   f_path (k_filter k), k_path_namespace k, k_arg0namespace k,
   f_type (k_filter k), k_eavesdrop k,
   map (arr_get (f_args (k_filter k))) (seq 0 N_ARGS),
   map (arr_get (f_argpaths (k_filter k))) (seq 0 N_ARGS)).

Section OwnerState.

Context {W : Type} `{Collaborators W}.

(** The rule at [a] sorts before the rule at [b] by
    [match_rules_compare]. *)
Definition rule_before (rules : gmap nat MatchRule) (a b : nat) : Prop :=
  exists ra rb,
    rules !! a = Some ra /\ rules !! b = Some rb
    /\ match_rules_compare (r_keys ra) (r_keys rb) < 0.

(** A tree is ordered: at every node, the entries to the left sort before
    the entry of the node, and those to the right behind it. *)
Fixpoint c_rbtree_ordered (before : nat -> nat -> Prop) (tree : CRBTree)
    : Prop :=
  match tree with
  | CRB_NULL => True
  | CRB_Node l x r =>
      (forall a, a ∈ c_rbtree_entries l -> before a x)
      /\ (forall b, b ∈ c_rbtree_entries r -> before x b)
      /\ c_rbtree_ordered before l /\ c_rbtree_ordered before r
  end.

(** The entries of the rule tree of the owner are rules of the heap, and
    the tree is ordered by the keys that the rules have now. *)
Definition owner_ordered (st : State W) (owner : Z) : Prop :=
  (forall a, a ∈ rule_tree (owner_at st owner) -> is_Some (st_rules st !! a))
  /\ c_rbtree_ordered (rule_before (st_rules st))
       (rule_tree (owner_at st owner)).

(** The result and the keys of [match_rule_keys_parse] on a fresh rule. *)
Definition parsed_keys (rule_string : string) : retcode * MatchRuleKeys :=
  match_rule_keys_parse address_from_string MatchRuleKeys_zero
    (String.length rule_string + 1) rule_string.

(** [++rule->n_user_refs]. *)
Definition incr_user_refs (r : MatchRule) : MatchRule :=
  set_r_n_user_refs ((r_n_user_refs r + 1) mod (SIZE_MAX + 1)) r.

(** A registry after [c_list_unlink_init] of the rule at [a]. *)
Definition unlinked_registry (a : nat) (reg : MatchRegistry) : MatchRegistry :=
  mkMatchRegistry (list_remove a (rule_list reg))
    (list_remove a (eavesdrop_list reg)) (list_remove a (monitor_list reg)).

(** The state after [match_rule_free] of the rule [r] at [a]; [w] and [l]
are the world and the log after the charges are released. *)
Definition freed_state (a : nat) (r : MatchRule) (w : W) (l : list Event)
    (st : State W) : State W :=
  mkState (delete a (st_rules st))
    (<[r_owner r :=
         mkMatchOwner
           (c_rbtree_remove_init (rule_tree (owner_at st (r_owner r))) a)]>
       (st_owners st))
    (match r_registry r with
     | None => st_registries st
     | Some ref =>
         <[ref := unlinked_registry a (registry_at st ref)]> (st_registries st)
     end)
    (st_peers st) (st_transaction_ids st) w l.

End OwnerState.

(** ** Further functions of match.c and peer.c *)

Section MatchGet.

Context {W : Type} `{Collaborators W}.

(** [match_rule_get]: the result and what is stored to [*rulep]. The keys
    are parsed into a local [MatchRuleKeys keys = {}] and a buffer of
    [strlen (rule_string) + 1] bytes; nothing is stored on an error. *)
Definition match_rule_get (owner : Z) (rule_string : string)
    : M W (retcode * option nat) :=
  let '(r, keys) :=
    match_rule_keys_parse address_from_string MatchRuleKeys_zero
      (String.length rule_string + 1) rule_string in
  if c_truthy r then ret (error_trace r, None)
  else
    let! st := get in
    match c_rbtree_find_node (rule_tree_compare (st_rules st)) keys
            (rule_tree (owner_at st owner)) with
    | None => ret (R_E MATCH_E_NOT_FOUND, None)
    | Some rule => ret (R_OK, Some rule)
    end.

End MatchGet.

(** The loop of [peer_broadcast_to_matches] over a registry, without its
    body: [match_rule_next_match] from [NULL] until it returns [NULL],
    collecting the rules it yields. *)
Fixpoint matches_from (fuel : nat) (rules : gmap nat MatchRule)
    (reg : MatchRegistry) (rule : option nat) (flt : MatchFilter)
    : option (list nat) :=
  match match_rule_next_match rules reg rule flt with
  | None => None
  | Some None => Some []
  | Some (Some a) =>
      match fuel with
      | O => None
      | S fuel' => cons a <$> matches_from fuel' rules reg (Some a) flt
      end
  end.

Definition all_matches (rules : gmap nat MatchRule) (reg : MatchRegistry)
    (flt : MatchFilter) : option (list nat) :=
  matches_from (registry_size reg) rules reg None flt.

Definition set_p_monitor v p :=
  mkPeer (p_id p) (p_user p) (p_registered p) v.

Definition set_r_owner v r := mkMatchRule (r_keys r) v (r_registry r)
  (r_n_user_refs r) (r_charge0 r) (r_charge1 r).

Section Monitor.

Context {W : Type} `{Collaborators W}.

(** The loop of [peer_become_monitor] over the rules of the tree, which
    [c_rbtree_for_each_entry] visits in tree order; [poison] is the first
    error so far. *)
Fixpoint peer_become_monitor_loop (peer : Z) (tree : list nat)
    (poison : retcode) : M W retcode :=
  match tree with
  | [] => ret poison
  | rule :: tree' =>
      let! x := load_rule rule in
      store_rule rule
        (set_r_owner peer (set_r_keys (set_k_eavesdrop true (r_keys x)) x)) >>
      let! r := peer_link_match peer rule true in
      peer_become_monitor_loop peer tree'
        (if c_truthy r && negb (c_truthy poison) then error_trace r else poison)
  end.

(** [peer_become_monitor (peer, owned_matches)]; the owner that is handed
    in is given by its handle. *)
Definition peer_become_monitor (peer : Z) (owned_matches : Z) : M W retcode :=
  let! p := load_peer peer in
  assert (negb (p_registered p)) >>
  assert (negb (p_monitor p)) >>
  let! st := get in
  assert (c_rbtree_is_empty (rule_tree (owner_at st peer))) >>
  (* only fatal errors may occur after this point *)
  modify (fun st =>
    set_st_owners
      (<[owned_matches := MATCH_OWNER_INIT]>
         (<[peer := owner_at st owned_matches]> (st_owners st))) st) >>
  let! st := get in
  let! poison :=
    peer_become_monitor_loop peer
      (c_rbtree_entries (rule_tree (owner_at st peer))) R_OK in
  if c_truthy poison then ret poison
  else store_peer (set_p_monitor true p) >> ret R_OK.

End Monitor.

Section Reply.

Context {W : Type} `{Collaborators W}.

(** [reply_slot_get_by_id] is defined in reply.c, outside of match.c and
    peer.c: the slot of the registry of outgoing replies of a peer for the
    id of a caller and a serial, given as the peer that owns the slot
    ([c_container_of (slot->owner, Peer, owned_replies)]). *)
Variable reply_slot_get_by_id : W -> Z -> Z -> Z -> option Z.

(** [peer_queue_reply]. The cleanup handler of the local [slot] frees the
    slot on every return behind the lookup. *)
Definition peer_queue_reply (sender : Z) (destination : string)
    (reply_serial : Z) (message : Message) : M W retcode :=
  match address_from_string destination with
  | ADDRESS_TYPE_ID id =>
      let! st := get in
      match reply_slot_get_by_id (st_world st) sender id reply_serial with
      | None => ret (R_E PEER_E_UNEXPECTED_REPLY)
      | Some receiver =>
          let free_slot : M W unit :=
            do_world_ (EV_reply_slot_free sender id reply_serial)
              (fun w => reply_slot_free w sender id reply_serial) in
          let! r :=
            do_world (EV_connection_queue receiver 0)
              (fun w => connection_queue w receiver None 0 message) in
          let! early :=
            (if c_truthy r then
               if bool_decide (r = R_E CONNECTION_E_QUOTA) then
                 do_world_ (EV_connection_shutdown receiver)
                   (fun w => connection_shutdown w receiver) >> ret None
               else ret (Some (error_fold r))
             else ret None) in
          match early with
          | Some e => free_slot >> ret e
          | None =>
              (* for eavesdropping *)
              let! r :=
                peer_broadcast (Some sender)
                  (Some (NAME_SET_TYPE_OWNER sender)) (Some (REG_PEER sender))
                  sender (Some receiver) None message in
              free_slot >>
              if c_truthy r then ret (error_trace r) else ret R_OK
          end
      end
  | _ => ret (R_E PEER_E_UNEXPECTED_REPLY)
  end.

End Reply.

(** ** Rule strings the way clients write them *)

(** Assignments [key='value'] separated by commas. *)
Fixpoint render (kvs : list (string * string)) : string :=
  match kvs with
  | [] => EmptyString
  | (k, v) :: kvs' =>
      (k ++ String "=" (String "'" (v ++ String "'"
         match kvs' with
         | [] => EmptyString
         | _ => String "," (render kvs')
         end)))%string
  end.

(** What stands behind an assignment: nothing, or a comma and more. *)
Definition behind (kvs : list (string * string)) : string :=
  match kvs with
  | [] => EmptyString
  | _ => String "," (render kvs)
  end.

Fixpoint string_forall (p : ascii -> bool) (s : string) : bool :=
  match s with
  | EmptyString => true
  | String c s' => p c && string_forall p s'
  end.

(** A character of a key: no white space, no equal sign, no terminator. *)
Definition key_char (c : ascii) : bool :=
  negb (mem_ascii (WHITESPACE ++ ["="%char]) c) && negb (Ascii.eqb c zero).

(** A character of a value in single quotes: no apostrophe, no
    terminator. *)
Definition quoted_char (c : ascii) : bool :=
  negb (Ascii.eqb c "'") && negb (Ascii.eqb c zero).

Definition assignment_ok (kv : string * string) : bool :=
  negb (String.eqb (fst kv) EmptyString)
  && string_forall key_char (fst kv) && string_forall quoted_char (snd kv).

(** The assignments of a list made one after the other with
    [match_rule_keys_assign], up to the first that is refused. *)
Fixpoint assign_all (address_from_string : string -> Address)
    (keys : MatchRuleKeys) (kvs : list (string * string))
    : retcode * MatchRuleKeys :=
  match kvs with
  | [] => (R_OK, keys)
  | (k, v) :: kvs' =>
      match match_rule_keys_assign address_from_string keys k v with
      | (R_OK, keys') => assign_all address_from_string keys' kvs'
      | (r, keys') => (r, keys')
      end
  end.

(** ** Results, events and states of the peer layer *)

(** The result of [match_rule_new] on an error [r] of [user_charge]. *)
Definition match_rule_new_error (r : retcode) : retcode :=
  if bool_decide (r = R_E USER_E_QUOTA) then R_E MATCH_E_QUOTA else error_fold r.

(** The log behind [user_charge_deinit] of a charge that may be unset. *)
Definition released_log (l : list Event) (c : option UserCharge) : list Event :=
  match c with
  | Some c => l ++ [EV_user_charge_deinit c]
  | None => l
  end.

(** 0 or a negative errno: no error constant of a module. *)
Definition fatal_or_ok (r : retcode) : Prop :=
  match r with
  | R_E _ => False
  | _ => True
  end.

(** The error constants of peer.h. *)
Definition is_peer_error (e : ErrorCode) : bool :=
  match e with
  | PEER_E_EOF | PEER_E_QUOTA | PEER_E_CONNECTION_REFUSED
  | PEER_E_PROTOCOL_VIOLATION
  | PEER_E_NAME_RESERVED | PEER_E_NAME_UNIQUE | PEER_E_NAME_REFUSED
  | PEER_E_NAME_ALREADY_OWNER | PEER_E_NAME_IN_QUEUE | PEER_E_NAME_EXISTS
  | PEER_E_NAME_NOT_FOUND | PEER_E_NAME_NOT_OWNER
  | PEER_E_MATCH_INVALID | PEER_E_MATCH_NOT_FOUND
  | PEER_E_EXPECTED_REPLY_EXISTS | PEER_E_UNEXPECTED_REPLY
  | PEER_E_SEND_DENIED | PEER_E_RECEIVE_DENIED => true
  | _ => false
  end.

(** A result of the peer layer: 0, a negative errno or an error constant
    of peer.h. *)
Definition peer_result (r : retcode) : Prop :=
  match r with
  | R_E e => is_peer_error e = true
  | _ => True
  end.

Definition is_queue (e : Event) : Prop :=
  match e with
  | EV_connection_queue _ _ => True
  | _ => False
  end.

Definition is_slot_free (e : Event) : Prop :=
  match e with
  | EV_reply_slot_free _ _ _ => True
  | _ => False
  end.

(** An event of a broadcast with the transaction id [txn] that leaves out
    the peer [dest]: a policy check, a message queued under [txn] to another
    peer, or the shutdown of a connection. *)
Definition broadcast_event (txn dest : Z) (e : Event) : Prop :=
  match e with
  | EV_policy_check_send _ _ | EV_policy_check_receive _
  | EV_connection_shutdown _ => True
  | EV_connection_queue receiver t => t = txn /\ receiver <> dest
  | _ => False
  end.

(** The filter that [peer_broadcast] works with. *)
Definition broadcast_filter (sender_id : Z) (destination : option Z)
    (flt : option MatchFilter) (message : Message) : MatchFilter :=
  match flt with
  | Some f => f
  | None => fallback_filter sender_id destination message
  end.

Section BusStates.

Context {W : Type} `{Collaborators W}.

(** The world behind [user_charge_deinit] of a charge that may be unset. *)
Definition released_world (w : W) (c : option UserCharge) : W :=
  match c with
  | Some c => user_charge_deinit w c
  | None => w
  end.

(** The rules, the owners, the registries and the peers of [st'] are
    those of [st]. *)
Definition same_bus (st st' : State W) : Prop :=
  st_rules st' = st_rules st /\ st_owners st' = st_owners st
  /\ st_registries st' = st_registries st /\ st_peers st' = st_peers st.

(** The log of [st'] is that of [st] with events of [P] behind it. *)
Definition log_grows (P : Event -> Prop) (st st' : State W) : Prop :=
  exists evs, st_log st' = (st_log st ++ evs)%list /\ Forall P evs.

(** Every registry of the bus is well formed. *)
Definition bus_wf (st : State W) : Prop :=
  forall ref, registry_wf (st_rules st) (registry_at st ref).

(** [peer_queue_call] creates a reply slot, and [reply_slot_new] returns
    0. *)
Definition slot_created (sender_replies : option Z)
    (sender_user sender_id receiver : Z) (message : Message) (st : State W)
    : bool :=
  match sender_replies,
        c_rbtree_find_entry peer_compare receiver (peer_tree (st_peers st)) with
  | Some replies, Some rcv =>
      (m_type message =? DBUS_MESSAGE_TYPE_METHOD_CALL)
      && (Z.land (m_flags message) DBUS_HEADER_FLAG_NO_REPLY_EXPECTED =? 0)
      && negb (c_truthy
                 (fst (reply_slot_new (st_world st) receiver replies (p_user rcv)
                         sender_user sender_id (m_serial message))))
  | _, _ => false
  end.

(** The rule at [a] is an eavesdropping rule of the owner [peer]. *)
Definition monitor_rule (st : State W) (peer : Z) (a : nat) : Prop :=
  exists r, st_rules st !! a = Some r
            /\ k_eavesdrop (r_keys r) = true /\ r_owner r = peer.

(** From [st] to [st'] the owners and the peers stay, and every rule
    stays with its owner and its [eavesdrop] flag. *)
Definition rules_kept (st st' : State W) : Prop :=
  st_owners st' = st_owners st /\ st_peers st' = st_peers st
  /\ forall b rb, st_rules st !! b = Some rb ->
       exists rb', st_rules st' !! b = Some rb'
                   /\ k_eavesdrop (r_keys rb') = k_eavesdrop (r_keys rb)
                   /\ r_owner rb' = r_owner rb.

End BusStates.

(** ** Further scenarios on the reference instance *)

Module Scenario.

(** The bus of the reference peers without rules. *)
Definition empty_bus : State Reference.World :=
  Reference.bus Reference.reference_peers 10 Reference.world0.

(** A method return with serial 6. *)
Definition method_return : Message :=
  mkMessage DBUS_MESSAGE_TYPE_METHOD_RETURN 0 6 None None None [].

(** The one reply slot of the bus: peer 1 waits for the reply to its call
    of serial 5, whoever answers. *)
Definition slot_of_call (w : Reference.World) (sender id serial : Z)
    : option Z :=
  if (id =? 1) && (serial =? 5) then Some 1 else None.

(** Peer 2 answers the call of peer 1. *)
Definition reply_2_to_1 : M Reference.World retcode :=
  peer_queue_reply slot_of_call 2 ":1.1" 5 method_return.

(** The owner with the handle 100, outside of any peer, holds the rule
    ["type='signal'"]; peer 9 has not said Hello. *)
Definition with_temporary_owner : State Reference.World :=
  Reference.exec (match_owner_ref_rule 100 true 0 "type='signal'") empty_bus.



(** Peer 1 adds the rule ["arg0='z'"], then the rule
    ["eavesdrop='true',arg0='a'"], and then ["arg0='z'"] once more, this time
    with [force_eavesdrop]; the results of the three calls. *)
Definition three_adds : M Reference.World (retcode * retcode * retcode) :=
  let! r1 := peer_add_match 1 "arg0='z'" false in
  let! r2 := peer_add_match 1 "eavesdrop='true',arg0='a'" false in
  let! r3 := peer_add_match 1 "arg0='z'" true in
  ret (r1, r2, r3).

Definition after_three_adds : State Reference.World :=
  Reference.exec three_adds empty_bus.

(** Peer 1 adds the rule ["arg0='z'"] twice with [force_eavesdrop]. *)
Definition two_forced_adds : M Reference.World (retcode * retcode) :=
  let! r1 := peer_add_match 1 "arg0='z'" true in
  let! r2 := peer_add_match 1 "arg0='z'" true in
  ret (r1, r2).

Definition after_two_forced_adds : State Reference.World :=
  Reference.exec two_forced_adds empty_bus.

(** Peer 1 has taken references to the rules ["arg0='m'"], ["arg0='z'"]
    and ["arg0='a'"], in this order. *)
Definition first_rule : State Reference.World :=
  Reference.exec (match_owner_ref_rule 1 true 1000 "arg0='m'") empty_bus.

Definition second_rule : State Reference.World :=
  Reference.exec (match_owner_ref_rule 1 true 1000 "arg0='z'") first_rule.

Definition three_rules : State Reference.World :=
  Reference.exec (match_owner_ref_rule 1 true 1000 "arg0='a'") second_rule.

End Scenario.


(** * Properties *)

(** ** Prefix matching *)

Lemma c_string_prefix_spec (s p t : string) :
  c_string_prefix s p = Some t <-> s = (p ++ t)%string.
Proof.
  revert s; induction p as [|c p IH]; intros s; simpl.
  - split; [intros [= ->]; done | intros ->; done].
  - destruct s as [|d s]; [split; discriminate|].
    destruct (Ascii.eqb_spec d c) as [->|Hne].
    + rewrite IH. split; [intros ->; done | intros [= ->]; done].
    + split; [discriminate | intros [= -> _]; done].
Qed.

(** What [match_string_prefix] accepts without the delimiter included: the
    second argument is a prefix of the first, and the first ends there or
    goes on with the delimiter. *)
Lemma match_string_prefix_sound (s p : string) (d : ascii) :
  match_string_prefix (Some s) (Some p) d false = true ->
  exists t, s = (p ++ t)%string /\ (deref t = zero \/ deref t = d).
Proof.
  unfold match_string_prefix.
  destruct (c_string_prefix s p) as [t|] eqn:Hp; [|discriminate].
  apply c_string_prefix_spec in Hp. intros Hm. exists t. split; [done|].
  destruct (Ascii.eqb_spec (deref t) zero); [by left|].
  destruct (Ascii.eqb_spec (deref t) d); [by right|]. discriminate.
Qed.

(** A rule with an [arg0namespace] key accepts a message only if the first
    argument of the message is a prefix of the value of the rule: the
    direction of the two is the reverse of the one a namespace has. *)
Lemma match_filter_arg0namespace_sound (keys : MatchRuleKeys)
    (flt : MatchFilter) (ns : string) :
  k_arg0namespace keys = Some ns ->
  match_rule_keys_match_filter keys flt = true ->
  exists arg0 t, arr_get (f_args flt) 0 = Some arg0
    /\ ns = (arg0 ++ t)%string /\ (deref t = zero \/ deref t = "."%char).
Proof.
  intros Hns. unfold match_rule_keys_match_filter. rewrite Hns.
  repeat match goal with
         | |- (if ?c then false else _) = true -> _ =>
             destruct c eqn:?; [discriminate|]
         end.
  intros _.
  match goal with
  | Hc : bool_decide _ && negb (match_string_prefix _ ?a "." _) = false |- _ =>
      rewrite bool_decide_eq_true_2 in Hc by eauto; simpl in Hc;
      apply negb_false_iff in Hc; destruct a as [arg0|] eqn:Ha;
      [apply match_string_prefix_sound in Hc; destruct Hc as (t & -> & Ht)
      |discriminate Hc]
  end.
  eauto.
Qed.

(** The same for [path_namespace] and the path of the message. *)
Lemma match_filter_path_namespace_sound (keys : MatchRuleKeys)
    (flt : MatchFilter) (ns : string) :
  k_path_namespace keys = Some ns ->
  match_rule_keys_match_filter keys flt = true ->
  exists path t, f_path flt = Some path
    /\ ns = (path ++ t)%string /\ (deref t = zero \/ deref t = "/"%char).
Proof.
  intros Hns. unfold match_rule_keys_match_filter. rewrite Hns.
  repeat match goal with
         | |- (if ?c then false else _) = true -> _ =>
             destruct c eqn:?; [discriminate|]
         end.
  intros _.
  match goal with
  | Hc : bool_decide _ && negb (match_string_prefix (Some ns) ?a "/" _) = false
    |- _ =>
      rewrite bool_decide_eq_true_2 in Hc by eauto; simpl in Hc;
      apply negb_false_iff in Hc; destruct a as [path|] eqn:Ha;
      [apply match_string_prefix_sound in Hc; destruct Hc as (t & -> & Ht)
      |discriminate Hc]
  end.
  eauto.
Qed.

(** C1. The rule ["type='signal',arg0namespace='a.b'"] does not accept the
    signal whose first argument is ["a.b.c"], of which ["a.b"] is a
    dot-bounded prefix, and the rule with [arg0namespace='a.b.c'] accepts the
    signal whose first argument is ["a.b"], of which ["a.b.c"] is no prefix:
    [match_rule_keys_match_filter] hands the two strings to
    [match_string_prefix] in the wrong order. *)
Theorem arg0namespace_prefix_reversed :
  Reference.keys_of "type='signal',arg0namespace='a.b'"
  = (R_OK,
     set_k_arg0namespace (Some "a.b")
       (set_k_filter
          (set_f_type DBUS_MESSAGE_TYPE_SIGNAL
             (set_f_sender ADDRESS_ID_INVALID
                (set_f_destination ADDRESS_ID_INVALID
                   (k_filter MatchRuleKeys_zero)))) MatchRuleKeys_zero))
  /\ match_rule_keys_match_filter
       (snd (Reference.keys_of "type='signal',arg0namespace='a.b'"))
       (fallback_filter 7 None (Reference.signal "/a/b/c" "a.b.c")) = false
  /\ match_rule_keys_match_filter
       (snd (Reference.keys_of "type='signal',arg0namespace='a.b'"))
       (fallback_filter 7 None (Reference.signal "/a/b/c" "ab.c")) = false
  /\ match_rule_keys_match_filter
       (snd (Reference.keys_of "type='signal',arg0namespace='a.b.c'"))
       (fallback_filter 7 None (Reference.signal "/a/b/c" "a.b")) = true
  /\ c_string_prefix "a.b" "a.b.c" = None.
Proof. repeat split; vm_compute; reflexivity. Qed.

(** C2. The rule with [path_namespace='/a/b'] does not accept a message
    sent on the path ["/a/b/c"], below the namespace, and it accepts a
    message sent on ["/a"], which is outside of it: the two strings reach
    [match_string_prefix] in the wrong order. *)
Theorem path_namespace_prefix_reversed :
  fst (Reference.keys_of "path_namespace='/a/b'") = R_OK
  /\ k_path_namespace (snd (Reference.keys_of "path_namespace='/a/b'"))
     = Some "/a/b"
  /\ match_rule_keys_match_filter
       (snd (Reference.keys_of "path_namespace='/a/b'"))
       (fallback_filter 7 None (Reference.signal "/a/b/c" "x")) = false
  /\ match_rule_keys_match_filter
       (snd (Reference.keys_of "path_namespace='/a/b'"))
       (fallback_filter 7 None (Reference.signal "/a" "x")) = true
  /\ c_string_prefix "/a" "/a/b" = None.
Proof. repeat split; vm_compute; reflexivity. Qed.

(** ** The parser *)

Section AssignTwice.

Variable afs : string -> Address.

Lemma is_set_Some (v : string) : is_set (Some v) = true.
Proof. unfold is_set. by rewrite bool_decide_eq_true_2 by eauto. Qed.

Lemma arr_get_insert (l : list (option string)) (i : nat) (v : string) :
  (i < length l)%nat -> arr_get (<[i := Some v]> l) i = Some v.
Proof. intros Hi. unfold arr_get. by rewrite list_lookup_insert_eq. Qed.

Lemma arg_index_bound j key i :
  0 <= i -> 0 <= fst (arg_index j key i).
Proof.
  revert key i; induction j as [|j IH]; intros key i Hi; simpl; [done|].
  destruct key as [|c key]; [done|].
  destruct (is_digit c) eqn:Hd; simpl; [|done].
  apply IH. unfold is_digit in Hd. apply andb_true_iff in Hd as [Hl _].
  apply Nat.leb_le in Hl. lia.
Qed.

(** Every key but [eavesdrop] is refused when it is assigned a second
    time. *)
Lemma match_rule_keys_assign_twice (keys keys' : MatchRuleKeys) (key v v' : string) :
  length (f_args (k_filter keys)) = N_ARGS ->
  length (f_argpaths (k_filter keys)) = N_ARGS ->
  match_key_equal "eavesdrop" key = false ->
  match_rule_keys_assign afs keys key v = (R_OK, keys') ->
  fst (match_rule_keys_assign afs keys' key v') = R_E MATCH_E_INVALID.
Proof.
  intros Hargs Hpaths Hne. unfold match_rule_keys_assign. rewrite Hne.
  destruct (match_key_equal "type" key).
  { repeat case_match; intros; simplify_eq/=; done. }
  destruct (match_key_equal "sender" key).
  { repeat case_match; intros; simplify_eq/=; try done.
    all: try (rewrite is_set_Some in *; done). }
  destruct (match_key_equal "destination" key).
  { destruct (is_set (k_destination keys)); [discriminate|].
    destruct (afs v); intros [= <-]; by cbn. }
  destruct (match_key_equal "interface" key).
  { destruct (is_set (f_interface (k_filter keys))); [discriminate|].
    intros [= <-]; by cbn. }
  destruct (match_key_equal "member" key).
  { destruct (is_set (f_member (k_filter keys))); [discriminate|].
    intros [= <-]; by cbn. }
  destruct (match_key_equal "path" key).
  { destruct (is_set (f_path (k_filter keys)) || _); [discriminate|].
    intros [= <-]; by cbn. }
  destruct (match_key_equal "path_namespace" key).
  { destruct (is_set (k_path_namespace keys) || _); [discriminate|].
    intros [= <-]; by cbn. }
  destruct (match_key_equal "arg0namespace" key).
  { destruct (is_set (k_arg0namespace keys) || _ || _); [discriminate|].
    intros [= <-]; by cbn. }
  destruct ((3 <=? String.length key)%nat && _); [|discriminate].
  pose proof (arg_index_bound 2 (String.substring 3 (String.length key - 3) key) 0)
    as Hpos.
  destruct (arg_index 2 _ 0) as [i rest]. cbn in Hpos.
  destruct ((i =? 0) && is_set (k_arg0namespace keys)) eqn:H0; [discriminate|].
  destruct (Z.gtb_spec i 63); [discriminate|].
  destruct (is_set _ || is_set _); [discriminate|].
  assert (Z.to_nat i < N_ARGS)%nat as Hi by (unfold N_ARGS; lia).
  destruct (match_key_equal "" rest).
  { intros [= <-]. cbn. rewrite H0.
    destruct (Z.gtb_spec i 63); [lia|].
    rewrite arr_get_insert by (by rewrite Hargs). by rewrite is_set_Some. }
  destruct (match_key_equal "path" rest); [|discriminate].
  intros [= <-]. cbn. rewrite H0.
  destruct (Z.gtb_spec i 63); [lia|].
  rewrite arr_get_insert by (by rewrite Hpaths). rewrite is_set_Some.
  by rewrite orb_true_r.
Qed.

End AssignTwice.

(** C7. The rule string ["eavesdrop='true',eavesdrop='false'"] names the
    key [eavesdrop] twice and [match_rule_keys_parse] accepts it, the second
    value winning; a second [type] is refused. *)
Theorem parse_accepts_repeated_eavesdrop :
  fst (Reference.keys_of "eavesdrop='true',eavesdrop='false'") = R_OK
  /\ k_eavesdrop (snd (Reference.keys_of "eavesdrop='true',eavesdrop='false'"))
     = false
  /\ fst (Reference.keys_of "eavesdrop='false',eavesdrop='true'") = R_OK
  /\ fst (Reference.keys_of "type='signal',type='signal'")
     = R_E MATCH_E_INVALID.
Proof. repeat split; vm_compute; reflexivity. Qed.

(** ** The monitor list *)

(** [match_rule_next_monitor_match] never yields the last entry of the
    monitor list: its loop ends when it reaches that entry, before the keys
    of the entry are looked at. *)
Lemma match_rule_next_monitor_match_loop_not_last rules last l flt a :
  match_rule_next_monitor_match_loop rules last l flt = Some (Some a) ->
  last <> Some a.
Proof.
  induction l as [|x l IH]; simpl; [discriminate|].
  unfold ptr_eqb. case_bool_decide as Hx; [discriminate|].
  destruct (rules !! x) as [r|]; [|discriminate].
  destruct (match_rule_keys_match_filter (r_keys r) flt); [|exact IH].
  intros [= <-]. congruence.
Qed.

Lemma match_rule_next_monitor_match_not_last rules reg rule flt a :
  match_rule_next_monitor_match rules reg rule flt = Some (Some a) ->
  c_list_last_entry (monitor_list reg) <> Some a.
Proof.
  unfold match_rule_next_monitor_match. destruct rule as [c|].
  - destruct (c_list_behind c (monitor_list reg)); [|discriminate].
    apply match_rule_next_monitor_match_loop_not_last.
  - destruct (monitor_list reg) eqn:Hl; [discriminate|].
    rewrite <- Hl. apply match_rule_next_monitor_match_loop_not_last.
Qed.

(** C8. With the one rule ["type='signal'"] in the monitor list of the
    wildcard registry, the walk with [match_rule_next_monitor_match] from
    [NULL] yields nothing for a signal that the rule matches; with a second
    rule behind it that matches too, the walk yields the first rule only. The
    last entry of the list is never yielded. *)
Theorem monitor_walk_misses_last_entry :
  let flt := fallback_filter 1 None (Reference.signal "/a" "x") in
  let st1 := Reference.one_monitor_rule in
  let st2 := Reference.two_monitor_rules in
  monitor_list (registry_at st1 REG_WILDCARD) = [0%nat]
  /\ (r_keys <$> st_rules st1 !! 0%nat) = Some (snd (Reference.keys_of "type='signal'"))
  /\ match_rule_keys_match_filter (snd (Reference.keys_of "type='signal'")) flt = true
  /\ match_rule_next_monitor_match (st_rules st1) (registry_at st1 REG_WILDCARD)
       None flt = Some None
  /\ monitor_matches (st_rules st1) (registry_at st1 REG_WILDCARD) flt = Some []
  /\ monitor_list (registry_at st2 REG_WILDCARD) = [0%nat; 1%nat]
  /\ (r_keys <$> st_rules st2 !! 1%nat) = Some (snd (Reference.keys_of "member='Changed'"))
  /\ match_rule_keys_match_filter (snd (Reference.keys_of "member='Changed'")) flt = true
  /\ monitor_matches (st_rules st2) (registry_at st2 REG_WILDCARD) flt
     = Some [0%nat].
Proof. repeat split; vm_compute; reflexivity. Qed.

(** ** Unicast *)

Section UnicastProperties.

Context {W : Type} `{Collaborators W}.

(** Without a reply slot and with the policy in favour, whatever nonzero
    result [connection_queue] has, [peer_queue_call] returns
    [PEER_E_QUOTA]. *)
Lemma peer_queue_call_queue_error (sender_policy : Z)
    (sender_names : option NameSet) (sender_matches : option RegistryRef)
    (sender_user sender_id receiver : Z) (message : Message) (st : State W)
    (rcv : Peer) (r : retcode) (w : W) :
  c_rbtree_find_entry peer_compare receiver (peer_tree (st_peers st)) = Some rcv ->
  peer_policy_check_receive (st_world st) receiver sender_names message = R_OK ->
  peer_policy_check_send (st_world st) sender_policy
    (NAME_SET_TYPE_OWNER receiver) message = R_OK ->
  connection_queue (st_world st) receiver (Some sender_user) 0 message = (r, w) ->
  c_truthy r = true ->
  fst <$> peer_queue_call sender_policy sender_names sender_matches None
            sender_user sender_id receiver message st
  = Some (R_E PEER_E_QUOTA).
Proof.
  intros Hrcv Hreceive Hsend Hqueue Hr.
  unfold peer_queue_call, bind at 1, load_peer. rewrite Hrcv.
  unfold bind at 1, ret at 1.
  unfold bind at 1, do_policy_check_receive, bind at 1, log_event, modify.
  cbn [st_world set_st_log]. rewrite Hreceive. cbn [c_truthy].
  unfold bind at 1, do_policy_check_send, bind at 1, log_event, modify.
  cbn [st_world set_st_log]. rewrite Hsend. cbn [c_truthy].
  unfold bind at 1, do_world, bind at 1, log_event, modify.
  cbn [st_world set_st_log]. rewrite Hqueue, Hr.
  reflexivity.
Qed.

End UnicastProperties.

(** C6. When [connection_queue] on the connection of the receiver fails
    with [-ENOMEM] or with [CONNECTION_E_EOF], [peer_queue_call] returns
    [PEER_E_QUOTA], as it does for [CONNECTION_E_QUOTA]: the condition
    [if (CONNECTION_E_QUOTA)] tests a nonzero constant. The folded error
    would be [-ENOMEM] and [-ENOTRECOVERABLE]. *)
Theorem peer_queue_call_quota_for_any_queue_error :
  c_truthy (R_E CONNECTION_E_QUOTA) = true
  /\ (fst <$> Reference.call_1_to_2 (Reference.queue_returns (R_E CONNECTION_E_QUOTA)))
     = Some (R_E PEER_E_QUOTA)
  /\ (fst <$> Reference.call_1_to_2 (Reference.queue_returns (R_NEG ENOMEM)))
     = Some (R_E PEER_E_QUOTA)
  /\ error_fold (R_NEG ENOMEM) = R_NEG ENOMEM
  /\ (fst <$> Reference.call_1_to_2 (Reference.queue_returns (R_E CONNECTION_E_EOF)))
     = Some (R_E PEER_E_QUOTA)
  /\ error_fold (R_E CONNECTION_E_EOF) = R_NEG ENOTRECOVERABLE
  /\ (fst <$> Reference.call_1_to_2 (Reference.queue_returns R_OK)) = Some R_OK.
Proof. repeat split; vm_compute; reflexivity. Qed.

(** ** Names *)

Section NameProperties.

Context {W : Type} `{Collaborators W}.

(** C9. For the name ["org.freedesktop.DBus"], [peer_request_name] and
    [peer_release_name] return [PEER_E_NAME_RESERVED], and for every name
    that begins with a colon they return [PEER_E_NAME_UNIQUE]; the state is
    the one they were called in, with the same world (no change of the name
    registry) and the same log (no call of the policy or of the name
    registry). *)
Theorem peer_names_reserved_and_unique (peer flags : Z) (rest : string)
    (st : State W) :
  peer_request_name peer "org.freedesktop.DBus" flags st
  = Some (R_E PEER_E_NAME_RESERVED, st)
  /\ peer_release_name peer "org.freedesktop.DBus" st
     = Some (R_E PEER_E_NAME_RESERVED, st)
  /\ peer_request_name peer (String ":" rest) flags st
     = Some (R_E PEER_E_NAME_UNIQUE, st)
  /\ peer_release_name peer (String ":" rest) st
     = Some (R_E PEER_E_NAME_UNIQUE, st).
Proof.
  repeat split; reflexivity.
Qed.

End NameProperties.

(** ** The peer registry *)

Lemma c_rbtree_find_entry_peer (tree : list Peer) (id : Z) (p : Peer) :
  NoDup (map p_id tree) ->
  c_rbtree_find_entry peer_compare id tree = Some p <-> p ∈ tree /\ p_id p = id.
Proof.
  unfold c_rbtree_find_entry.
  induction tree as [|q tree IH]; simpl; intros Hnd.
  - split; [discriminate|]. intros [Hin _]. by apply elem_of_nil in Hin.
  - apply NoDup_cons in Hnd as [Hq Hnd]. unfold peer_compare at 1.
    destruct (Z.ltb_spec id (p_id q)); simpl.
    { rewrite IH by done. rewrite elem_of_cons.
      split; [tauto|]. intros [[->|Hin] Hid]; [lia | done]. }
    destruct (Z.gtb_spec id (p_id q)); simpl.
    { rewrite IH by done. rewrite elem_of_cons.
      split; [tauto|]. intros [[->|Hin] Hid]; [lia | done]. }
    assert (p_id q = id) as Hid by lia.
    rewrite elem_of_cons. split.
    + intros [= ->]. tauto.
    + intros [[->|Hin] Hp]; [done|]. exfalso. apply Hq.
      apply list_elem_of_fmap. exists p. split; [congruence | done].
Qed.

(** ** Linking a rule *)

Lemma byte_value_inj (x y : ascii) : byte_value x = byte_value y -> x = y.
Proof.
  unfold byte_value. intros Hxy. apply Nat2Z.inj in Hxy.
  rewrite <- (ascii_nat_embedding x), <- (ascii_nat_embedding y). by rewrite Hxy.
Qed.

Lemma strcmp_eq (a b : string) : strcmp a b = 0 <-> a = b.
Proof.
  revert b; induction a as [|x a IH]; intros [|y b]; simpl.
  - done.
  - split; [lia | discriminate].
  - split; [lia | discriminate].
  - destruct (Ascii.eqb_spec x y) as [->|Hne].
    + rewrite IH. split; congruence.
    + split; [|congruence]. intros Hd. exfalso. apply Hne.
      apply byte_value_inj. lia.
Qed.


Section LinkProperties.

Context {W : Type} `{Collaborators W}.

(** [match_rule_link] of a rule that is not linked: the rule gets the
    registry pointer and becomes the last entry of its list; nothing else
    changes. *)
Lemma match_rule_link_unlinked (a : nat) (ref : RegistryRef) (monitor : bool)
    (st : State W) (r : MatchRule) :
  st_rules st !! a = Some r -> r_registry r = None ->
  exists st', match_rule_link a ref monitor st = Some (tt, st')
    /\ rule_linked_in st' a ref monitor
    /\ st_rules st' = <[a := set_r_registry (Some ref) r]> (st_rules st)
    /\ st_owners st' = st_owners st /\ st_peers st' = st_peers st
    /\ st_world st' = st_world st /\ st_log st' = st_log st
    /\ (forall ref', ref' <> ref -> registry_at st' ref' = registry_at st ref').
Proof.
  intros Ha Hreg. unfold match_rule_link, bind, load_rule. rewrite Ha, Hreg.
  rewrite bool_decide_eq_false_2 by (intros [? ?]; discriminate).
  unfold store_rule, modify. simpl.
  eexists. split; [reflexivity|]. simpl. repeat split.
  - exists (set_r_registry (Some ref) r). simpl. rewrite lookup_insert_eq.
    split; [done|]. split; [done|]. unfold registry_at, link_list. simpl.
    rewrite lookup_insert_eq. simpl.
    destruct monitor; [|destruct (k_eavesdrop (r_keys r))]; simpl;
      unfold c_list_last_entry; by rewrite last_snoc.
  - intros ref' Hne. unfold registry_at. simpl. by rewrite lookup_insert_ne.
Qed.

(** The stale id: no registered peer has the id and the allocator is
    beyond it. [peer_link_match] returns 0 and leaves the state as it is. *)
Lemma peer_link_match_stale (peer : Z) (a : nat) (monitor : bool)
    (st : State W) (r : MatchRule) (s : string) (id : Z) :
  st_rules st !! a = Some r ->
  k_sender (r_keys r) = Some s ->
  s <> "org.freedesktop.DBus" ->
  address_from_string s = ADDRESS_TYPE_ID id ->
  peer_registry_find_peer (st_peers st) id = None ->
  id < ids (st_peers st) ->
  peer_link_match peer a monitor st = Some (R_OK, st).
Proof.
  intros Ha Hs Hne Haddr Hfind Hlt.
  unfold peer_link_match, bind, load_rule. rewrite Ha, Hs.
  destruct (Z.eqb_spec (strcmp s "org.freedesktop.DBus") 0) as [He|_];
    [by apply strcmp_eq in He|].
  rewrite Haddr. unfold get. rewrite Hfind.
  destruct (Z.geb_spec id (ids (st_peers st))); [lia|]. reflexivity.
Qed.


End LinkProperties.



(** ** Registered peers *)

Lemma store_peer_find (tree : list Peer) (q q' : Peer) :
  NoDup (map p_id tree) -> q ∈ tree -> p_id q' = p_id q ->
  c_rbtree_find_entry peer_compare (p_id q)
    (map (fun x => if p_id x =? p_id q' then q' else x) tree) = Some q'.
Proof.
  intros Hnd Hin Hid.
  set (f := fun x => if p_id x =? p_id q' then q' else x).
  assert (forall x, p_id (f x) = p_id x) as Hf.
  { intros x. unfold f. destruct (Z.eqb_spec (p_id x) (p_id q')); congruence. }
  apply c_rbtree_find_entry_peer.
  - rewrite map_map. erewrite map_ext; [exact Hnd|]. intros x. apply Hf.
  - split; [|done]. apply list_elem_of_fmap. exists q. split; [|done].
    unfold f. by rewrite Hid, Z.eqb_refl.
Qed.

Section RegisteredProperties.

Context {W : Type} `{Collaborators W}.

(** C10. In a peer tree that holds every id once,
    [peer_registry_find_peer] returns a peer exactly when that peer is in the
    tree under the id and its [registered] flag is set. For the id of a peer
    of the tree whose flag is not set it returns [NULL]; then
    [peer_link_match] of a rule with that unique id as sender takes the id
    for stale and links the rule nowhere; and after [peer_register] the peer
    is found. After [peer_unregister] of a registered peer the lookup of its
    id returns [NULL]. *)
Theorem peer_registry_find_peer_registered (st : State W) (id : Z) :
  NoDup (map p_id (peer_tree (st_peers st))) ->
  (forall p : Peer,
     peer_registry_find_peer (st_peers st) id = Some p
     <-> p ∈ peer_tree (st_peers st) /\ p_id p = id /\ p_registered p = true)
  /\ (forall q : Peer,
        q ∈ peer_tree (st_peers st) -> p_id q = id -> p_registered q = false ->
        peer_registry_find_peer (st_peers st) id = None
        /\ (forall peer a monitor r s,
              st_rules st !! a = Some r ->
              k_sender (r_keys r) = Some s ->
              s <> "org.freedesktop.DBus" ->
              address_from_string s = ADDRESS_TYPE_ID id ->
              id < ids (st_peers st) ->
              peer_link_match peer a monitor st = Some (R_OK, st))
        /\ (p_monitor q = false ->
            exists st',
              peer_register id st = Some (tt, st')
              /\ peer_registry_find_peer (st_peers st') id
                 = Some (set_p_registered true q)))
  /\ (forall p : Peer,
        p ∈ peer_tree (st_peers st) -> p_id p = id -> p_registered p = true ->
        p_monitor p = false ->
        exists st',
          peer_unregister id st = Some (tt, st')
          /\ peer_registry_find_peer (st_peers st') id = None).
Proof.
  intros Hnd.
  assert (forall p, p ∈ peer_tree (st_peers st) -> p_id p = id ->
            c_rbtree_find_entry peer_compare id (peer_tree (st_peers st)) = Some p)
    as Hfind by (intros p Hp Hid; by apply c_rbtree_find_entry_peer).
  split; [|split].
  - intros p. unfold peer_registry_find_peer.
    destruct (c_rbtree_find_entry peer_compare id (peer_tree (st_peers st)))
      as [q|] eqn:Hq in |- *.
    + destruct (p_registered q) eqn:Hreg.
      * split.
        -- intros [= <-]. apply c_rbtree_find_entry_peer in Hq as [Hin Hid]; done.
        -- intros (Hp & Hpid & _). rewrite <- Hq. by apply Hfind.
      * split; [discriminate|]. intros (Hp & Hpid & Hpreg).
        rewrite (Hfind p Hp Hpid) in Hq. congruence.
    + split; [discriminate|]. intros (Hp & Hpid & _).
      rewrite (Hfind p Hp Hpid) in Hq. discriminate.
  - intros q Hin Hid Hreg.
    assert (peer_registry_find_peer (st_peers st) id = None) as Hnone.
    { unfold peer_registry_find_peer. by rewrite (Hfind q Hin Hid), Hreg. }
    split; [done|]. split.
    + intros peer a monitor r s Ha Hs Hne Haddr Hlt.
      by eapply peer_link_match_stale.
    + intros Hmon. unfold peer_register, bind, load_peer.
      rewrite (Hfind q Hin Hid). unfold assert. rewrite Hreg, Hmon. simpl.
      eexists. split; [reflexivity|]. simpl.
      unfold peer_registry_find_peer. simpl. rewrite <- Hid.
      by rewrite (store_peer_find _ q (set_p_registered true q)).
  - intros p Hin Hid Hreg Hmon. unfold peer_unregister, bind, load_peer.
    rewrite (Hfind p Hin Hid). unfold assert. rewrite Hreg, Hmon. simpl.
    eexists. split; [reflexivity|]. simpl.
    unfold peer_registry_find_peer. simpl. rewrite <- Hid.
    by rewrite (store_peer_find _ p (set_p_registered false p)).
Qed.

End RegisteredProperties.

(** Peer 3 of the reference peers has not said Hello: it is not found
    under its id, a rule with sender [:1.3] is linked nowhere, and after
    [peer_register] it is found. Peer 2, which has said Hello, is found,
    and after [peer_unregister] it is not. *)
Lemma peer_registry_find_peer_registered_witness :
  let st := Reference.with_sender_rule "sender=':1.3'" in
  NoDup (map p_id (peer_tree (st_peers st)))
  /\ peer_registry_find_peer (st_peers st) 3 = None
  /\ peer_link_match 1 0%nat false st = Some (R_OK, st)
  /\ (exists st',
        peer_register 3 st = Some (tt, st')
        /\ peer_registry_find_peer (st_peers st') 3
           = Some (mkPeer 3 1000 true false))
  /\ peer_registry_find_peer (st_peers st) 2 = Some (mkPeer 2 1000 true false)
  /\ (exists st',
        peer_unregister 2 st = Some (tt, st')
        /\ peer_registry_find_peer (st_peers st') 2 = None).
Proof.
  intros st.
  assert (NoDup (map p_id (peer_tree (st_peers st)))) as Hnd.
  { apply (bool_decide_unpack _). vm_compute. exact I. }
  assert (forall p, p ∈ Reference.reference_peers -> p ∈ peer_tree (st_peers st))
    as Hpeers by (intros p Hp; exact Hp).
  split; [exact Hnd|].
  destruct (peer_registry_find_peer_registered st 3 Hnd) as (_ & Hhidden & _).
  destruct (peer_registry_find_peer_registered st 2 Hnd) as (Hiff & _ & Hgone).
  destruct (Hhidden (mkPeer 3 1000 false false)) as (Hnone & Hlink & Hreg);
    [|reflexivity|reflexivity|].
  { apply Hpeers. unfold Reference.reference_peers. rewrite !elem_of_cons. tauto. }
  split; [exact Hnone|]. split.
  { eapply Hlink; [vm_compute; reflexivity | reflexivity | discriminate
                  | vm_compute; reflexivity | vm_compute; reflexivity]. }
  split; [exact (Hreg eq_refl)|].
  assert (mkPeer 2 1000 true false ∈ peer_tree (st_peers st)) as Hin2.
  { apply Hpeers. unfold Reference.reference_peers. rewrite !elem_of_cons. tauto. }
  split.
  - apply Hiff. split; [exact Hin2|split; reflexivity].
  - apply (Hgone (mkPeer 2 1000 true false)); [exact Hin2|reflexivity..].
Defined.

(** ** Broadcast *)

(** The walk of [match_rule_next] over a registry. *)

Lemma c_list_behind_app (a : nat) (pre post : list nat) :
  a ∉ pre -> c_list_behind a (pre ++ a :: post) = Some post.
Proof.
  induction pre as [|x pre IH]; simpl; intros Hnin.
  - by rewrite Nat.eqb_refl.
  - apply not_elem_of_cons in Hnin as [Hne Hnin].
    destruct (Nat.eqb_spec x a); [congruence|]. by apply IH.
Qed.

Lemma c_list_behind_not_in (a : nat) (l : list nat) :
  a ∉ l -> c_list_behind a l = None.
Proof.
  induction l as [|x l IH]; simpl; intros Hnin; [done|].
  apply not_elem_of_cons in Hnin as [Hne Hnin].
  destruct (Nat.eqb_spec x a); [congruence|]. by apply IH.
Qed.

Lemma last_is (a : nat) (pre post : list nat) :
  NoDup (pre ++ a :: post) ->
  ptr_eqb (Some a) (c_list_last_entry (pre ++ a :: post)) = bool_decide (post = []).
Proof.
  intros Hnd. unfold ptr_eqb, c_list_last_entry.
  destruct post as [|y post _] using rev_ind.
  - rewrite last_snoc. by rewrite !bool_decide_eq_true_2.
  - rewrite app_comm_cons, app_assoc, last_snoc.
    rewrite bool_decide_eq_false_2; [|].
    + rewrite bool_decide_eq_false_2; [done|]. intros Heq. by destruct post.
    + intros [= <-]. apply NoDup_app in Hnd as (_ & _ & Hnd).
      apply NoDup_cons in Hnd as [Hnin _]. apply Hnin. set_solver.
Qed.


Lemma registry_link_next_eavesdrop reg a pre post :
  a ∉ pre -> eavesdrop_list reg = (pre ++ a :: post)%list ->
  registry_link_next reg a = head post.
Proof.
  intros Hpre He. unfold registry_link_next.
  rewrite He, c_list_behind_app by done. by destruct post.
Qed.

Lemma registry_link_next_rule reg a pre post :
  a ∉ eavesdrop_list reg -> a ∉ pre -> rule_list reg = (pre ++ a :: post)%list ->
  registry_link_next reg a = head post.
Proof.
  intros Hne Hpre He. unfold registry_link_next.
  rewrite c_list_behind_not_in by done.
  rewrite He, c_list_behind_app by done. by destruct post.
Qed.

Lemma match_rule_next_walk rules reg unicast pre a post :
  registry_wf rules reg ->
  walk reg unicast = (pre ++ a :: post)%list ->
  match_rule_next rules reg (Some a) unicast = Some (head post).
Proof.
  intros (Hnd & Heav & Hrul) Hwalk. unfold walk in Hwalk.
  apply app_eq_app in Hwalk as [l [[He Hp]|[Hpre Hr]]].
  - destruct l as [|x l]; simpl in Hp.
    + (* the first entry of the rule list *)
      destruct unicast; [discriminate|]. rewrite app_nil_r in He. subst pre.
      assert (a ∈ rule_list reg) as Hin by (rewrite <- Hp; set_solver).
      destruct (Hrul a Hin) as (r & Hr & Hflag).
      unfold match_rule_next. rewrite Hr, Hflag.
      pose proof (last_is a [] post) as Hl. simpl in Hl. rewrite Hp in Hl.
      rewrite Hl by (by apply NoDup_app in Hnd as (_ & _ & ?)).
      case_bool_decide as Hpost; simpl; [by subst post|].
      rewrite (registry_link_next_rule reg a [] post); [by destruct post| |set_solver|by rewrite <- Hp].
      apply NoDup_app in Hnd as (_ & Hd & _). intros Ha. by apply (Hd _ Ha).
    + (* an entry of the eavesdrop list *)
      injection Hp as <- Hp.
      assert (a ∈ eavesdrop_list reg) as Hin by (rewrite He; set_solver).
      destruct (Heav a Hin) as (r & Hr & Hflag).
      assert (NoDup (pre ++ a :: l)) as Hnde
        by (rewrite <- He; by apply NoDup_app in Hnd as (? & _)).
      unfold match_rule_next. rewrite Hr, Hflag.
      rewrite He at 1. rewrite last_is by done.
      case_bool_decide as Hpost; simpl.
      * subst l. simpl in Hp. subst post. by destruct unicast.
      * rewrite (registry_link_next_eavesdrop reg a pre l); [|  |done].
        -- subst post. by destruct l.
        -- apply NoDup_app in Hnde as (_ & Hd & _). intros Ha. apply (Hd _ Ha). set_solver.
  - (* an entry of the rule list *)
    destruct unicast; [by destruct l|].
    assert (a ∈ rule_list reg) as Hin by (rewrite Hr; set_solver).
    destruct (Hrul a Hin) as (r & Hrule & Hflag).
    assert (NoDup (l ++ a :: post)) as Hndr
      by (rewrite <- Hr; by apply NoDup_app in Hnd as (_ & _ & ?)).
    unfold match_rule_next. rewrite Hrule, Hflag.
    rewrite Hr at 1. rewrite last_is by done.
    case_bool_decide as Hpost; simpl; [by subst post|].
    rewrite (registry_link_next_rule reg a l post); [by destruct post| | |done].
    + apply NoDup_app in Hnd as (_ & Hd & _). intros Ha. by apply (Hd _ Ha).
    + apply NoDup_app in Hndr as (_ & Hd & _). intros Ha. apply (Hd _ Ha). set_solver.
Qed.

Lemma match_rule_next_first rules reg unicast :
  match_rule_next rules reg None unicast = Some (head (walk reg unicast)).
Proof.
  unfold match_rule_next, walk, c_list_first_entry.
  destruct (eavesdrop_list reg); simpl; [|done]. by destruct unicast.
Qed.

Lemma walk_in_heap rules reg unicast a :
  registry_wf rules reg -> a ∈ walk reg unicast -> is_Some (rules !! a).
Proof.
  intros (_ & Heav & Hrul). unfold walk. rewrite elem_of_app. intros [Hin|Hin].
  - destruct (Heav a Hin) as (r & -> & _). eauto.
  - destruct unicast; [by apply elem_of_nil in Hin|].
    destruct (Hrul a Hin) as (r & -> & _). eauto.
Qed.

Lemma match_rule_next_match_loop_walk rules reg unicast flt l :
  registry_wf rules reg ->
  forall pre fuel,
    walk reg unicast = (pre ++ l)%list -> (length l <= fuel)%nat ->
    match_rule_next_match_loop fuel rules reg (head l) unicast flt
    = Some (first_match rules flt l).
Proof.
  intros Hwf. induction l as [|a l IH]; intros pre fuel Hwalk Hfuel.
  - by destruct fuel.
  - assert (is_Some (rules !! a)) as [r Hr].
    { apply (walk_in_heap rules reg unicast); [done|]. rewrite Hwalk. set_solver. }
    change (head (a :: l)) with (Some a).
    assert (match_rule_next_match_loop fuel rules reg (Some a) unicast flt
            = if match_rule_keys_match_filter (r_keys r) flt then Some (Some a)
              else match fuel with
                   | O => None
                   | S fuel' =>
                       match match_rule_next rules reg (Some a) unicast with
                       | None => None
                       | Some next => match_rule_next_match_loop fuel' rules reg next unicast flt
                       end
                   end) as ->.
    { destruct fuel; simpl; by rewrite Hr. }
    assert (first_match rules flt (a :: l)
            = if match_rule_keys_match_filter (r_keys r) flt then Some a
              else first_match rules flt l) as ->.
    { unfold first_match. simpl. unfold rule_matches at 1. by rewrite Hr. }
    destruct (match_rule_keys_match_filter (r_keys r) flt); [done|].
    destruct fuel as [|fuel]; [simpl in Hfuel; lia|].
    rewrite (match_rule_next_walk rules reg unicast pre a l Hwf Hwalk).
    apply (IH (pre ++ [a])%list); [by rewrite <- app_assoc | simpl in Hfuel; lia].
Qed.

Lemma walk_length reg unicast : (length (walk reg unicast) <= registry_size reg)%nat.
Proof.
  unfold walk, registry_size. rewrite length_app.
  destruct unicast; simpl; lia.
Qed.

Lemma match_rule_next_match_first rules reg flt :
  registry_wf rules reg ->
  match_rule_next_match rules reg None flt
  = Some (first_match rules flt
            (walk reg (negb (f_destination flt =? ADDRESS_ID_INVALID)))).
Proof.
  intros Hwf. unfold match_rule_next_match. rewrite match_rule_next_first.
  apply (match_rule_next_match_loop_walk _ _ _ _ _ Hwf []); [done|].
  apply walk_length.
Qed.

Lemma match_rule_next_match_step rules reg flt pre a post :
  registry_wf rules reg ->
  walk reg (negb (f_destination flt =? ADDRESS_ID_INVALID)) = (pre ++ a :: post)%list ->
  match_rule_next_match rules reg (Some a) flt = Some (first_match rules flt post).
Proof.
  intros Hwf Hwalk. unfold match_rule_next_match.
  rewrite (match_rule_next_walk _ _ _ _ _ _ Hwf Hwalk).
  apply (match_rule_next_match_loop_walk _ _ _ _ _ Hwf (pre ++ [a])%list);
    [by rewrite <- app_assoc|].
  pose proof (walk_length reg (negb (f_destination flt =? ADDRESS_ID_INVALID))) as Hl.
  rewrite Hwalk, length_app in Hl. simpl in Hl. lia.
Qed.

Section BroadcastProperties.

Context {W : Type} `{Collaborators W}.

Lemma log_extends_refl dest (st : State W) : log_extends dest st st.
Proof. exists []. split; [by rewrite app_nil_r | constructor]. Qed.

Lemma log_extends_trans dest (st1 st2 st3 : State W) :
  log_extends dest st1 st2 -> log_extends dest st2 st3 ->
  log_extends dest st1 st3.
Proof.
  intros (e1 & H1 & F1) (e2 & H2 & F2). exists (e1 ++ e2)%list.
  split; [by rewrite H2, H1, app_assoc | by apply Forall_app].
Qed.

(** A round of the loop of [peer_broadcast_to_matches] queues nothing to
    the destination of the filter and leaves the rules and the registries as
    they are. *)
Lemma body_log flt sp sn txn msg a (st : State W) out st' :
  peer_broadcast_to_matches_body sp sn flt txn msg a st = Some (out, st') ->
  log_extends (f_destination flt) st st'
  /\ st_rules st' = st_rules st /\ st_registries st' = st_registries st.
Proof.
  unfold peer_broadcast_to_matches_body, bind, load_rule.
  destruct (st_rules st !! a) as [r|]; simpl; [|discriminate].
  unfold do_policy_check_send, do_policy_check_receive, do_world, do_world_,
    log_event, modify, bind, ret.
  destruct (Z.eqb_spec (f_destination flt) (r_owner r)) as [Heq|Hne].
  { simpl. intros Hx. injection Hx as <- <-.
    split; [apply log_extends_refl | done]. }
  destruct sp as [policy|]; simpl.
  - repeat case_match; intros; simplify_eq/=.
    all: split; [|done].
    all: eexists; split; [simpl; rewrite <- ?app_assoc; reflexivity|].
    all: repeat constructor; simpl; congruence.
  - repeat case_match; intros; simplify_eq/=.
    all: split; [|done].
    all: eexists; split; [simpl; rewrite <- ?app_assoc; reflexivity|].
    all: repeat constructor; simpl; congruence.
Qed.

Lemma do_match_rule_next_match_state matches rule flt (st : State W) next st' :
  do_match_rule_next_match matches rule flt st = Some (next, st') -> st' = st.
Proof.
  unfold do_match_rule_next_match, bind, get, lift.
  destruct (match_rule_next_match _ _ _ _); intros; by simplify_eq/=.
Qed.

Lemma peer_broadcast_to_matches_loop_log fuel sp sn matches flt txn msg :
  forall rule st r st',
    peer_broadcast_to_matches_loop fuel sp sn matches flt txn msg rule st
    = Some (r, st') ->
    log_extends (f_destination flt) st st'.
Proof.
  induction fuel as [|fuel IH]; intros rule st r st'; simpl.
  - destruct rule; [discriminate|]. unfold ret. intros; simplify_eq/=.
    apply log_extends_refl.
  - destruct rule as [a|]; [|unfold ret; intros; simplify_eq/=; apply log_extends_refl].
    unfold bind at 1.
    destruct (peer_broadcast_to_matches_body sp sn flt txn msg a st)
      as [[out st1]|] eqn:Hbody; [|discriminate].
    apply body_log in Hbody as (Hlog & _ & _).
    destruct out as [r1|].
    + unfold ret. intros; simplify_eq/=. done.
    + unfold bind at 1.
      destruct (do_match_rule_next_match matches (Some a) flt st1)
        as [[next st2]|] eqn:Hnext; [|discriminate].
      apply do_match_rule_next_match_state in Hnext as ->.
      intros Hloop. apply IH in Hloop. by eapply log_extends_trans.
Qed.

Lemma body_total flt sp sn txn msg a (st : State W) :
  is_Some (st_rules st !! a) ->
  exists out st', peer_broadcast_to_matches_body sp sn flt txn msg a st = Some (out, st').
Proof.
  intros [r Hr]. unfold peer_broadcast_to_matches_body, bind, load_rule.
  rewrite Hr. simpl.
  unfold do_policy_check_send, do_policy_check_receive, do_world, do_world_,
    log_event, modify, bind, ret.
  destruct sp; simpl; repeat case_match; simplify_eq/=; eauto.
Qed.

Lemma first_match_split rules flt l a :
  first_match rules flt l = Some a ->
  is_Some (rules !! a) /\ exists l1 l2, l = (l1 ++ a :: l2)%list.
Proof.
  unfold first_match. intros Hf. apply find_some in Hf as [Hin Hm].
  split.
  - unfold rule_matches in Hm. destruct (rules !! a); [eauto | discriminate].
  - apply in_split in Hin as (l1 & l2 & ->). eauto.
Qed.

Lemma peer_broadcast_to_matches_loop_total sp sn matches flt txn msg fuel :
  forall l pre (st : State W),
    registry_wf (st_rules st) (registry_at st matches) ->
    walk (registry_at st matches) (negb (f_destination flt =? ADDRESS_ID_INVALID))
    = (pre ++ l)%list ->
    (length l <= fuel)%nat ->
    exists r st',
      peer_broadcast_to_matches_loop fuel sp sn matches flt txn msg
        (first_match (st_rules st) flt l) st = Some (r, st').
Proof.
  induction fuel as [|fuel IH]; intros l pre st Hwf Hwalk Hfuel.
  - destruct l; [|simpl in Hfuel; lia]. simpl. unfold ret. eauto.
  - destruct (first_match (st_rules st) flt l) as [a|] eqn:Hfirst;
      [|simpl; unfold ret; eauto].
    destruct (first_match_split _ _ _ _ Hfirst) as (Hsome & l1 & l2 & ->).
    simpl. unfold bind at 1.
    destruct (body_total flt sp sn txn msg a st Hsome) as (out & st1 & Hbody).
    rewrite Hbody.
    apply body_log in Hbody as (_ & Hrules & Hregs).
    destruct out as [r|]; [unfold ret; eauto|].
    assert (registry_at st1 matches = registry_at st matches) as Hreg
      by (unfold registry_at; by rewrite Hregs).
    unfold bind at 1, do_match_rule_next_match, bind at 1, get, lift.
    rewrite Hrules, Hreg.
    rewrite (match_rule_next_match_step _ _ _ (pre ++ l1)%list a l2 Hwf);
      [|by rewrite <- app_assoc].
    rewrite <- Hrules.
    apply (IH l2 ((pre ++ l1) ++ [a])%list).
    + by rewrite Hrules, Hreg.
    + rewrite Hreg, Hwalk, <- !app_assoc. done.
    + rewrite length_app in Hfuel. simpl in Hfuel. lia.
Qed.

(** C3. In [peer_broadcast_to_matches], the round for a rule whose owner
    is the peer with the destination id of the filter ends at once and
    leaves the state as it is; a run that returns has queued nothing on the
    connection of that peer; and on a registry whose lists are well formed
    the run returns. *)
Theorem peer_broadcast_excludes_destination (sp : option Z)
    (sn : option NameSet) (matches : RegistryRef) (flt : MatchFilter)
    (txn : Z) (msg : Message) (st : State W) :
  (forall a r,
     st_rules st !! a = Some r -> r_owner r = f_destination flt ->
     peer_broadcast_to_matches_body sp sn flt txn msg a st = Some (None, st))
  /\ (forall r st',
        peer_broadcast_to_matches sp sn matches flt txn msg st = Some (r, st') ->
        log_extends (f_destination flt) st st')
  /\ (registry_wf (st_rules st) (registry_at st matches) ->
      exists r st',
        peer_broadcast_to_matches sp sn matches flt txn msg st = Some (r, st')).
Proof.
  split; [|split].
  - intros a r Ha Howner.
    unfold peer_broadcast_to_matches_body, bind, load_rule. rewrite Ha.
    simpl. rewrite Howner, Z.eqb_refl. reflexivity.
  - intros r st'. unfold peer_broadcast_to_matches, bind at 1, get.
    unfold bind at 1.
    destruct (do_match_rule_next_match matches None flt st)
      as [[first st1]|] eqn:Hfirst; [|discriminate].
    apply do_match_rule_next_match_state in Hfirst as ->.
    apply peer_broadcast_to_matches_loop_log.
  - intros Hwf. unfold peer_broadcast_to_matches, bind at 1, get.
    unfold bind at 1, do_match_rule_next_match, bind at 1, get, lift.
    rewrite match_rule_next_match_first by done.
    apply (peer_broadcast_to_matches_loop_total _ _ _ _ _ _ _ _ []);
      [done | done | apply walk_length].
Qed.

End BroadcastProperties.

(** Peer 1 calls peer 2 while peer 4 and peer 2 eavesdrop: the broadcast
    over the wildcard registry queues the call to peer 4 and not to peer 2,
    which has it from the unicast. *)
Lemma peer_broadcast_excludes_destination_witness :
  let st := Reference.two_eavesdroppers in
  let flt := fallback_filter 1 (Some 2) Reference.method_call in
  eavesdrop_list (registry_at st REG_WILDCARD) = [0%nat; 1%nat]
  /\ (r_owner <$> st_rules st !! 1%nat) = Some 2
  /\ peer_broadcast_to_matches_body (Some 1) (Some (NAME_SET_TYPE_OWNER 1)) flt
       1 Reference.method_call 1%nat st = Some (None, st)
  /\ exists st',
       peer_broadcast_to_matches (Some 1) (Some (NAME_SET_TYPE_OWNER 1))
         REG_WILDCARD flt 1 Reference.method_call st = Some (R_OK, st')
       /\ log_extends 2 st st'
       /\ st_log st'
          = (st_log st ++ [EV_policy_check_send 1 4; EV_policy_check_receive 4;
                           EV_connection_queue 4 1])%list.
Proof.
  intros st flt.
  destruct (peer_broadcast_excludes_destination (Some 1)
              (Some (NAME_SET_TYPE_OWNER 1)) REG_WILDCARD flt 1
              Reference.method_call st) as (Hskip & Hlog & Htotal).
  split; [vm_compute; reflexivity|]. split; [vm_compute; reflexivity|].
  split.
  { eapply Hskip; vm_compute; reflexivity. }
  destruct Htotal as (r & st' & Hrun).
  { split; [|split].
    - apply (bool_decide_unpack _). vm_compute. exact I.
    - intros a Ha. vm_compute in Ha.
      apply elem_of_cons in Ha as [->|Ha]; [eexists; split; vm_compute; reflexivity|].
      apply elem_of_cons in Ha as [->|Ha]; [eexists; split; vm_compute; reflexivity|].
      by apply elem_of_nil in Ha.
    - intros a Ha. vm_compute in Ha. by apply elem_of_nil in Ha. }
  exists st'. pose proof (Hlog r st' Hrun) as Hext.
  vm_compute in Hrun. injection Hrun as <- <-.
  split; [vm_compute; reflexivity|]. split; [exact Hext|].
  vm_compute. reflexivity.
Defined.

(** ** Rule owners *)

Lemma c_truthy_error_fold r : c_truthy r = true -> c_truthy (error_fold r) = true.
Proof. by destruct r. Qed.

Lemma c_truthy_false r : c_truthy r = false -> r = R_OK.
Proof. by destruct r. Qed.

Section MonadInversion.

Context {W : Type} `{Collaborators W}.


Lemma bind_inv {A B} (m : M W A) (k : A -> M W B) st r st' :
  bind m k st = Some (r, st') ->
  exists x st1, m st = Some (x, st1) /\ k x st1 = Some (r, st').
Proof. unfold bind. destruct (m st) as [[x st1]|]; [eauto | discriminate]. Qed.

Lemma ret_inv {A} (x : A) (st : State W) r st' :
  ret x st = Some (r, st') -> r = x /\ st' = st.
Proof. unfold ret. by intros [= <- <-]. Qed.

Lemma get_inv (st : State W) r st' : get st = Some (r, st') -> r = st /\ st' = st.
Proof. unfold get. by intros [= <- <-]. Qed.

Lemma modify_inv (f : State W -> State W) st r st' :
  modify f st = Some (r, st') -> st' = f st.
Proof. unfold modify. by intros [= <- <-]. Qed.

Lemma assert_inv (b : bool) (st : State W) r st' :
  assert b st = Some (r, st') -> b = true /\ st' = st.
Proof. unfold assert. destruct b; [by intros [= <- <-] | discriminate]. Qed.

Lemma load_rule_inv a (st : State W) r st' :
  load_rule a st = Some (r, st') -> st_rules st !! a = Some r /\ st' = st.
Proof.
  unfold load_rule. destruct (st_rules st !! a); [by intros [= <- <-] | discriminate].
Qed.

Lemma store_rule_inv a x (st : State W) r st' :
  store_rule a x st = Some (r, st') ->
  st' = set_st_rules (<[a := x]> (st_rules st)) st.
Proof. unfold store_rule, modify. by intros [= <- <-]. Qed.

Lemma log_event_inv e (st : State W) r st' :
  log_event e st = Some (r, st') -> st' = set_st_log (st_log st ++ [e]) st.
Proof. unfold log_event, modify. by intros [= <- <-]. Qed.

Lemma do_user_charge_inv user slot amount (st : State W) r st' :
  do_user_charge user slot amount st = Some (r, st') ->
  exists w, st' = set_st_world w
                    (set_st_log (st_log st ++ [EV_user_charge user slot amount]) st).
Proof.
  unfold do_user_charge, bind, log_event, modify. simpl.
  destruct (user_charge _ _ _ _). intros [= <- <-]. eauto.
Qed.

Lemma do_user_charge_deinit_inv c (st : State W) r st' :
  do_user_charge_deinit c st = Some (r, st') ->
  exists w l, st' = set_st_world w (set_st_log l st).
Proof.
  unfold do_user_charge_deinit. destruct c as [c|].
  - unfold bind, log_event, modify. simpl. intros [= <- <-]. eauto.
  - unfold ret. intros [= <- <-]. exists (st_world st), (st_log st). by destruct st.
Qed.


End MonadInversion.

Ltac st_simpl :=
  cbn [st_rules st_owners st_registries st_peers st_transaction_ids
       st_world st_log set_st_rules set_st_owners set_st_registries
       set_st_peers set_st_transaction_ids set_st_world set_st_log] in *.

Ltac minv :=
  repeat
    (match goal with
     | H : bind _ _ _ = Some _ |- _ =>
         let x := fresh "x" in let s := fresh "s" in let Hx := fresh "Hx" in
         apply bind_inv in H as (x & s & Hx & H)
     | H : ret _ _ = Some _ |- _ => apply ret_inv in H as [? ?]
     | H : get _ = Some _ |- _ => apply get_inv in H as [? ?]
     | H : modify _ _ = Some _ |- _ => apply modify_inv in H
     | H : assert _ _ = Some _ |- _ => apply assert_inv in H as [? ?]
     | H : load_rule _ _ = Some _ |- _ => apply load_rule_inv in H as [? ?]
     | H : store_rule _ _ _ = Some _ |- _ => apply store_rule_inv in H
     | H : log_event _ _ = Some _ |- _ => apply log_event_inv in H
     | H : do_user_charge _ _ _ _ = Some _ |- _ =>
         apply do_user_charge_inv in H as (? & ?)
     | H : do_user_charge_deinit _ _ = Some _ |- _ =>
         apply do_user_charge_deinit_inv in H as (? & ? & ?)
     | H : (if c_truthy ?r then _ else _) _ = Some _ |- _ =>
         destruct (c_truthy r) eqn:?
     | H : (if c_truthy ?r then _ else _) = _ |- _ =>
         destruct (c_truthy r) eqn:?
     | H : c_truthy ?r = false |- _ =>
         is_var r; apply c_truthy_false in H
     end; subst; st_simpl).

Section OwnerProperties.

Context {W : Type} `{Collaborators W}.

Lemma match_rule_new_spec owner user n (st : State W) res st1 :
  match_rule_new owner user n st = Some (res, st1) ->
  (exists w l,
     res = (R_OK, Some (st_brk st))
     /\ st1 = mkState
          (<[st_brk st :=
               mkMatchRule MatchRuleKeys_zero owner None 0
                 (Some (mkUserCharge user USER_SLOT_BYTES (sizeof_MatchRule + n)))
                 (Some (mkUserCharge user USER_SLOT_MATCHES 1))]> (st_rules st))
          (st_owners st) (st_registries st) (st_peers st)
          (st_transaction_ids st) w l)
  \/ (exists r, res = (r, None) /\ c_truthy r = true).
Proof.
  intros Hrun. unfold match_rule_new in Hrun.
  apply bind_inv in Hrun as (st0 & st0' & [-> ->]%get_inv & Hrun).
  destruct (calloc (st_world st) (sizeof_MatchRule + n)); cbn [negb] in Hrun.
  2: { apply ret_inv in Hrun as [-> _]. right. by eexists. }
  minv.
  all: rewrite ?lookup_insert_eq in *; simplify_eq/=.
  all: try (right; eexists; split; [done|];
            case_bool_decide; [done | by apply c_truthy_error_fold]).
  left. do 2 eexists. split; [done|]. f_equal. by rewrite !insert_insert_eq.
Qed.

Lemma c_string_compare_eq (a b : option string) :
  c_string_compare a b = 0 <-> a = b.
Proof.
  destruct a as [a|], b as [b|]; simpl; try (split; [discriminate|congruence]);
    [|done].
  rewrite strcmp_eq. split; congruence.
Qed.

Lemma or_else_eq (r k : Z) : or_else r k = 0 <-> r = 0 /\ k = 0.
Proof. unfold or_else. destruct (Z.eqb_spec r 0); lia. Qed.

Lemma match_rules_compare_args_eq n i f1 f2 :
  match_rules_compare_args n i f1 f2 = 0
  <-> map (arr_get (f_args f1)) (seq i n) = map (arr_get (f_args f2)) (seq i n)
      /\ map (arr_get (f_argpaths f1)) (seq i n)
         = map (arr_get (f_argpaths f2)) (seq i n).
Proof.
  revert i; induction n as [|n IH]; intros i; simpl; [done|].
  destruct (Z.eqb_spec (c_string_compare (arr_get (f_args f1) i) (arr_get (f_args f2) i)) 0)
    as [He|Hne]; simpl.
  - apply c_string_compare_eq in He.
    destruct (Z.eqb_spec (c_string_compare (arr_get (f_argpaths f1) i)
                            (arr_get (f_argpaths f2) i)) 0) as [He'|Hne']; simpl.
    + apply c_string_compare_eq in He'. rewrite IH, He, He'.
      split; [intros [-> ->]; done|]. intros [[= ?] [= ?]]. done.
    + split; [done|]. intros [_ [= He' _]]. by apply c_string_compare_eq in He'.
  - split; [done|]. intros [[= He _] _]. by apply c_string_compare_eq in He.
Qed.

Lemma match_rules_compare_eq (k1 k2 : MatchRuleKeys) :
  match_rules_compare k1 k2 = 0 <-> canonical k1 = canonical k2.
Proof.
  unfold match_rules_compare, canonical.
  pose proof (match_rules_compare_args_eq N_ARGS 0 (k_filter k1) (k_filter k2))
    as Hargs.
  set (rest := match_rules_compare_args N_ARGS 0 (k_filter k1) (k_filter k2)) in *.
  set (a1 := map (arr_get (f_args (k_filter k1))) (seq 0 N_ARGS)) in *.
  set (a2 := map (arr_get (f_args (k_filter k2))) (seq 0 N_ARGS)) in *.
  set (p1 := map (arr_get (f_argpaths (k_filter k1))) (seq 0 N_ARGS)) in *.
  set (p2 := map (arr_get (f_argpaths (k_filter k2))) (seq 0 N_ARGS)) in *.
  clearbody rest a1 a2 p1 p2.
  match goal with
  | |- context [negb (?r =? 0)] => destruct (Z.eqb_spec r 0) as [He|Hne]
  end; cbn [negb].
  - rewrite !or_else_eq, !c_string_compare_eq in He.
    destruct He as (-> & -> & -> & -> & -> & -> & ->).
    destruct (Z.gtb_spec (f_type (k_filter k1)) (f_type (k_filter k2))).
    { split; [discriminate|]. intros [= ? ?]. lia. }
    destruct (Z.ltb_spec (f_type (k_filter k1)) (f_type (k_filter k2))).
    { split; [discriminate|]. intros [= ? ?]. lia. }
    assert (f_type (k_filter k1) = f_type (k_filter k2)) as -> by lia.
    destruct (k_eavesdrop k1), (k_eavesdrop k2); cbn;
      try (split; [discriminate|intros [= ]]).
    all: rewrite Hargs; split; [intros [-> ->]; done|];
      intros [= ? ?]; done.
  - split; [done|]. intros [= ? ? ? ? ? ? ?]. exfalso. apply Hne.
    rewrite !or_else_eq, !c_string_compare_eq. done.
Qed.

Lemma match_rule_unlink_spec a (st : State W) r :
  st_rules st !! a = Some r ->
  match_rule_unlink a st
  = Some (tt,
          match r_registry r with
          | None => st
          | Some ref =>
              set_st_rules (<[a := set_r_registry None r]> (st_rules st))
                (set_st_registries
                   (<[ref := unlinked_registry a (registry_at st ref)]>
                      (st_registries st)) st)
          end).
Proof.
  intros Ha. unfold match_rule_unlink, bind, load_rule. rewrite Ha.
  destruct (r_registry r); reflexivity.
Qed.

Lemma match_rule_free_spec a (st : State W) r :
  st_rules st !! a = Some r -> r_n_user_refs r = 0 ->
  exists w l, match_rule_free (Some a) st = Some (tt, freed_state a r w l st).
Proof.
  intros Ha Hrefs. unfold match_rule_free, bind at 1, load_rule. rewrite Ha.
  unfold bind at 1, assert. rewrite Hrefs. simpl.
  unfold bind at 1.
  destruct (do_user_charge_deinit (r_charge1 r) st) as [[[] st1]|] eqn:H1;
    [|by destruct (r_charge1 r)].
  apply do_user_charge_deinit_inv in H1 as (w1 & l1 & ->).
  unfold bind at 1.
  match goal with
  | |- context [do_user_charge_deinit ?c ?s] =>
      destruct (do_user_charge_deinit c s) as [[[] st2]|] eqn:H2;
        [|by destruct c]
  end.
  apply do_user_charge_deinit_inv in H2 as (w2 & l2 & ->).
  unfold bind at 1, modify. unfold bind at 1.
  erewrite match_rule_unlink_spec by (st_simpl; exact Ha).
  exists w2, l2. unfold freed_state, owner_at, registry_at. st_simpl.
  destruct (r_registry r); st_simpl; f_equal; f_equal.
  - by rewrite delete_insert_eq.
Qed.


Lemma match_rule_user_ref_spec e (st : State W) re :
  st_rules st !! e = Some re -> 0 < r_n_user_refs re ->
  match_rule_user_ref (Some e) st
  = Some (Some e, set_st_rules (<[e := incr_user_refs re]> (st_rules st)) st).
Proof.
  intros He Hrefs. unfold match_rule_user_ref, bind, load_rule, assert. rewrite He.
  destruct (Z.gtb_spec (r_n_user_refs re) 0); [|lia]. reflexivity.
Qed.

Lemma match_rule_user_unref_spec a (st : State W) r :
  st_rules st !! a = Some r -> 0 < r_n_user_refs r ->
  exists st',
    match_rule_user_unref (Some a) st = Some (tt, st')
    /\ if r_n_user_refs r =? 1 then
         exists w l,
           st' = freed_state a (set_r_n_user_refs 0 r) w l
                   (set_st_rules (<[a := set_r_n_user_refs 0 r]> (st_rules st)) st)
       else
         st' = set_st_rules
                 (<[a := set_r_n_user_refs (r_n_user_refs r - 1) r]> (st_rules st))
                 st.
Proof.
  intros Ha Hrefs. unfold match_rule_user_unref, bind at 1, load_rule.
  rewrite Ha. unfold bind at 1, assert.
  destruct (Z.gtb_spec (r_n_user_refs r) 0); [|lia].
  unfold bind at 1, store_rule, modify.
  destruct (Z.eqb_spec (r_n_user_refs r) 1) as [H1|H1].
  - rewrite H1. simpl (1 - 1 =? 0).
    destruct (match_rule_free_spec a
                (set_st_rules (<[a := set_r_n_user_refs 0 r]> (st_rules st)) st)
                (set_r_n_user_refs 0 r)) as (w & l & Hfree);
      [st_simpl; apply lookup_insert_eq | done |].
    change (1 - 1) with 0. cbv beta. rewrite Hfree. eauto.
  - destruct (Z.eqb_spec (r_n_user_refs r - 1) 0); [lia|]. unfold ret. eauto.
Qed.

Lemma c_rbtree_remove_init_not_in (tree : CRBTree) (a : nat) :
  a ∉ c_rbtree_entries tree -> c_rbtree_remove_init tree a = tree.
Proof. intros Hnin. unfold c_rbtree_remove_init. by rewrite bool_decide_eq_false_2. Qed.

Lemma c_rbtree_find_slot_ext {K} (f g : K -> nat -> Z) (k : K) (tree : CRBTree) :
  (forall x, x ∈ c_rbtree_entries tree -> f k x = g k x) ->
  c_rbtree_find_slot f k tree = c_rbtree_find_slot g k tree.
Proof.
  induction tree as [|l IHl a r IHr]; simpl; [done|]. intros Hfg.
  rewrite (Hfg a) by (apply elem_of_app; right; apply elem_of_cons; by left).
  rewrite IHl by (intros x Hx; apply Hfg, elem_of_app; by left).
  rewrite IHr
    by (intros x Hx; apply Hfg, elem_of_app; right; apply elem_of_cons;
        by right).
  done.
Qed.

(** The node that the descent ends at is in the tree and compares equal. *)
Lemma c_rbtree_find_slot_found {K} (f : K -> nat -> Z) (k : K) (tree : CRBTree)
    (a : nat) :
  c_rbtree_find_slot f k tree = inl a ->
  a ∈ c_rbtree_entries tree /\ f k a = 0.
Proof.
  induction tree as [|l IHl x r IHr]; simpl; [done|].
  destruct (Z.ltb_spec (f k x) 0).
  { destruct (c_rbtree_find_slot f k l); [|done]. intros [= ->].
    destruct IHl as [Hin Hz]; [done|]. split; [|done].
    apply elem_of_app. by left. }
  destruct (Z.gtb_spec (f k x) 0).
  { destruct (c_rbtree_find_slot f k r); [|done]. intros [= ->].
    destruct IHr as [Hin Hz]; [done|]. split; [|done].
    apply elem_of_app. right. apply elem_of_cons. by right. }
  intros [= ->]. split; [|lia].
  apply elem_of_app. right. apply elem_of_cons. by left.
Qed.

Lemma rule_tree_compare_zero rules keys e :
  rule_tree_compare rules keys e = 0 ->
  exists re, rules !! e = Some re /\ canonical keys = canonical (r_keys re).
Proof.
  unfold rule_tree_compare. destruct (rules !! e) as [re|]; [|discriminate].
  intros Hz. apply match_rules_compare_eq in Hz. eauto.
Qed.

(** A call of [match_owner_ref_rule] that returns 0, by what the descent
    for the parsed keys finds in the tree of the owner. *)
Lemma match_owner_ref_rule_ok (owner : Z) (st : State W) rulep user s out st' :
  (forall a, a ∈ rule_tree (owner_at st owner) -> is_Some (st_rules st !! a)) ->
  match_owner_ref_rule owner rulep user s st = Some ((R_OK, out), st') ->
  fst (parsed_keys s) = R_OK
  /\ match c_rbtree_find_slot (rule_tree_compare (st_rules st))
             (snd (parsed_keys s)) (rule_tree (owner_at st owner)) with
     | inl e =>
         rule_tree (owner_at st' owner) = rule_tree (owner_at st owner)
         /\ out = (if rulep then Some e else None)
         /\ exists re, st_rules st !! e = Some re
              /\ st_rules st'
                 = (if rulep then <[e := incr_user_refs re]> (st_rules st)
                    else st_rules st)
     | inr slot =>
         rule_tree (owner_at st' owner)
         = c_rbtree_add (rule_tree (owner_at st owner)) slot (st_brk st)
         /\ out = (if rulep then Some (st_brk st) else None)
         /\ exists new, st_rules st' = <[st_brk st := new]> (st_rules st)
              /\ r_keys new = snd (parsed_keys s)
              /\ r_n_user_refs new = 1
     end.
Proof.
  intros Htree Hrun.
  assert (st_rules st !! st_brk st = None) as Hnone
    by apply not_elem_of_dom, is_fresh.
  assert (st_brk st ∉ c_rbtree_entries (rule_tree (owner_at st owner))) as Hnin.
  { intros Hin. apply Htree in Hin as [? Hin]. congruence. }
  unfold match_owner_ref_rule in Hrun.
  apply bind_inv in Hrun as ([r o] & st1 & Hnew & Hrun).
  apply match_rule_new_spec in Hnew as [(w & l & [= -> ->] & ->)|(r' & [= -> ->] & Ht)].
  2: { apply ret_inv in Hrun as [[= Hr _] _]. unfold error_trace in Hr.
       rewrite <- Hr in Ht. discriminate. }
  apply bind_inv in Hrun as (new & st1 & Hload & Hrun).
  apply load_rule_inv in Hload as [Hload ->]. st_simpl.
  rewrite lookup_insert_eq in Hload. injection Hload as <-.
  cbn [r_keys r_n_user_refs set_r_n_user_refs] in Hrun.
  fold (parsed_keys s) in Hrun.
  destruct (parsed_keys s) as [rp keys] eqn:Hparse.
  apply bind_inv in Hrun as ([] & st2 & Hstore & Hrun).
  apply store_rule_inv in Hstore as ->. st_simpl.
  rewrite insert_insert_eq in Hrun.
  destruct (c_truthy rp) eqn:Hrp.
  { apply bind_inv in Hrun as ([] & st3 & _ & Hrun).
    apply ret_inv in Hrun as [[= Hr _] _]. unfold error_trace in Hr.
    rewrite <- Hr in Hrp. discriminate. }
  apply c_truthy_false in Hrp as ->. split; [done|]. cbn [snd].
  apply bind_inv in Hrun as (st2 & st3 & Hget & Hrun).
  apply get_inv in Hget as [-> ->]. st_simpl.
  unfold owner_at in Hrun at 1. st_simpl. fold (owner_at st owner) in Hrun.
  set (newrule := set_r_keys keys _) in *.
  assert (c_rbtree_find_slot
            (rule_tree_compare (<[st_brk st := newrule]> (st_rules st))) keys
            (rule_tree (owner_at st owner))
          = c_rbtree_find_slot (rule_tree_compare (st_rules st)) keys
              (rule_tree (owner_at st owner))) as Hfind.
  { apply c_rbtree_find_slot_ext. intros x Hx.
    unfold rule_tree_compare. rewrite lookup_insert_ne; [done|].
    intros <-. by apply Hnin. }
  rewrite Hfind in Hrun.
  destruct (c_rbtree_find_slot (rule_tree_compare (st_rules st)) keys
              (rule_tree (owner_at st owner))) as [e|slot] eqn:Hfound.
  - (* a rule with these keys exists *)
    apply c_rbtree_find_slot_found in Hfound as [Hin Hcmp].
    destruct (Htree e Hin) as [re Hre].
    assert (e <> st_brk st) as Hne by (intros ->; by apply Hnin).
    apply bind_inv in Hrun as (out' & st2 & Href & Hrun).
    apply bind_inv in Hrun as ([] & st3 & Hunref & Hrun).
    apply ret_inv in Hrun as [[= <-] ->].
    match type of Href with
    | _ ?s0 = _ => set (st1 := s0) in *
    end.
    assert (st_rules st1 !! e = Some re) as Hre1
      by (subst st1; st_simpl; by rewrite lookup_insert_ne).
    assert (exists rules2,
              st2 = set_st_rules rules2 st1
              /\ rules2 !! st_brk st = Some newrule
              /\ out = (if rulep then Some e else None)
              /\ rules2 = (if rulep then <[e := incr_user_refs re]> (st_rules st1)
                           else st_rules st1)) as (rules2 & -> & Hnew2 & -> & Hrules2).
    { destruct rulep.
      - unfold match_rule_user_ref in Href.
        apply bind_inv in Href as (x & s1 & Hl & Href).
        apply load_rule_inv in Hl as [Hl ->]. rewrite Hre1 in Hl. injection Hl as <-.
        apply bind_inv in Href as ([] & s1 & Ha & Href).
        apply assert_inv in Ha as [_ ->].
        apply bind_inv in Href as ([] & s1 & Hs & Href).
        apply store_rule_inv in Hs as ->.
        apply ret_inv in Href as [-> ->].
        eexists. split; [reflexivity|]. split; [|done].
        rewrite lookup_insert_ne by done. subst st1. st_simpl.
        apply lookup_insert_eq.
      - apply ret_inv in Href as [-> ->]. exists (st_rules st1).
        split; [by destruct st1|]. split; [|done].
        subst st1. st_simpl. apply lookup_insert_eq. }
    destruct (match_rule_user_unref_spec (st_brk st) (set_st_rules rules2 st1) newrule)
      as (st3' & Hunref' & Hst3); [done | done |].
    rewrite Hunref' in Hunref. injection Hunref as <-.
    change (r_n_user_refs newrule =? 1) with true in Hst3. cbv iota in Hst3.
    destruct Hst3 as (w3 & l3 & ->).
    assert (owner_at (set_st_rules (<[st_brk st := set_r_n_user_refs 0 newrule]> (st_rules (set_st_rules rules2 st1)))
                 (set_st_rules rules2 st1)) owner = owner_at st owner) as Howner
      by (subst st1; reflexivity).
    unfold freed_state. cbn [r_owner set_r_n_user_refs newrule set_r_keys].
    rewrite Howner. split; [|split; [done|]].
    + unfold owner_at at 1. st_simpl. rewrite lookup_insert_eq. cbn.
      by apply c_rbtree_remove_init_not_in.
    + exists re. split; [done|]. st_simpl.
      rewrite delete_insert_eq. rewrite Hrules2. subst st1. st_simpl.
      destruct rulep.
      * rewrite delete_insert_ne by done. rewrite delete_insert_eq.
        by rewrite delete_id.
      * rewrite delete_insert_eq. by rewrite delete_id.
  - (* no rule with these keys: the new rule goes into the tree *)
    apply bind_inv in Hrun as ([] & st2 & Hmod & Hrun).
    apply modify_inv in Hmod as ->. apply ret_inv in Hrun as [[= <-] ->].
    st_simpl. split; [|split; [done|]].
    + unfold owner_at at 1. st_simpl. by rewrite lookup_insert_eq.
    + exists newrule. repeat split.
Qed.

End OwnerProperties.

(** C5. The tree of an owner comes to hold two rules with the same keys,
    each with one user reference.

    [peer_add_match] with [force_eavesdrop] sets [keys.eavesdrop] of the
    rule that [match_owner_ref_rule] returned, which is in the tree of the
    owner at the place of its former keys. After the three calls of
    [Scenario.three_adds], which all return 0, the rule at the root has the
    keys [eavesdrop = true, arg0 = "z"], and the rule with the keys
    [eavesdrop = true, arg0 = "a"], which was linked to the right of the root
    when the root had [eavesdrop = false], now sorts before it. A call of
    [match_owner_ref_rule] with ["eavesdrop='true',arg0='a'"] descends to the
    left of the root, finds an empty slot, and links a second rule with these
    keys; the [n_user_refs] of the rule that was there stays 1. The trees of
    this run have a root and its two children, which the library links with
    no rotation.

    The two calls of [Scenario.two_forced_adds] return 0 and leave two rules
    with the very same keys in the tree: the second call looks for
    [eavesdrop = false], which the first rule has no more. *)
Theorem match_owner_ref_rule_links_duplicate :
  let keys := snd (Reference.keys_of "eavesdrop='true',arg0='a'") in
  let keys_and_refs :=
    fun r : MatchRule => (r_keys r, r_n_user_refs r) in
  ((fst <$> Scenario.three_adds Scenario.empty_bus) = Some (R_OK, R_OK, R_OK)
   /\ rule_tree (owner_at Scenario.after_three_adds 1)
      = CRB_Node CRB_NULL 0%nat (CRB_Node CRB_NULL 1%nat CRB_NULL)
   /\ (keys_and_refs <$> st_rules Scenario.after_three_adds !! 1%nat)
      = Some (keys, 1)
   /\ exists st',
        match_owner_ref_rule 1 true 1000 "eavesdrop='true',arg0='a'"
          Scenario.after_three_adds
        = Some ((R_OK, Some 2%nat), st')
        /\ rule_tree (owner_at st' 1)
           = CRB_Node (CRB_Node CRB_NULL 2%nat CRB_NULL) 0%nat
               (CRB_Node CRB_NULL 1%nat CRB_NULL)
        /\ (keys_and_refs <$> st_rules st' !! 1%nat) = Some (keys, 1)
        /\ (keys_and_refs <$> st_rules st' !! 2%nat) = Some (keys, 1))
  /\ ((fst <$> Scenario.two_forced_adds Scenario.empty_bus)
      = Some (R_OK, R_OK)
      /\ rule_tree (owner_at Scenario.after_two_forced_adds 1)
         = CRB_Node (CRB_Node CRB_NULL 1%nat CRB_NULL) 0%nat CRB_NULL
      /\ (keys_and_refs <$> st_rules Scenario.after_two_forced_adds !! 0%nat)
         = Some (set_k_eavesdrop true (snd (Reference.keys_of "arg0='z'")), 1)
      /\ (keys_and_refs <$> st_rules Scenario.after_two_forced_adds !! 1%nat)
         = Some (set_k_eavesdrop true (snd (Reference.keys_of "arg0='z'")), 1)).
Proof.
  intros keys keys_and_refs. split.
  - split; [vm_compute; reflexivity|]. split; [vm_compute; reflexivity|].
    split; [vm_compute; reflexivity|].
    eexists. split; [vm_compute; reflexivity|].
    split; [vm_compute; reflexivity|]. split; vm_compute; reflexivity.
  - split; [vm_compute; reflexivity|]. split; [vm_compute; reflexivity|].
    split; vm_compute; reflexivity.
Qed.

(** * Further properties of match.c and peer.c *)

(** ** Prefixes with a delimiter *)

Ltac str_simpl :=
  cbv beta iota delta [String.append] in *; fold String.append in *.

Lemma string_get_app_end (q t : string) (c : ascii) :
  String.get (String.length q) ((q ++ String c EmptyString) ++ t)%string = Some c.
Proof. induction q as [|x q IH]; str_simpl; simpl; [done | exact IH]. Qed.

Lemma string_snoc_inv (p : string) :
  p <> EmptyString -> exists q c, p = (q ++ String c EmptyString)%string.
Proof.
  induction p as [|x p IH]; [done|]. intros _.
  destruct p as [|y p].
  - by exists EmptyString, x.
  - destruct IH as (q & c & Hq); [done|]. exists (String x q), c.
    str_simpl. by rewrite Hq.
Qed.

Lemma string_length_snoc (q : string) (c : ascii) :
  String.length (q ++ String c EmptyString) = S (String.length q).
Proof. induction q; str_simpl; simpl; congruence. Qed.

Lemma string_snoc_inj (q q' : string) (c c' : ascii) :
  (q ++ String c EmptyString)%string = (q' ++ String c' EmptyString)%string ->
  c = c'.
Proof.
  revert q'; induction q as [|x q IH]; intros [|y q'] Heq; str_simpl.
  - congruence.
  - injection Heq as _ Heq. destruct q'; str_simpl; discriminate.
  - injection Heq as _ Heq. destruct q; str_simpl; discriminate.
  - injection Heq as _ Heq. eauto.
Qed.

Lemma string_app_inv_head (p t t' : string) :
  (p ++ t)%string = (p ++ t')%string -> t = t'.
Proof. induction p; str_simpl; [done|]. intros [= ?]. auto. Qed.

Lemma string_length_app (a b : string) :
  String.length (a ++ b) = (String.length a + String.length b)%nat.
Proof. induction a as [|x a IH]; str_simpl; simpl; [done|]. by rewrite IH. Qed.

Lemma string_app_empty (v : string) : (v ++ EmptyString)%string = v.
Proof. induction v; str_simpl; congruence. Qed.

(** X1. What [match_string_prefix (string, prefix, delimiter, included)]
    accepts. Without the delimiter included: [prefix] is a prefix of
    [string], and [string] ends there or goes on with the delimiter. With
    the delimiter included: [prefix] is a prefix of [string], and either it
    is not empty and [string] ends there, or it ends with the delimiter
    itself. Two [NULL]s are accepted, one [NULL] is refused. *)
Theorem match_string_prefix_iff (s p : string) (d : ascii) :
  (match_string_prefix (Some s) (Some p) d false = true
   <-> exists t, s = (p ++ t)%string /\ (deref t = zero \/ deref t = d))
  /\ (match_string_prefix (Some s) (Some p) d true = true
      <-> exists t, s = (p ++ t)%string
          /\ ((deref t = zero /\ p <> EmptyString)
              \/ exists q, p = (q ++ String d EmptyString)%string))
  /\ (forall b, match_string_prefix None None d b = true
                /\ match_string_prefix (Some s) None d b = false
                /\ match_string_prefix None (Some p) d b = false).
Proof.
  split; [|split; [|done]].
  - split; [apply match_string_prefix_sound|].
    intros (t & -> & Ht). unfold match_string_prefix.
    rewrite (proj2 (c_string_prefix_spec _ _ t) eq_refl).
    destruct Ht as [-> | ->]; [done|].
    rewrite Ascii.eqb_refl. by rewrite andb_false_r.
  - unfold match_string_prefix.
    destruct (c_string_prefix s p) as [t|] eqn:Hp.
    + apply c_string_prefix_spec in Hp as ->.
      destruct (decide (p = EmptyString)) as [->|Hne].
      { simpl. split; [discriminate|]. intros (t' & _ & [[_ Hne]|[q Hq]]); [done|].
        destruct q; str_simpl; discriminate. }
      destruct (string_snoc_inv p Hne) as (q & c & Hq).
      assert ((String.length p =? 0)%nat = false) as ->
        by (rewrite Hq, string_length_snoc; done).
      rewrite Hq at 1 2. rewrite string_length_snoc. simpl (S _ - 1)%nat.
      rewrite Nat.sub_0_r, string_get_app_end. simpl.
      destruct (Ascii.eqb_spec (deref t) zero) as [Hz|Hz]; simpl.
      * split; [|done]. intros _. exists t. split; [done|]. left. done.
      * destruct (Ascii.eqb_spec c d) as [->|Hcd]; simpl.
        -- split; [|done]. intros _. exists t. split; [done|]. right. by exists q.
        -- split; [discriminate|]. intros (t' & Heq & [[Hz' _]|[q' Hq']]).
           ++ apply string_app_inv_head in Heq as ->. done.
           ++ rewrite Hq' in Hq. apply string_snoc_inj in Hq. congruence.
    + split; [discriminate|]. intros (t & Heq & _).
      apply c_string_prefix_spec in Heq. congruence.
Qed.

(** ** The order of the rule tree *)

Lemma strcmp_antisym (a b : string) : strcmp a b = - strcmp b a.
Proof.
  revert b; induction a as [|x a IH]; intros [|y b]; simpl; try lia.
  rewrite (Ascii.eqb_sym y x). destruct (Ascii.eqb x y); [apply IH | lia].
Qed.

Lemma c_string_compare_antisym (a b : option string) :
  c_string_compare a b = - c_string_compare b a.
Proof. destruct a, b; simpl; try done. apply strcmp_antisym. Qed.

Lemma or_else_opp (r k : Z) : or_else (- r) (- k) = - or_else r k.
Proof. unfold or_else. destruct (Z.eqb_spec r 0), (Z.eqb_spec (- r) 0); lia. Qed.

Lemma match_rules_compare_args_antisym n i f1 f2 :
  match_rules_compare_args n i f1 f2 = - match_rules_compare_args n i f2 f1.
Proof.
  revert i; induction n as [|n IH]; intros i; simpl; [done|].
  rewrite (c_string_compare_antisym (arr_get (f_args f1) i)).
  rewrite (c_string_compare_antisym (arr_get (f_argpaths f1) i)).
  destruct (Z.eqb_spec (c_string_compare (arr_get (f_args f2) i)
                          (arr_get (f_args f1) i)) 0) as [->|?]; simpl.
  - destruct (Z.eqb_spec (c_string_compare (arr_get (f_argpaths f2) i)
                            (arr_get (f_argpaths f1) i)) 0) as [->|?]; simpl;
      [apply IH|].
    destruct (Z.eqb_spec (- c_string_compare (arr_get (f_argpaths f2) i)
                            (arr_get (f_argpaths f1) i)) 0); [lia|done].
  - destruct (Z.eqb_spec (- c_string_compare (arr_get (f_args f2) i)
                            (arr_get (f_args f1) i)) 0); [lia|done].
Qed.

Lemma match_rules_compare_opp (k1 k2 : MatchRuleKeys) :
  match_rules_compare k1 k2 = - match_rules_compare k2 k1.
Proof.
  unfold match_rules_compare.
  rewrite (match_rules_compare_args_antisym _ _ (k_filter k1)).
  set (rest := match_rules_compare_args N_ARGS 0 (k_filter k2) (k_filter k1)).
  clearbody rest.
  rewrite (c_string_compare_antisym (k_sender k1)),
    (c_string_compare_antisym (k_destination k1)),
    (c_string_compare_antisym (f_interface (k_filter k1))),
    (c_string_compare_antisym (f_member (k_filter k1))),
    (c_string_compare_antisym (f_path (k_filter k1))),
    (c_string_compare_antisym (k_path_namespace k1)),
    (c_string_compare_antisym (k_arg0namespace k1)).
  rewrite !or_else_opp.
  match goal with
  | |- context [negb (- ?r =? 0)] => set (x := r); clearbody x
  end.
  destruct (Z.eqb_spec x 0), (Z.eqb_spec (- x) 0); try lia; cbn [negb]; [|done].
  destruct (Z.gtb_spec (f_type (k_filter k1)) (f_type (k_filter k2))),
    (Z.ltb_spec (f_type (k_filter k1)) (f_type (k_filter k2))),
    (Z.gtb_spec (f_type (k_filter k2)) (f_type (k_filter k1))),
    (Z.ltb_spec (f_type (k_filter k2)) (f_type (k_filter k1))); try lia.
  by destruct (k_eavesdrop k1), (k_eavesdrop k2).
Qed.

(** X2. The sign of [match_rules_compare] is antisymmetric: swapping the
    two keys turns a negative result into a positive one and back. The
    property is on the sign, which is what the C standard fixes of a result
    of [strcmp]. The result is 0 exactly for two keys
    that agree in every field it looks at (the strings, the type, the
    [eavesdrop] flag and the 64 arguments and argument paths; not the
    numeric sender and destination of the filter), and so for a key and
    itself. *)
Theorem match_rules_compare_order (k1 k2 : MatchRuleKeys) :
  Z.sgn (match_rules_compare k1 k2) = - Z.sgn (match_rules_compare k2 k1)
  /\ (match_rules_compare k1 k2 = 0 <-> canonical k1 = canonical k2)
  /\ match_rules_compare k1 k1 = 0.
Proof.
  split; [|split; [apply match_rules_compare_eq | by apply match_rules_compare_eq]].
  rewrite (match_rules_compare_opp k1 k2). apply Z.sgn_opp.
Qed.

(** ** A key more, a match less *)

Lemma is_set_false (p : option string) : is_set p = false -> p = None.
Proof.
  unfold is_set. destruct p; [|done].
  rewrite bool_decide_eq_true_2 by eauto. discriminate.
Qed.

Lemma arr_get_insert_ne (l : list (option string)) (i j : nat) v :
  i <> j -> arr_get (<[i := v]> l) j = arr_get l j.
Proof. intros Hne. unfold arr_get. by rewrite list_lookup_insert_ne. Qed.

Lemma arr_get_insert_None (l : list (option string)) (i j : nat) v :
  arr_get l i = None ->
  arr_get l j = None \/ arr_get (<[i := v]> l) j = arr_get l j.
Proof.
  intros Hi. destruct (decide (i = j)) as [<-|Hne]; [by left|].
  right. by apply arr_get_insert_ne.
Qed.

(** Keys that have more arguments set than others, and agree with them
    where both are set, accept no more in the loop over the arguments. *)
Lemma match_filter_args_narrow n i keys keys' flt :
  (forall j, arr_get (f_args (k_filter keys)) j = None
             \/ arr_get (f_args (k_filter keys')) j
                = arr_get (f_args (k_filter keys)) j) ->
  (forall j, arr_get (f_argpaths (k_filter keys)) j = None
             \/ arr_get (f_argpaths (k_filter keys')) j
                = arr_get (f_argpaths (k_filter keys)) j) ->
  match_filter_args n i keys' flt = true -> match_filter_args n i keys flt = true.
Proof.
  intros Hargs Hpaths. revert i. induction n as [|n IH]; intros i; simpl; [done|].
  destruct (Hargs i) as [Ha | Ha], (Hpaths i) as [Hp | Hp]; rewrite Ha, Hp; cbn.
  all: repeat match goal with
              | |- (if ?c then false else _) = true -> _ =>
                  destruct c; [discriminate|]
              end.
  all: apply IH.
Qed.

Ltac keys_simpl :=
  cbn [k_sender k_destination k_filter k_path_namespace k_arg0namespace
       k_eavesdrop f_type f_destination f_sender f_interface f_member f_path
       f_args f_argpaths set_f_type set_f_destination set_f_sender
       set_f_interface set_f_member set_f_path set_f_args set_f_argpaths
       set_k_sender set_k_destination set_k_filter set_k_path_namespace
       set_k_arg0namespace set_k_eavesdrop] in *.

Lemma match_rule_keys_match_filter_args keys flt :
  match_rule_keys_match_filter keys flt = true ->
  match_filter_args N_ARGS 0 keys flt = true.
Proof.
  unfold match_rule_keys_match_filter.
  repeat match goal with
         | |- (if ?c then false else _) = true -> _ =>
             destruct c; [discriminate|]
         end. done.
Qed.

(** The keys of the hypothesis [Hm] are those of [keys] with one more of
    them set. *)
Ltac narrow keys Hm :=
  let Ht := fresh "Ht" in
  pose proof (match_rule_keys_match_filter_args _ _ Hm) as Ht;
  apply (match_filter_args_narrow _ _ keys) in Ht;
  [ revert Hm; unfold match_rule_keys_match_filter; rewrite Ht;
    match goal with
    | |- context [match_filter_args ?n ?i ?k ?f] =>
        generalize (match_filter_args n i k f)
    end;
    intros ?; keys_simpl;
    repeat match goal with
           | H : _ = None |- _ => rewrite H
           | H : _ = ADDRESS_ID_INVALID |- _ => rewrite H
           | H : _ = DBUS_MESSAGE_TYPE_INVALID |- _ => rewrite H
           end;
    repeat match goal with
           | |- (if ?c then false else _) = true -> _ =>
               destruct c eqn:?; [discriminate|]
           end;
    intros _; by cbn
  | keys_simpl; intros ?; first [by right | by apply arr_get_insert_None]
  | keys_simpl; intros ?; first [by right | by apply arr_get_insert_None] ].

Section AssignNarrows.

Variable afs : string -> Address.

(** X3. A key that [match_rule_keys_assign] accepts never widens a rule:
    every filter that the keys with the new key accept is accepted by the
    keys without it. The keys are those of a rule in the making, whose
    numeric destination is unset as long as the destination string is. *)
Theorem match_rule_keys_assign_narrows (keys keys' : MatchRuleKeys)
    (key value : string) (flt : MatchFilter) :
  (k_destination keys = None ->
   f_destination (k_filter keys) = ADDRESS_ID_INVALID) ->
  match_rule_keys_assign afs keys key value = (R_OK, keys') ->
  match_rule_keys_match_filter keys' flt = true ->
  match_rule_keys_match_filter keys flt = true.
Proof.
  intros Hdest. unfold match_rule_keys_assign.
  destruct (match_key_equal "type" key).
  { destruct (Z.eqb_spec (f_type (k_filter keys)) DBUS_MESSAGE_TYPE_INVALID)
      as [Ht|]; [|discriminate]. cbn [negb].
    repeat case_match; intros; simplify_eq/=.
    all: match goal with Hm : match_rule_keys_match_filter _ _ = true |- _ =>
           narrow keys Hm end. }
  destruct (match_key_equal "sender" key).
  { destruct (is_set (k_sender keys)); [discriminate|]. by intros [= <-]. }
  destruct (match_key_equal "destination" key).
  { destruct (is_set (k_destination keys)) eqn:Hs; [discriminate|].
    apply is_set_false in Hs. specialize (Hdest Hs).
    destruct (afs value); intros [= <-] Hm; narrow keys Hm. }
  destruct (match_key_equal "interface" key).
  { destruct (is_set (f_interface (k_filter keys))) eqn:Hs; [discriminate|].
    apply is_set_false in Hs. intros [= <-] Hm. narrow keys Hm. }
  destruct (match_key_equal "member" key).
  { destruct (is_set (f_member (k_filter keys))) eqn:Hs; [discriminate|].
    apply is_set_false in Hs. intros [= <-] Hm. narrow keys Hm. }
  destruct (match_key_equal "path" key).
  { destruct (is_set (f_path (k_filter keys))) eqn:Hs; [discriminate|].
    destruct (is_set (k_path_namespace keys)); [discriminate|].
    apply is_set_false in Hs. intros [= <-] Hm. narrow keys Hm. }
  destruct (match_key_equal "path_namespace" key).
  { destruct (is_set (k_path_namespace keys)) eqn:Hs; [discriminate|].
    destruct (is_set (f_path (k_filter keys))); [discriminate|].
    apply is_set_false in Hs. intros [= <-] Hm. narrow keys Hm. }
  destruct (match_key_equal "eavesdrop" key).
  { repeat case_match; intros; simplify_eq/=; done. }
  destruct (match_key_equal "arg0namespace" key).
  { destruct (is_set (k_arg0namespace keys)) eqn:Hs; [discriminate|].
    cbn [orb]. destruct (is_set _ || is_set _); [discriminate|].
    apply is_set_false in Hs. intros [= <-] Hm. narrow keys Hm. }
  destruct ((3 <=? String.length key)%nat && _); [|discriminate].
  destruct (arg_index 2 _ 0) as [i rest].
  destruct ((i =? 0) && is_set (k_arg0namespace keys)); [discriminate|].
  destruct (i >? 63); [discriminate|].
  destruct (is_set (arr_get (f_args (k_filter keys)) (Z.to_nat i))) eqn:Ha;
    [discriminate|].
  destruct (is_set (arr_get (f_argpaths (k_filter keys)) (Z.to_nat i))) eqn:Hp;
    [discriminate|].
  apply is_set_false in Ha, Hp. cbn [orb].
  destruct (match_key_equal "" rest).
  { intros [= <-] Hm. narrow keys Hm. }
  destruct (match_key_equal "path" rest); [|discriminate].
  intros [= <-] Hm. narrow keys Hm.
Qed.

End AssignNarrows.

(** The signal on ["/a"] with the member ["Changed"] is accepted by the
    rule ["type='signal',member='Changed'"], and so by the rule
    ["type='signal'"], to which the key [member] was added. *)
Lemma match_rule_keys_assign_narrows_witness :
  match_rule_keys_match_filter (snd (Reference.keys_of "type='signal'"))
    (fallback_filter 7 None (Reference.signal "/a" "x")) = true.
Proof.
  apply (match_rule_keys_assign_narrows Reference.parse_address
           (snd (Reference.keys_of "type='signal'"))
           (snd (Reference.keys_of "type='signal',member='Changed'"))
           "member" "Changed").
  - intros _. vm_compute. reflexivity.
  - vm_compute. reflexivity.
  - vm_compute. reflexivity.
Defined.

(** ** The parser and its buffer *)

Lemma read_value_eq (s : string) (quoted : bool) :
  read_value s quoted
  = let '(c, s', q') := match_string_value_pop s quoted in
    if Ascii.eqb c zero then (EmptyString, s', q')
    else let '(v, s'', q'') := read_value s' q' in (String c v, s'', q'').
Proof.
  apply (read_value_elim
           (fun s quoted res =>
              res = let '(c, s', q') := match_string_value_pop s quoted in
                    if Ascii.eqb c zero then (EmptyString, s', q')
                    else let '(v, s'', q'') := read_value s' q' in
                         (String c v, s'', q''))).
  - intros s0 q0 c e s' q' Hpop _ _. by rewrite Hpop, e.
  - intros s0 q0 c e s' q' Hpop _ _ _. by rewrite Hpop, e.
Qed.

Lemma span_length p s a b :
  span p s = (a, b) -> String.length s = (String.length a + String.length b)%nat.
Proof.
  revert a b; induction s as [|c s IH]; intros a b; simpl.
  - by intros [= <- <-].
  - destruct (p c).
    + destruct (span p s) as [a' b']. intros [= <- <-]. simpl.
      by rewrite (IH a' b').
    + by intros [= <- <-].
Qed.

Lemma advance_length s :
  deref s <> zero -> String.length s = S (String.length (advance s)).
Proof. destruct s; simpl; [done|]. done. Qed.

(** A key that is read takes at least its equal sign from the rule
    string. *)
Lemma match_rule_key_read_length s key rest :
  match_rule_key_read s = (R_OK, key, rest) ->
  (String.length key + String.length rest < String.length s)%nat.
Proof.
  unfold match_rule_key_read, strspn, strcspn.
  destruct (span _ s) as [a1 s1] eqn:H1. apply span_length in H1.
  destruct (Ascii.eqb (deref s1) zero); [discriminate|].
  destruct (span _ s1) as [k s2] eqn:H2. apply span_length in H2.
  destruct (Ascii.eqb (deref s2) zero); [discriminate|].
  destruct (span _ s2) as [a3 s3] eqn:H3. apply span_length in H3.
  destruct (Ascii.eqb_spec (deref s3) "=") as [He|]; [|discriminate]. simpl.
  intros [= <- <-].
  assert (deref s3 <> zero) as Hnz by (rewrite He; discriminate).
  apply advance_length in Hnz. lia.
Qed.

Lemma match_rule_key_read_codes s :
  fst (fst (match_rule_key_read s)) = R_OK
  \/ fst (fst (match_rule_key_read s)) = R_E MATCH_E_EOF
  \/ fst (fst (match_rule_key_read s)) = R_E MATCH_E_INVALID.
Proof.
  unfold match_rule_key_read.
  repeat (case_match; simpl; auto).
Qed.

(** A value takes at least its own length from the rule string. *)
Lemma read_value_length n :
  forall s q v s' q', (String.length s <= n)%nat ->
    read_value s q = (v, s', q') ->
    (String.length v + String.length s' <= String.length s)%nat.
Proof.
  induction n as [|n IH]; intros s q v s' q' Hn; rewrite read_value_eq.
  - destruct (match_string_value_pop s q) as [[c t] qq] eqn:Hpop.
    apply match_string_value_pop_length in Hpop as [Hle Hlt].
    destruct (Ascii.eqb_spec c zero) as [->|Hc].
    + intros [= <- <- <-]. simpl. lia.
    + specialize (Hlt Hc). lia.
  - destruct (match_string_value_pop s q) as [[c t] qq] eqn:Hpop.
    apply match_string_value_pop_length in Hpop as [Hle Hlt].
    destruct (Ascii.eqb_spec c zero) as [->|Hc].
    + intros [= <- <- <-]. simpl. lia.
    + specialize (Hlt Hc).
      destruct (read_value t qq) as [[v1 t1] q1] eqn:Hrec.
      apply IH in Hrec; [|lia]. intros [= <- <- <-]. simpl. lia.
Qed.

Section ParseCodes.

Variable afs : string -> Address.

Lemma match_rule_keys_parse_loop_eq (n_buffer i : nat) (keys : MatchRuleKeys)
    (rule_string : string) :
  match_rule_keys_parse_loop afs n_buffer i keys rule_string
  = if (i <? n_buffer)%nat then
      match match_rule_key_read rule_string with
      | (R_E MATCH_E_EOF, _, _) => (R_OK, keys)
      | (R_E e, _, _) => (error_trace (R_E e), keys)
      | (R_NEG n, _, _) => (error_trace (R_NEG n), keys)
      | (R_OK, key, rest) =>
          let '(value, rest', quoted) := read_value rest false in
          if quoted then (R_E MATCH_E_INVALID, keys)
          else
            match match_rule_keys_assign afs keys key value with
            | (R_OK, keys') =>
                match_rule_keys_parse_loop afs n_buffer
                  (i + (String.length value + 1))%nat keys' rest'
            | (r, keys') => (error_trace r, keys')
            end
      end
    else (error_origin (R_NEG ENOTRECOVERABLE), keys).
Proof.
  funelim (match_rule_keys_parse_loop afs n_buffer i keys rule_string).
  all: try rewrite Heqcall.
  all: repeat match goal with
       | H : _ = _ |- _ => rewrite H
       end; try reflexivity.
Qed.

Lemma match_rule_keys_assign_codes keys key value :
  fst (match_rule_keys_assign afs keys key value) = R_OK
  \/ fst (match_rule_keys_assign afs keys key value) = R_E MATCH_E_INVALID.
Proof.
  unfold match_rule_keys_assign.
  repeat (case_match; simpl; auto).
Qed.

(** As long as the bytes written and the characters left fit the buffer,
    the loop never runs out of it. *)
Lemma match_rule_keys_parse_loop_codes (len : nat) :
  forall (n_buffer i : nat) keys s,
    (String.length s <= len)%nat ->
    (i + String.length s < n_buffer)%nat ->
    fst (match_rule_keys_parse_loop afs n_buffer i keys s) = R_OK
    \/ fst (match_rule_keys_parse_loop afs n_buffer i keys s) = R_E MATCH_E_INVALID.
Proof.
  induction len as [|len IH]; intros n_buffer i keys s Hlen Hi;
    rewrite match_rule_keys_parse_loop_eq.
  all: destruct (Nat.ltb_spec i n_buffer); [|lia].
  all: pose proof (match_rule_key_read_codes s) as Hcodes.
  all: destruct (match_rule_key_read s) as [[r key] rest] eqn:Hread.
  all: simpl in Hcodes.
  all: destruct Hcodes as [->|[->| ->]]; [|simpl; auto..].
  all: apply match_rule_key_read_length in Hread.
  - lia.
  - destruct (read_value rest false) as [[value rest'] quoted] eqn:Hval.
    apply (read_value_length _ _ _ _ _ _ (Nat.le_refl _)) in Hval.
    destruct quoted; [simpl; auto|].
    pose proof (match_rule_keys_assign_codes keys key value) as Hassign.
    destruct (match_rule_keys_assign afs keys key value) as [ra keys'].
    simpl in Hassign. destruct Hassign as [->| ->]; [|simpl; auto].
    apply IH; lia.
Qed.

Lemma match_rule_keys_parse_codes keys (s : string) :
  fst (match_rule_keys_parse afs keys (String.length s + 1) s) = R_OK
  \/ fst (match_rule_keys_parse afs keys (String.length s + 1) s)
     = R_E MATCH_E_INVALID.
Proof.
  unfold match_rule_keys_parse.
  apply (match_rule_keys_parse_loop_codes (String.length s)); lia.
Qed.

(** X4. With the buffer of [strlen (rule_string) + 1] bytes that
    [match_owner_ref_rule] and [match_rule_get] hand in,
    [match_rule_keys_parse] returns 0 or [MATCH_E_INVALID] for every rule
    string: the branch that returns [-ENOTRECOVERABLE] is not reached. With
    a buffer of no bytes that branch is all there is. *)
Theorem match_rule_keys_parse_buffer_suffices (keys : MatchRuleKeys)
    (s : string) :
  (fst (match_rule_keys_parse afs keys (String.length s + 1) s) = R_OK
   \/ fst (match_rule_keys_parse afs keys (String.length s + 1) s)
      = R_E MATCH_E_INVALID)
  /\ fst (match_rule_keys_parse afs keys 0 s) = R_NEG ENOTRECOVERABLE.
Proof.
  split; [apply match_rule_keys_parse_codes|].
  unfold match_rule_keys_parse. by rewrite match_rule_keys_parse_loop_eq.
Qed.

End ParseCodes.

(** ** The parser on assignments in single quotes *)

Lemma span_stop p c s :
  p c = false -> span p (String c s) = (EmptyString, String c s).
Proof. intros Hc. simpl. by rewrite Hc. Qed.

Lemma span_all p k c s :
  string_forall p k = true -> p c = false ->
  span p (k ++ String c s) = (k, String c s).
Proof.
  intros Hk Hc. induction k as [|x k IH]; str_simpl.
  - by apply span_stop.
  - simpl in Hk. apply andb_true_iff in Hk as [Hx Hk]. simpl. rewrite Hx.
    by rewrite IH.
Qed.

Lemma string_forall_impl (p q : ascii -> bool) s :
  (forall c, p c = true -> q c = true) ->
  string_forall p s = true -> string_forall q s = true.
Proof.
  intros Hpq. induction s as [|c s IH]; simpl; [done|].
  rewrite !andb_true_iff. intros [Hc Hs]. auto.
Qed.

Lemma match_rule_key_read_assignment k rest :
  negb (String.eqb k EmptyString) && string_forall key_char k = true ->
  match_rule_key_read (k ++ String "=" rest) = (R_OK, k, rest).
Proof.
  rewrite andb_true_iff. intros [Hne Hk].
  destruct k as [|c k]; [done|]. clear Hne.
  assert (key_char c = true) as Hc
    by (simpl in Hk; by apply andb_true_iff in Hk as [? _]).
  unfold key_char in Hc. apply andb_true_iff in Hc as [Hc1 Hc2].
  apply negb_true_iff in Hc1, Hc2.
  unfold match_rule_key_read, strspn. str_simpl.
  rewrite span_stop by done. cbn [deref]. rewrite Hc2.
  unfold strcspn.
  change (String c (k ++ String "=" rest))
    with (String c k ++ String "=" rest)%string.
  rewrite span_all; [| |done].
  - cbn [deref]. change (Ascii.eqb "=" zero) with false. cbv iota.
    rewrite span_stop by done. by cbn.
  - eapply string_forall_impl; [|exact Hk]. intros x Hx. unfold key_char in Hx.
    by apply andb_true_iff in Hx as [? _].
Qed.

Lemma read_value_quote s q : read_value (String "'" s) q = read_value s (negb q).
Proof. by rewrite (read_value_eq (String "'" s)), (read_value_eq s). Qed.

Lemma read_value_behind kvs :
  read_value (behind kvs) false = (EmptyString, render kvs, false).
Proof. rewrite read_value_eq. by destruct kvs as [|[k v] kvs]. Qed.

(** Between single quotes every character but the apostrophe stands for
    itself, the comma and the backslash too. *)
Lemma read_value_quoted v rest :
  string_forall quoted_char v = true ->
  read_value (v ++ String "'" rest) true
  = let '(v', s', q') := read_value rest false in (v ++ v', s', q')%string.
Proof.
  intros Hv. induction v as [|c v IH]; str_simpl.
  - rewrite read_value_quote. cbn [negb].
    by destruct (read_value rest false) as [[? ?] ?].
  - simpl in Hv. apply andb_true_iff in Hv as [Hc Hv].
    unfold quoted_char in Hc. apply andb_true_iff in Hc as [Hc1 Hc2].
    apply negb_true_iff in Hc1, Hc2.
    rewrite read_value_eq.
    assert (match_string_value_pop (String c (v ++ String "'" rest)) true
            = (c, (v ++ String "'" rest)%string, true)) as ->.
    { unfold match_string_value_pop. cbn [skip_quotes]. rewrite Hc1.
      destruct (Ascii.eqb_spec c ","); [by subst|].
      destruct (Ascii.eqb_spec c "\"); [by subst|]. done. }
    rewrite Hc2, IH by done.
    by destruct (read_value rest false) as [[? ?] ?].
Qed.

Lemma render_cons k v kvs :
  render ((k, v) :: kvs)
  = (k ++ String "=" (String "'" (v ++ String "'" (behind kvs))))%string.
Proof. by destruct kvs. Qed.

Lemma behind_length kvs :
  (String.length (render kvs) <= String.length (behind kvs))%nat.
Proof. destruct kvs; simpl; lia. Qed.

Section ParseRendered.

Variable afs : string -> Address.

Lemma match_rule_keys_parse_loop_rendered (kvs : list (string * string)) :
  forallb assignment_ok kvs = true ->
  forall n_buffer i keys,
    (i + String.length (render kvs) < n_buffer)%nat ->
    match_rule_keys_parse_loop afs n_buffer i keys (render kvs)
    = assign_all afs keys kvs.
Proof.
  induction kvs as [|[k v] kvs IH]; intros Hok n_buffer i keys Hi;
    rewrite match_rule_keys_parse_loop_eq.
  all: destruct (Nat.ltb_spec i n_buffer); [|lia].
  - reflexivity.
  - simpl in Hok. apply andb_true_iff in Hok as [Hkv Hok].
    unfold assignment_ok in Hkv. cbn [fst snd] in Hkv.
    apply andb_true_iff in Hkv as [Hk Hv].
    rewrite render_cons in *.
    rewrite match_rule_key_read_assignment by done.
    rewrite read_value_quote. cbn [negb].
    rewrite read_value_quoted by done.
    rewrite read_value_behind.
    rewrite !string_length_app in Hi. cbn [String.length] in Hi.
    rewrite string_length_app in Hi. cbn [String.length] in Hi.
    pose proof (behind_length kvs).
    rewrite string_app_empty.
    cbn [assign_all].
    destruct (match_rule_keys_assign afs keys k v) as [[| |] keys']; try done.
    apply IH; [done|]. lia.
Qed.

(** X5. On a rule string of assignments [key='value'] separated by commas,
    with keys free of white space and equal signs and values free of
    apostrophes, [match_rule_keys_parse] does what the assignments do when
    [match_rule_keys_assign] makes them one after the other on the keys with
    the type and the numeric sender and destination reset: the result and the
    keys are those at the first assignment that is refused, or 0 and the keys
    behind the last. Commas and backslashes between the quotes belong to the
    value. *)
Theorem match_rule_keys_parse_rendered (keys : MatchRuleKeys)
    (kvs : list (string * string)) :
  forallb assignment_ok kvs = true ->
  match_rule_keys_parse afs keys (String.length (render kvs) + 1) (render kvs)
  = assign_all afs
      (set_k_filter
         (set_f_sender ADDRESS_ID_INVALID
            (set_f_destination ADDRESS_ID_INVALID
               (set_f_type DBUS_MESSAGE_TYPE_INVALID (k_filter keys)))) keys)
      kvs.
Proof.
  intros Hok. unfold match_rule_keys_parse.
  apply match_rule_keys_parse_loop_rendered; [done|lia].
Qed.

End ParseRendered.

(** The rule string ["type='signal',path='/a,b\c'"]: the path of the rule
    is ["/a,b\c"]. *)
Lemma match_rule_keys_parse_rendered_witness :
  render [("type", "signal"); ("path", "/a,b\c")] = "type='signal',path='/a,b\c'"
  /\ Reference.keys_of "type='signal',path='/a,b\c'"
     = assign_all Reference.parse_address
         (set_k_filter
            (set_f_sender ADDRESS_ID_INVALID
               (set_f_destination ADDRESS_ID_INVALID
                  (set_f_type DBUS_MESSAGE_TYPE_INVALID
                     (k_filter MatchRuleKeys_zero)))) MatchRuleKeys_zero)
         [("type", "signal"); ("path", "/a,b\c")]
  /\ f_path (k_filter (snd (Reference.keys_of "type='signal',path='/a,b\c'")))
     = Some "/a,b\c".
Proof.
  split; [reflexivity|]. split.
  - apply (match_rule_keys_parse_rendered Reference.parse_address
             MatchRuleKeys_zero [("type", "signal"); ("path", "/a,b\c")]).
    reflexivity.
  - vm_compute. reflexivity.
Defined.

(** ** The walk over a registry *)

Lemma find_first_split {A} (f : A -> bool) (l : list A) (a : A) :
  List.find f l = Some a ->
  exists l1 l2, l = (l1 ++ a :: l2)%list /\ List.filter f l1 = [] /\ f a = true.
Proof.
  induction l as [|x l IH]; simpl; [discriminate|].
  destruct (f x) eqn:Hx.
  - intros [= <-]. by exists [], l.
  - intros Hf. destruct (IH Hf) as (l1 & l2 & -> & Hl1 & Ha).
    exists (x :: l1), l2. simpl. by rewrite Hx.
Qed.

Lemma find_none_filter {A} (f : A -> bool) (l : list A) :
  List.find f l = None -> List.filter f l = [].
Proof.
  induction l as [|x l IH]; simpl; [done|].
  destruct (f x); [discriminate|]. exact IH.
Qed.

Lemma matches_from_walk rules reg flt :
  registry_wf rules reg ->
  forall fuel l cursor,
    match_rule_next_match rules reg cursor flt = Some (first_match rules flt l) ->
    (exists pre,
       walk reg (negb (f_destination flt =? ADDRESS_ID_INVALID))
       = (pre ++ l)%list) ->
    (length l <= fuel)%nat ->
    matches_from fuel rules reg cursor flt
    = Some (List.filter (rule_matches rules flt) l).
Proof.
  intros Hwf. induction fuel as [|fuel IH]; intros l cursor Hnext [pre Hwalk] Hfuel.
  - destruct l; [|simpl in Hfuel; lia]. simpl. by rewrite Hnext.
  - simpl. rewrite Hnext.
    destruct (first_match rules flt l) as [a|] eqn:Hfirst.
    + apply find_first_split in Hfirst as (l1 & l2 & -> & Hl1 & Ha).
      rewrite List.filter_app, Hl1. simpl. rewrite Ha.
      rewrite (IH l2 (Some a)); [done| | |].
      * apply (match_rule_next_match_step rules reg flt (pre ++ l1)%list a l2 Hwf).
        by rewrite Hwalk, <- app_assoc.
      * exists (pre ++ l1 ++ [a])%list. rewrite Hwalk, <- !app_assoc. done.
      * rewrite length_app in Hfuel. simpl in Hfuel. lia.
    + by rewrite (find_none_filter _ _ Hfirst).
Qed.

(** X6. On a well-formed registry the loop over [match_rule_next_match]
    ends and yields, each once and in this order, the rules of the eavesdrop
    list that accept the filter and then those of the rule list; for a filter
    with a destination it yields those of the eavesdrop list only. The
    monitor list is not walked. *)
Theorem match_rule_next_match_enumerates (rules : gmap nat MatchRule)
    (reg : MatchRegistry) (flt : MatchFilter) :
  registry_wf rules reg ->
  all_matches rules reg flt
  = Some (List.filter (rule_matches rules flt)
            (eavesdrop_list reg
             ++ (if f_destination flt =? ADDRESS_ID_INVALID then rule_list reg
                 else []))%list).
Proof.
  intros Hwf. unfold all_matches.
  rewrite (matches_from_walk rules reg flt Hwf (registry_size reg)
             (walk reg (negb (f_destination flt =? ADDRESS_ID_INVALID))) None).
  - unfold walk. by destruct (f_destination flt =? ADDRESS_ID_INVALID).
  - by apply match_rule_next_match_first.
  - by exists [].
  - apply walk_length.
Qed.

(** Peer 4 and peer 2 eavesdrop on the wildcard registry: a call from
    peer 1 to peer 2 is yielded for both rules. *)
Lemma match_rule_next_match_enumerates_witness :
  all_matches (st_rules Reference.two_eavesdroppers)
    (registry_at Reference.two_eavesdroppers REG_WILDCARD)
    (fallback_filter 1 (Some 2) Reference.method_call)
  = Some [0%nat; 1%nat].
Proof.
  rewrite (match_rule_next_match_enumerates
             (st_rules Reference.two_eavesdroppers)
             (registry_at Reference.two_eavesdroppers REG_WILDCARD)
             (fallback_filter 1 (Some 2) Reference.method_call)).
  - vm_compute. reflexivity.
  - split; [|split].
    + apply (bool_decide_unpack _). vm_compute. exact I.
    + intros a Ha. vm_compute in Ha.
      apply elem_of_cons in Ha as [->|Ha];
        [eexists; split; vm_compute; reflexivity|].
      apply elem_of_cons in Ha as [->|Ha];
        [eexists; split; vm_compute; reflexivity|].
      by apply elem_of_nil in Ha.
    + intros a Ha. vm_compute in Ha. by apply elem_of_nil in Ha.
Defined.

(** ** Running the monad forwards *)

Section MonadRun.

Context {W : Type} `{Collaborators W}.

Lemma run_ret {A B} (x : A) (k : A -> M W B) st : bind (ret x) k st = k x st.
Proof. reflexivity. Qed.

Lemma run_bind {A B C} (m : M W A) (k : A -> M W B) (k' : B -> M W C) st :
  bind (bind m k) k' st = bind m (fun x => bind (k x) k') st.
Proof. unfold bind. by destruct (m st) as [[x s]|]. Qed.

Lemma run_get {B} (k : State W -> M W B) st : bind get k st = k st st.
Proof. reflexivity. Qed.

Lemma run_modify {B} f (k : unit -> M W B) st :
  bind (modify f) k st = k tt (f st).
Proof. reflexivity. Qed.

Lemma run_assert {B} (k : unit -> M W B) st : bind (assert true) k st = k tt st.
Proof. reflexivity. Qed.

Lemma run_load_rule {B} a r (k : MatchRule -> M W B) st :
  st_rules st !! a = Some r -> bind (load_rule a) k st = k r st.
Proof. intros Ha. unfold bind, load_rule. by rewrite Ha. Qed.

Lemma run_store_rule {B} a r (k : unit -> M W B) st :
  bind (store_rule a r) k st = k tt (set_st_rules (<[a := r]> (st_rules st)) st).
Proof. reflexivity. Qed.

Lemma run_log_event {B} e (k : unit -> M W B) st :
  bind (log_event e) k st = k tt (set_st_log (st_log st ++ [e]) st).
Proof. reflexivity. Qed.

Lemma run_do_user_charge {B} user slot amount r w (k : retcode -> M W B) st :
  user_charge (st_world st) user slot amount = (r, w) ->
  bind (do_user_charge user slot amount) k st
  = k r (set_st_world w
           (set_st_log (st_log st ++ [EV_user_charge user slot amount]) st)).
Proof.
  intros Hc. unfold do_user_charge, bind, log_event, modify. st_simpl.
  by rewrite Hc.
Qed.

Lemma run_do_user_charge_deinit_Some {B} c (k : unit -> M W B) st :
  bind (do_user_charge_deinit (Some c)) k st
  = k tt (set_st_world (user_charge_deinit (st_world st) c)
            (set_st_log (st_log st ++ [EV_user_charge_deinit c]) st)).
Proof. reflexivity. Qed.

Lemma run_do_user_charge_deinit_None {B} (k : unit -> M W B) st :
  bind (do_user_charge_deinit None) k st = k tt st.
Proof. reflexivity. Qed.

Lemma run_do_user_charge_deinit {B} c (k : unit -> M W B) (st : State W) :
  bind (do_user_charge_deinit c) k st
  = k tt (set_st_world (released_world (st_world st) c)
            (set_st_log (released_log (st_log st) c) st)).
Proof. destruct c; [reflexivity|]. by destruct st. Qed.

Lemma run_do_world {B} e f r w (k : retcode -> M W B) st :
  f (st_world st) = (r, w) ->
  bind (do_world e f) k st
  = k r (set_st_world w (set_st_log (st_log st ++ [e]) st)).
Proof.
  intros Hc. unfold do_world, bind, log_event, modify. st_simpl. by rewrite Hc.
Qed.

Lemma run_do_world_ {B} e f (k : unit -> M W B) st :
  bind (do_world_ e f) k st
  = k tt (set_st_world (f (st_world st))
            (set_st_log (st_log st ++ [e]) st)).
Proof. reflexivity. Qed.

End MonadRun.

Ltac rule_simpl :=
  cbn [r_keys r_owner r_registry r_n_user_refs r_charge0 r_charge1
       MATCH_RULE_NULL set_r_keys set_r_registry set_r_n_user_refs
       set_r_charge0 set_r_charge1] in *.

Ltac mrun :=
  repeat first
    [ rewrite run_bind
    | rewrite run_ret
    | rewrite run_get
    | rewrite run_modify
    | rewrite run_assert
    | rewrite run_store_rule
    | rewrite run_log_event
    | rewrite run_do_user_charge_deinit_Some
    | rewrite run_do_user_charge_deinit_None
    | rewrite run_do_world_
    | erewrite run_load_rule
        by (st_simpl; first [eassumption | apply lookup_insert_eq])
    | erewrite run_do_user_charge by (st_simpl; eassumption)
    | erewrite run_do_world by (st_simpl; eassumption)
    | progress st_simpl
    | progress rule_simpl ].

(** ** Linking and references of a rule *)

Lemma list_remove_snoc (a : nat) (l : list nat) :
  a ∉ l -> list_remove a (l ++ [a]) = l.
Proof.
  unfold list_remove. intros Hnin. rewrite List.filter_app. simpl.
  rewrite Nat.eqb_refl. simpl. rewrite app_nil_r.
  induction l as [|x l IH]; simpl; [done|].
  apply not_elem_of_cons in Hnin as [Hne Hnin].
  destruct (Nat.eqb_spec x a); [congruence|]. simpl. by rewrite IH.
Qed.

Lemma list_remove_not_in (a : nat) (l : list nat) :
  a ∉ l -> list_remove a l = l.
Proof.
  unfold list_remove. induction l as [|x l IH]; simpl; [done|].
  intros Hnin. apply not_elem_of_cons in Hnin as [Hne Hnin].
  destruct (Nat.eqb_spec x a); [congruence|]. simpl. by rewrite IH.
Qed.

Section LinkRoundTrip.

Context {W : Type} `{Collaborators W}.

(** X7. [match_rule_link] of an unlinked rule and [match_rule_unlink]
    behind it give back the rules and every registry as they were. In
    between, linking the rule to the same registry again does nothing and
    linking it to another one fails the assertion; behind, a second
    [match_rule_unlink] does nothing. *)
Theorem match_rule_link_unlink (a : nat) (ref : RegistryRef) (monitor : bool)
    (st : State W) (r : MatchRule) :
  st_rules st !! a = Some r ->
  r_registry r = None ->
  (a ∉ rule_list (registry_at st ref)) ->
  (a ∉ eavesdrop_list (registry_at st ref)) ->
  (a ∉ monitor_list (registry_at st ref)) ->
  exists st1 st2,
    match_rule_link a ref monitor st = Some (tt, st1)
    /\ (forall monitor', match_rule_link a ref monitor' st1 = Some (tt, st1))
    /\ (forall ref' monitor', ref' <> ref ->
          match_rule_link a ref' monitor' st1 = None)
    /\ match_rule_unlink a st1 = Some (tt, st2)
    /\ st_rules st2 = st_rules st
    /\ (forall ref', registry_at st2 ref' = registry_at st ref')
    /\ st_owners st2 = st_owners st /\ st_peers st2 = st_peers st
    /\ st_world st2 = st_world st /\ st_log st2 = st_log st
    /\ match_rule_unlink a st2 = Some (tt, st2).
Proof.
  intros Ha Hreg Hr He Hm.
  destruct (match_rule_link_unlinked a ref monitor st r Ha Hreg)
    as (st1 & Hlink & _ & Hrules1 & Howners1 & Hpeers1 & Hworld1 & Hlog1 & Hother1).
  assert (st_rules st1 !! a = Some (set_r_registry (Some ref) r)) as Ha1
    by (rewrite Hrules1; apply lookup_insert_eq).
  exists st1. eexists. split; [exact Hlink|]. split; [|split; [|split]].
  - intros monitor'. unfold match_rule_link, bind, load_rule. rewrite Ha1.
    cbn [r_registry set_r_registry]. rewrite bool_decide_eq_true_2 by eauto.
    unfold assert. by rewrite bool_decide_eq_true_2.
  - intros ref' monitor' Hne. unfold match_rule_link, bind, load_rule.
    rewrite Ha1. cbn [r_registry set_r_registry].
    rewrite bool_decide_eq_true_2 by eauto.
    unfold assert. rewrite bool_decide_eq_false_2; [done|]. congruence.
  - rewrite (match_rule_unlink_spec a st1 _ Ha1). reflexivity.
  - cbn [r_registry set_r_registry]. st_simpl.
    assert (registry_at st1 ref
            = if monitor then
                mkMatchRegistry (rule_list (registry_at st ref))
                  (eavesdrop_list (registry_at st ref))
                  (monitor_list (registry_at st ref) ++ [a])
              else if k_eavesdrop (r_keys r) then
                mkMatchRegistry (rule_list (registry_at st ref))
                  (eavesdrop_list (registry_at st ref) ++ [a])
                  (monitor_list (registry_at st ref))
              else
                mkMatchRegistry (rule_list (registry_at st ref) ++ [a])
                  (eavesdrop_list (registry_at st ref))
                  (monitor_list (registry_at st ref))) as Hreg1.
    { revert Hlink. unfold match_rule_link, bind, load_rule. rewrite Ha, Hreg.
      rewrite bool_decide_eq_false_2 by (intros [? ?]; discriminate).
      unfold store_rule, modify. intros [= <-]. unfold registry_at at 1. st_simpl.
      by rewrite lookup_insert_eq. }
    assert (unlinked_registry a (registry_at st1 ref) = registry_at st ref)
      as Hback.
    { rewrite Hreg1. unfold unlinked_registry.
      destruct monitor; [|destruct (k_eavesdrop (r_keys r))];
        cbn [rule_list eavesdrop_list monitor_list];
        rewrite ?list_remove_snoc, ?list_remove_not_in by done;
        by destruct (registry_at st ref). }
    split.
    { rewrite Hrules1, insert_insert_eq.
      replace (set_r_registry None (set_r_registry (Some ref) r)) with r
        by (destruct r; cbn in *; by subst).
      by apply insert_id. }
    split.
    { intros ref'. unfold registry_at at 1. st_simpl.
      destruct (decide (ref' = ref)) as [->|Hne].
      - rewrite lookup_insert_eq. exact Hback.
      - rewrite lookup_insert_ne by done. apply (Hother1 ref' Hne). }
    repeat split; try done.
    unfold match_rule_unlink, bind, load_rule. st_simpl.
    by rewrite lookup_insert_eq.
Qed.

(** X8. For a rule with a reference count between 1 and [SIZE_MAX - 1],
    [match_rule_user_ref] and [match_rule_user_unref] behind it give back
    the state as it was. At [SIZE_MAX] the increment wraps to 0 and the
    decrement behind it fails its assertion; at 0 both fail theirs. On
    [NULL] both do nothing. *)
Theorem match_rule_user_ref_unref (a : nat) (st : State W) (r : MatchRule) :
  st_rules st !! a = Some r ->
  (0 < r_n_user_refs r < SIZE_MAX ->
   (match_rule_user_ref (Some a) >> match_rule_user_unref (Some a)) st
   = Some (tt, st))
  /\ (r_n_user_refs r = SIZE_MAX ->
      (exists st1, match_rule_user_ref (Some a) st = Some (Some a, st1)
                   /\ (r_n_user_refs <$> st_rules st1 !! a) = Some 0)
      /\ (match_rule_user_ref (Some a) >> match_rule_user_unref (Some a)) st
         = None)
  /\ (r_n_user_refs r = 0 ->
      match_rule_user_ref (Some a) st = None
      /\ match_rule_user_unref (Some a) st = None)
  /\ match_rule_user_ref None st = Some (None, st)
  /\ match_rule_user_unref None st = Some (tt, st).
Proof.
  intros Ha. split; [|split; [|split; [|done]]].
  - intros Hrefs. unfold bind at 1.
    rewrite (match_rule_user_ref_spec a st r Ha) by lia.
    unfold match_rule_user_unref, bind, load_rule. st_simpl.
    rewrite lookup_insert_eq. unfold incr_user_refs.
    cbn [r_n_user_refs set_r_n_user_refs].
    rewrite Z.mod_small by (unfold SIZE_MAX in *; lia).
    unfold assert. destruct (Z.gtb_spec (r_n_user_refs r + 1) 0); [|lia].
    unfold store_rule, modify. st_simpl.
    destruct (Z.eqb_spec (r_n_user_refs r + 1 - 1) 0); [lia|].
    unfold ret. rewrite insert_insert_eq.
    replace (set_r_n_user_refs (r_n_user_refs r + 1 - 1) _) with r.
    + rewrite insert_id by done. by destruct st.
    + destruct r as [k o g refs c0 c1]. unfold set_r_n_user_refs.
      cbn [r_keys r_owner r_registry r_n_user_refs r_charge0 r_charge1].
      f_equal. lia.
  - intros Hrefs.
    pose proof (match_rule_user_ref_spec a st r Ha) as Href.
    rewrite Href by (unfold SIZE_MAX in *; lia). split.
    + eexists. split; [reflexivity|]. st_simpl. rewrite lookup_insert_eq.
      unfold incr_user_refs. cbn. rewrite Hrefs.
      by rewrite Z.mod_same by (unfold SIZE_MAX; lia).
    + unfold bind at 1. rewrite Href by (unfold SIZE_MAX in *; lia).
      unfold match_rule_user_unref, bind, load_rule. st_simpl.
      rewrite lookup_insert_eq. unfold incr_user_refs.
      cbn [r_n_user_refs set_r_n_user_refs].
      rewrite Hrefs. rewrite Z.mod_same by (unfold SIZE_MAX; lia). done.
  - intros Hrefs. unfold match_rule_user_ref, match_rule_user_unref, bind, load_rule.
    rewrite Ha. unfold assert. by rewrite Hrefs.
Qed.

End LinkRoundTrip.

(** The rule ["type='signal'"] of peer 1 is linked to the wildcards and
    unlinked again. *)
Lemma match_rule_link_unlink_witness :
  exists st1 st2,
    match_rule_link 0%nat REG_WILDCARD false Reference.one_rule = Some (tt, st1)
    /\ match_rule_link 0%nat (REG_PEER 2) false st1 = None
    /\ match_rule_unlink 0%nat st1 = Some (tt, st2)
    /\ st_rules st2 = st_rules Reference.one_rule
    /\ registry_at st2 REG_WILDCARD = registry_at Reference.one_rule REG_WILDCARD.
Proof.
  edestruct (match_rule_link_unlink (W := Reference.World) 0%nat REG_WILDCARD
               false Reference.one_rule)
    as (st1 & st2 & Hlink & _ & Hother & Hunlink & Hrules & Hregs & _);
    [vm_compute; reflexivity | reflexivity | | | |].
  - intros Hin. vm_compute in Hin. by apply elem_of_nil in Hin.
  - intros Hin. vm_compute in Hin. by apply elem_of_nil in Hin.
  - intros Hin. vm_compute in Hin. by apply elem_of_nil in Hin.
  - exists st1, st2. split; [done|]. split; [by apply Hother|].
    split; [done|]. split; [done|]. apply Hregs.
Defined.

(** The rule ["type='signal'"] of peer 1 has one reference. *)
Lemma match_rule_user_ref_unref_witness :
  (match_rule_user_ref (Some 0%nat) >> match_rule_user_unref (Some 0%nat))
    Reference.one_rule
  = Some (tt, Reference.one_rule).
Proof.
  edestruct (match_rule_user_ref_unref (W := Reference.World) 0%nat
               Reference.one_rule) as [Hround _];
    [vm_compute; reflexivity|].
  apply Hround. vm_compute. split; reflexivity.
Defined.

(** ** A new rule and its charges *)

Section NewRule.

Context {W : Type} `{Collaborators W}.

Lemma match_rule_new_run (owner user n : Z) (st : State W) :
  let a := st_brk st in
  let amount := sizeof_MatchRule + n in
  let c0 := mkUserCharge user USER_SLOT_BYTES amount in
  let c1 := mkUserCharge user USER_SLOT_MATCHES 1 in
  let '(r0, w0) := user_charge (st_world st) user USER_SLOT_BYTES amount in
  let '(r1, w1) := user_charge w0 user USER_SLOT_MATCHES 1 in
  let owners' :=
    <[owner := mkMatchOwner
                 (c_rbtree_remove_init (rule_tree (owner_at st owner)) a)]>
      (st_owners st) in
  match_rule_new owner user n st
  = if negb (calloc (st_world st) amount) then
      Some ((R_NEG ENOMEM, None), st)
    else if c_truthy r0 then
      Some ((match_rule_new_error r0, None),
            mkState (st_rules st) owners' (st_registries st) (st_peers st)
              (st_transaction_ids st) w0
              (st_log st ++ [EV_user_charge user USER_SLOT_BYTES amount]))
    else if c_truthy r1 then
      Some ((match_rule_new_error r1, None),
            mkState (st_rules st) owners' (st_registries st) (st_peers st)
              (st_transaction_ids st) (user_charge_deinit w1 c0)
              (st_log st ++ [EV_user_charge user USER_SLOT_BYTES amount;
                             EV_user_charge user USER_SLOT_MATCHES 1;
                             EV_user_charge_deinit c0]))
    else
      Some ((R_OK, Some a),
            mkState
              (<[a := mkMatchRule MatchRuleKeys_zero owner None 0 (Some c0)
                        (Some c1)]> (st_rules st))
              (st_owners st) (st_registries st) (st_peers st)
              (st_transaction_ids st) w1
              (st_log st ++ [EV_user_charge user USER_SLOT_BYTES amount;
                             EV_user_charge user USER_SLOT_MATCHES 1])).
Proof.
  intros a amount c0 c1.
  destruct (user_charge (st_world st) user USER_SLOT_BYTES amount)
    as [r0 w0] eqn:H0.
  destruct (user_charge w0 user USER_SLOT_MATCHES 1) as [r1 w1] eqn:H1.
  assert (st_rules st !! a = None) as Hnone by apply not_elem_of_dom, is_fresh.
  unfold match_rule_new, match_rule_new_error. rewrite run_get.
  fold a amount. destruct (calloc (st_world st) amount); cbn [negb]; [|done].
  mrun. fold a amount.
  destruct (c_truthy r0) eqn:Hr0.
  - mrun. rewrite Hr0. unfold match_rule_free. mrun.
    change (0 =? 0) with true. mrun. unfold match_rule_unlink. mrun.
    unfold ret, owner_at. st_simpl.
    rewrite delete_insert_eq, delete_id by done. reflexivity.
  - mrun. fold c0. destruct (c_truthy r1) eqn:Hr1.
    + mrun. rewrite Hr1. unfold match_rule_free. mrun.
      change (0 =? 0) with true. mrun. unfold match_rule_unlink. mrun.
      unfold ret, owner_at. st_simpl.
      rewrite !insert_insert_eq, delete_insert_eq, delete_id by done.
      rewrite <- !app_assoc. reflexivity.
    + mrun. rewrite Hr1. unfold ret. rewrite !insert_insert_eq.
      rewrite <- !app_assoc. reflexivity.
Qed.

Lemma match_rule_new_error_codes r :
  c_truthy r = true ->
  match_rule_new_error r = R_E MATCH_E_QUOTA
  \/ exists e, match_rule_new_error r = R_NEG e.
Proof.
  unfold match_rule_new_error. case_bool_decide; [by left|].
  destruct r; [done| |]; simpl; eauto.
Qed.

(** X9. [match_rule_new] always returns, and the registries and the peers
    stay as they are. When [calloc] fails it returns [-ENOMEM] and has done
    nothing. Otherwise it charges the bytes of the rule and then one match
    to the user. With a rule returned, the result is 0, the rule is new in
    the heap, unlinked, of the owner, with no reference and the two charges,
    and the log ends with the two charges. Without one, the result is
    [MATCH_E_QUOTA] or negative, the heap is as before, and a charge that was
    made is given back: the log ends with the charge of the bytes, which
    failed, or with the two charges and the release of the bytes. *)
Theorem match_rule_new_outcome (owner user n : Z) (st : State W) :
  let amount := sizeof_MatchRule + n in
  let c0 := mkUserCharge user USER_SLOT_BYTES amount in
  let c1 := mkUserCharge user USER_SLOT_MATCHES 1 in
  let r0 := fst (user_charge (st_world st) user USER_SLOT_BYTES amount) in
  exists r o st',
    match_rule_new owner user n st = Some ((r, o), st')
    /\ st_registries st' = st_registries st /\ st_peers st' = st_peers st
    /\ match o with
       | Some a =>
           r = R_OK /\ st_rules st !! a = None
           /\ calloc (st_world st) amount = true /\ r0 = R_OK
           /\ st_rules st'
              = <[a := mkMatchRule MatchRuleKeys_zero owner None 0 (Some c0)
                         (Some c1)]> (st_rules st)
           /\ st_owners st' = st_owners st
           /\ st_log st'
              = (st_log st ++ [EV_user_charge user USER_SLOT_BYTES amount;
                               EV_user_charge user USER_SLOT_MATCHES 1])%list
       | None =>
           (r = R_E MATCH_E_QUOTA \/ exists e, r = R_NEG e)
           /\ st_rules st' = st_rules st
           /\ (calloc (st_world st) amount = false
               /\ r = R_NEG ENOMEM /\ st' = st
               \/ calloc (st_world st) amount = true /\ r0 <> R_OK
                  /\ st_log st'
                     = (st_log st
                        ++ [EV_user_charge user USER_SLOT_BYTES amount])%list
               \/ calloc (st_world st) amount = true /\ r0 = R_OK
                  /\ st_log st'
                     = (st_log st
                        ++ [EV_user_charge user USER_SLOT_BYTES amount;
                            EV_user_charge user USER_SLOT_MATCHES 1;
                            EV_user_charge_deinit c0])%list)
       end.
Proof.
  cbv zeta.
  pose proof (match_rule_new_run owner user n st) as Hrun. cbv zeta in Hrun.
  destruct (user_charge (st_world st) user USER_SLOT_BYTES _) as [r0 w0].
  destruct (user_charge w0 user USER_SLOT_MATCHES 1) as [r1 w1].
  rewrite Hrun. clear Hrun. cbn [fst].
  destruct (calloc (st_world st) _) eqn:Hcalloc; cbn [negb].
  2: { do 3 eexists. split; [reflexivity|]. split; [done|]. split; [done|].
       split; [eauto|]. split; [done|]. left. done. }
  destruct (c_truthy r0) eqn:Hr0; [|destruct (c_truthy r1) eqn:Hr1].
  - do 3 eexists. split; [reflexivity|]. st_simpl.
    split; [done|]. split; [done|].
    split; [by apply match_rule_new_error_codes|]. split; [done|].
    right; left. split; [done|]. split; [by intros ->|]. done.
  - apply c_truthy_false in Hr0 as ->.
    do 3 eexists. split; [reflexivity|]. st_simpl.
    split; [done|]. split; [done|].
    split; [by apply match_rule_new_error_codes|]. split; [done|].
    right; right. done.
  - apply c_truthy_false in Hr0 as ->.
    do 3 eexists. split; [reflexivity|]. st_simpl.
    split; [done|]. split; [done|]. split; [done|].
    split; [apply not_elem_of_dom, is_fresh|]. done.
Qed.

(** ** Adding a rule that is refused *)

Lemma match_rule_free_run a (st : State W) r :
  st_rules st !! a = Some r -> r_n_user_refs r = 0 ->
  match_rule_free (Some a) st
  = Some (tt, freed_state a r
                (released_world (released_world (st_world st) (r_charge1 r))
                   (r_charge0 r))
                (released_log (released_log (st_log st) (r_charge1 r))
                   (r_charge0 r)) st).
Proof.
  intros Ha Hrefs. unfold match_rule_free.
  erewrite run_load_rule by eassumption. rewrite Hrefs.
  change (0 =? 0) with true. rewrite run_assert.
  rewrite !run_do_user_charge_deinit. st_simpl. rewrite run_modify. st_simpl.
  unfold bind at 1.
  erewrite match_rule_unlink_spec by (st_simpl; exact Ha).
  unfold modify, freed_state, owner_at, registry_at. st_simpl.
  destruct (r_registry r); st_simpl; f_equal; f_equal.
  by rewrite delete_insert_eq.
Qed.

Lemma match_rule_user_unref_last a (st : State W) r :
  st_rules st !! a = Some r -> r_n_user_refs r = 1 ->
  match_rule_user_unref (Some a) st
  = Some (tt, freed_state a r
                (released_world (released_world (st_world st) (r_charge1 r))
                   (r_charge0 r))
                (released_log (released_log (st_log st) (r_charge1 r))
                   (r_charge0 r)) st).
Proof.
  intros Ha Hrefs. unfold match_rule_user_unref.
  erewrite run_load_rule by eassumption. rewrite Hrefs.
  change (1 >? 0) with true. rewrite run_assert, run_store_rule.
  change (1 - 1 =? 0) with true. cbv iota.
  erewrite match_rule_free_run; [|st_simpl; apply lookup_insert_eq|done].
  unfold freed_state, owner_at, registry_at. st_simpl. rule_simpl.
  rewrite delete_insert_eq.
  destruct (r_registry r); reflexivity.
Qed.


Lemma owner_tree_fresh (st : State W) owner :
  (forall x, x ∈ rule_tree (owner_at st owner) -> is_Some (st_rules st !! x)) ->
  c_rbtree_remove_init (rule_tree (owner_at st owner)) (st_brk st)
  = rule_tree (owner_at st owner).
Proof.
  intros Htree. apply c_rbtree_remove_init_not_in. intros Hin.
  apply Htree in Hin as [? Hin].
  assert (st_rules st !! st_brk st = None) as Hnone
    by apply not_elem_of_dom, is_fresh.
  congruence.
Qed.

Lemma owner_at_eq (st : State W) owner v :
  st_owners st !! owner = Some v -> owner_at st owner = v.
Proof. intros Hv. unfold owner_at. by rewrite Hv. Qed.

(** What [match_owner_ref_rule] leaves when it does not return 0. *)
Lemma match_owner_ref_rule_error (owner : Z) (rulep : bool) (user : Z)
    (s : string) (st st' : State W) (r : retcode) (out : option nat) :
  (forall x, x ∈ rule_tree (owner_at st owner) -> is_Some (st_rules st !! x)) ->
  match_owner_ref_rule owner rulep user s st = Some ((r, out), st') ->
  r <> R_OK ->
  out = None
  /\ st_rules st' = st_rules st
  /\ rule_tree (owner_at st' owner) = rule_tree (owner_at st owner)
  /\ st_registries st' = st_registries st
  /\ st_peers st' = st_peers st
  /\ (r = R_E MATCH_E_QUOTA \/ r = R_E MATCH_E_INVALID \/ exists e, r = R_NEG e)
  /\ (r = R_E MATCH_E_INVALID ->
      fst (parsed_keys s) = R_E MATCH_E_INVALID
      /\ let amount := sizeof_MatchRule + Z.of_nat (String.length s + 1) in
         st_log st'
         = (st_log st
            ++ [EV_user_charge user USER_SLOT_BYTES amount;
                EV_user_charge user USER_SLOT_MATCHES 1;
                EV_user_charge_deinit (mkUserCharge user USER_SLOT_MATCHES 1);
                EV_user_charge_deinit
                  (mkUserCharge user USER_SLOT_BYTES amount)])%list).
Proof.
  intros Htree Hrun Hr.
  pose proof (owner_tree_fresh st owner Htree) as Hfresh.
  unfold match_owner_ref_rule in Hrun.
  apply bind_inv in Hrun as ([r0 o] & st1 & Hnew & Hrun).
  pose proof (match_rule_new_run owner user (Z.of_nat (String.length s + 1)) st)
    as Hnew'. cbv zeta in Hnew'.
  destruct (user_charge (st_world st) user USER_SLOT_BYTES _) as [rc0 w0].
  destruct (user_charge w0 user USER_SLOT_MATCHES 1) as [rc1 w1].
  rewrite Hnew' in Hnew. clear Hnew'.
  destruct (calloc (st_world st) _); cbn [negb] in Hnew.
  2: { (* calloc failed: nothing was done *)
       injection Hnew as <- <- <-. apply ret_inv in Hrun as [[= -> ->] ->].
       unfold error_trace. split; [done|]. split; [done|]. split; [done|].
       split; [done|]. split; [done|]. split; [eauto|]. discriminate. }
  destruct (c_truthy rc0) eqn:Hc0; [|destruct (c_truthy rc1) eqn:Hc1].
  - injection Hnew as <- <- <-. apply ret_inv in Hrun as [[= -> ->] ->].
    erewrite (owner_at_eq (mkState _ _ _ _ _ _ _))
      by (st_simpl; apply lookup_insert_eq).
    cbn [rule_tree]. rewrite Hfresh. unfold error_trace in *. st_simpl.
    destruct (match_rule_new_error_codes rc0 Hc0) as [Hq|[e Hq]]; rewrite Hq in *;
      repeat split; eauto; discriminate.
  - injection Hnew as <- <- <-. apply ret_inv in Hrun as [[= -> ->] ->].
    erewrite (owner_at_eq (mkState _ _ _ _ _ _ _))
      by (st_simpl; apply lookup_insert_eq).
    cbn [rule_tree]. rewrite Hfresh. unfold error_trace in *. st_simpl.
    destruct (match_rule_new_error_codes rc1 Hc1) as [Hq|[e Hq]]; rewrite Hq in *;
      repeat split; eauto; discriminate.
  - injection Hnew as <- <- <-.
    erewrite run_load_rule in Hrun by (st_simpl; apply lookup_insert_eq).
    rule_simpl. fold (parsed_keys s) in Hrun.
    pose proof (match_rule_keys_parse_codes address_from_string
                  MatchRuleKeys_zero s) as Hcodes.
    fold (parsed_keys s) in Hcodes.
    destruct (parsed_keys s) as [rp keys] eqn:Hparse. cbn [fst] in Hcodes.
    rewrite run_store_rule in Hrun. st_simpl. rewrite insert_insert_eq in Hrun.
    destruct Hcodes as [-> | ->]; cbn [c_truthy] in Hrun.
    + (* the parser accepted the string: the call returns 0 *)
      exfalso. rewrite run_get in Hrun.
      destruct (c_rbtree_find_slot _ _ _).
      * apply bind_inv in Hrun as (? & ? & _ & Hrun).
        apply bind_inv in Hrun as (? & ? & _ & Hrun).
        apply ret_inv in Hrun as [[= -> _] _]. done.
      * rewrite run_modify in Hrun. apply ret_inv in Hrun as [[= -> _] _]. done.
    + unfold bind in Hrun at 1.
      erewrite match_rule_user_unref_last in Hrun;
        [|st_simpl; apply lookup_insert_eq|done].
      apply ret_inv in Hrun as [[= -> ->] ->].
      unfold freed_state. rule_simpl. st_simpl.
      rewrite delete_insert_eq, delete_id
        by apply not_elem_of_dom, is_fresh.
      erewrite (owner_at_eq (mkState _ _ _ _ _ _ _))
        by (st_simpl; apply lookup_insert_eq).
      cbn [rule_tree].
      replace (owner_at (set_st_rules _ _) owner) with (owner_at st owner)
        by reflexivity.
      rewrite Hfresh. unfold error_trace. repeat split; eauto.
      cbn [released_log]. by rewrite <- !app_assoc.
Qed.

(** X10. When [match_owner_ref_rule] does not return 0, for an owner whose
    tree holds live rules only, nothing is stored to [*rulep], and the rules,
    the tree of the owner, the registries and the peers are as before. The
    result is [MATCH_E_QUOTA], [MATCH_E_INVALID] or negative. It is
    [MATCH_E_INVALID] only when the rule string does not parse, and then the
    two charges of the new rule were made and given back, the matches
    first. *)
Theorem match_owner_ref_rule_failure (owner : Z) (rulep : bool) (user : Z)
    (s : string) (st st' : State W) (r : retcode) (out : option nat) :
  (forall x, x ∈ rule_tree (owner_at st owner) -> is_Some (st_rules st !! x)) ->
  match_owner_ref_rule owner rulep user s st = Some ((r, out), st') ->
  r <> R_OK ->
  out = None
  /\ st_rules st' = st_rules st
  /\ rule_tree (owner_at st' owner) = rule_tree (owner_at st owner)
  /\ st_registries st' = st_registries st
  /\ st_peers st' = st_peers st
  /\ (r = R_E MATCH_E_QUOTA \/ r = R_E MATCH_E_INVALID \/ exists e, r = R_NEG e)
  /\ (r = R_E MATCH_E_INVALID ->
      fst (parsed_keys s) = R_E MATCH_E_INVALID
      /\ st_log st'
         = (st_log st
            ++ [EV_user_charge user USER_SLOT_BYTES
                  (sizeof_MatchRule + Z.of_nat (String.length s + 1));
                EV_user_charge user USER_SLOT_MATCHES 1;
                EV_user_charge_deinit (mkUserCharge user USER_SLOT_MATCHES 1);
                EV_user_charge_deinit
                  (mkUserCharge user USER_SLOT_BYTES
                     (sizeof_MatchRule
                      + Z.of_nat (String.length s + 1)))])%list).
Proof. apply match_owner_ref_rule_error. Qed.

End NewRule.


(** Peer 1 adds the rule ["type='bogus'"] to the bus without rules, and
    the rule ["type='signal'"] a second time with a limit of one match. *)
Lemma match_owner_ref_rule_failure_witness :
  (exists st',
     match_owner_ref_rule 1 true 1000 "type='bogus'" Scenario.empty_bus
     = Some ((R_E MATCH_E_INVALID, None), st')
     /\ st_rules st' = st_rules Scenario.empty_bus
     /\ rule_tree (owner_at st' 1) = CRB_NULL
     /\ Reference.matches_used (st_world st') = 0)
  /\ (exists st',
        match_owner_ref_rule 1 true 1000 "member='Changed'"
          Reference.one_rule_at_quota
        = Some ((R_E MATCH_E_QUOTA, None), st')
        /\ st_rules st' = st_rules Reference.one_rule_at_quota
        /\ rule_tree (owner_at st' 1) = CRB_Node CRB_NULL 0%nat CRB_NULL).
Proof.
  split.
  - eexists. split; [vm_compute; reflexivity|].
    edestruct (match_owner_ref_rule_failure (W := Reference.World) 1 true 1000
                 "type='bogus'" Scenario.empty_bus)
      as (_ & Hrules & Htree & _);
      [ | vm_compute; reflexivity | discriminate |].
    + intros x Hx. vm_compute in Hx. by apply elem_of_nil in Hx.
    + split; [exact Hrules|]. split; [exact Htree|]. vm_compute. reflexivity.
  - eexists. split; [vm_compute; reflexivity|].
    edestruct (match_owner_ref_rule_failure (W := Reference.World) 1 true 1000
                 "member='Changed'" Reference.one_rule_at_quota)
      as (_ & Hrules & Htree & _);
      [ | vm_compute; reflexivity | discriminate |].
    + intros x Hx. vm_compute in Hx. apply list_elem_of_singleton in Hx as ->.
      eexists. vm_compute. reflexivity.
    + split; [exact Hrules|]. rewrite Htree. vm_compute. reflexivity.
Defined.

(** ** Looking a rule up *)

Lemma match_rules_compare_args_ext n i f1 f1' f2 :
  map (arr_get (f_args f1)) (seq i n) = map (arr_get (f_args f1')) (seq i n) ->
  map (arr_get (f_argpaths f1)) (seq i n)
  = map (arr_get (f_argpaths f1')) (seq i n) ->
  match_rules_compare_args n i f1 f2 = match_rules_compare_args n i f1' f2.
Proof.
  revert i; induction n as [|n IH]; intros i; simpl; [done|].
  intros [= -> Ha] [= -> Hp]. by rewrite (IH _ Ha Hp).
Qed.

(** [match_rules_compare] looks at the canonical fields only. *)
Lemma match_rules_compare_canonical (k1 k1' k2 : MatchRuleKeys) :
  canonical k1 = canonical k1' ->
  match_rules_compare k1 k2 = match_rules_compare k1' k2.
Proof.
  unfold canonical, match_rules_compare.
  pose proof (match_rules_compare_args_ext N_ARGS 0 (k_filter k1) (k_filter k1')
                (k_filter k2)) as Hext.
  set (a1 := map (arr_get (f_args (k_filter k1))) (seq 0 N_ARGS)) in *.
  set (a2 := map (arr_get (f_args (k_filter k1'))) (seq 0 N_ARGS)) in *.
  set (p1 := map (arr_get (f_argpaths (k_filter k1))) (seq 0 N_ARGS)) in *.
  set (p2 := map (arr_get (f_argpaths (k_filter k1'))) (seq 0 N_ARGS)) in *.
  set (rest := match_rules_compare_args N_ARGS 0 (k_filter k1) (k_filter k2))
    in *.
  set (rest' := match_rules_compare_args N_ARGS 0 (k_filter k1') (k_filter k2))
    in *.
  clearbody a1 a2 p1 p2 rest rest'.
  intros [= -> -> -> -> -> -> -> -> -> -> ->]. by rewrite Hext.
Qed.

Section Lookup.

Context {W : Type} `{Collaborators W}.

(** On an ordered tree the descent ends at the rule that has the keys. *)
Lemma c_rbtree_find_slot_ordered (rules : gmap nat MatchRule)
    (k : MatchRuleKeys) (tree : CRBTree) (a : nat) (ra : MatchRule) :
  c_rbtree_ordered (rule_before rules) tree ->
  a ∈ c_rbtree_entries tree -> rules !! a = Some ra ->
  canonical (r_keys ra) = canonical k ->
  c_rbtree_find_slot (rule_tree_compare rules) k tree = inl a.
Proof.
  intros Hord Hin Ha Hcan. induction tree as [|l IHl x r IHr]; simpl in *.
  { by apply elem_of_nil in Hin. }
  destruct Hord as (Hl & Hr & Hordl & Hordr).
  assert (forall rx, rules !! x = Some rx ->
            rule_tree_compare rules k x
            = match_rules_compare (r_keys ra) (r_keys rx)) as Hcmp.
  { intros rx Hx. unfold rule_tree_compare. rewrite Hx.
    symmetry. by apply match_rules_compare_canonical. }
  apply elem_of_app in Hin as [Hin|Hin];
    [|apply elem_of_cons in Hin as [->|Hin]].
  - (* the rule is to the left *)
    destruct (Hl a Hin) as (ra' & rx & Ha' & Hx & Hlt).
    assert (ra' = ra) as -> by congruence.
    rewrite (Hcmp rx Hx). destruct (Z.ltb_spec (match_rules_compare (r_keys ra)
                                                   (r_keys rx)) 0); [|lia].
    by rewrite IHl.
  - (* the rule is at the node *)
    rewrite (Hcmp ra Ha).
    assert (match_rules_compare (r_keys ra) (r_keys ra) = 0) as ->
      by (by apply match_rules_compare_eq).
    done.
  - (* the rule is to the right *)
    destruct (Hr a Hin) as (rx & ra' & Hx & Ha' & Hlt).
    assert (ra' = ra) as -> by congruence.
    rewrite (Hcmp rx Hx). rewrite (match_rules_compare_opp (r_keys ra)).
    destruct (Z.ltb_spec (- match_rules_compare (r_keys rx) (r_keys ra)) 0);
      [lia|].
    destruct (Z.gtb_spec (- match_rules_compare (r_keys rx) (r_keys ra)) 0);
      [|lia].
    by rewrite IHr.
Qed.

(** On an ordered tree [match_rule_get] returns the rule that has the
    keys. *)
Lemma match_rule_get_found (owner : Z) (s : string) (st : State W) (a : nat)
    (ra : MatchRule) :
  c_rbtree_ordered (rule_before (st_rules st)) (rule_tree (owner_at st owner)) ->
  fst (parsed_keys s) = R_OK ->
  a ∈ rule_tree (owner_at st owner) -> st_rules st !! a = Some ra ->
  canonical (r_keys ra) = canonical (snd (parsed_keys s)) ->
  match_rule_get owner s st = Some ((R_OK, Some a), st).
Proof.
  intros Hord Hparse Hin Ha Hcan.
  pose proof (c_rbtree_find_slot_ordered _ _ _ a ra Hord Hin Ha Hcan) as Hfind.
  unfold match_rule_get. fold (parsed_keys s).
  destruct (parsed_keys s) as [rp keys]. cbn [fst snd] in *. subst rp.
  cbn [c_truthy]. rewrite run_get. unfold c_rbtree_find_node.
  by rewrite Hfind.
Qed.

(** X11. On a tree of the owner that is ordered by the keys which its
    rules have now, the lookups find a rule exactly when the tree holds one
    with the parsed keys. [match_rule_get] returns 0 and that rule, or
    [MATCH_E_NOT_FOUND] when there is none, and leaves the state as it is.
    A [match_owner_ref_rule] that returns 0 has then linked no second rule:
    the tree is as before, the rule in the tree is the one stored to
    [*rulep], and its [n_user_refs] is one more; with [rulep] [NULL] nothing
    has changed in the rules. *)
Theorem rule_tree_lookup_ordered (owner : Z) (s : string) (st : State W) :
  owner_ordered st owner ->
  fst (parsed_keys s) = R_OK ->
  (forall a ra,
     a ∈ rule_tree (owner_at st owner) -> st_rules st !! a = Some ra ->
     canonical (r_keys ra) = canonical (snd (parsed_keys s)) ->
     match_rule_get owner s st = Some ((R_OK, Some a), st)
     /\ forall rulep user out st',
          match_owner_ref_rule owner rulep user s st = Some ((R_OK, out), st') ->
          out = (if rulep then Some a else None)
          /\ rule_tree (owner_at st' owner) = rule_tree (owner_at st owner)
          /\ st_rules st'
             = (if rulep then <[a := incr_user_refs ra]> (st_rules st)
                else st_rules st))
  /\ ((forall a ra,
         a ∈ rule_tree (owner_at st owner) -> st_rules st !! a = Some ra ->
         canonical (r_keys ra) <> canonical (snd (parsed_keys s))) ->
      match_rule_get owner s st = Some ((R_E MATCH_E_NOT_FOUND, None), st)).
Proof.
  intros [Hlive Hord] Hparse. split.
  - intros a ra Hin Ha Hcan.
    pose proof (c_rbtree_find_slot_ordered _ _ _ a ra Hord Hin Ha Hcan) as Hfind.
    split.
    + unfold match_rule_get. fold (parsed_keys s).
      destruct (parsed_keys s) as [rp keys]. cbn [fst snd] in *. subst rp.
      cbn [c_truthy]. rewrite run_get. unfold c_rbtree_find_node.
      by rewrite Hfind.
    + intros rulep user out st' Hrun.
      destruct (match_owner_ref_rule_ok owner st rulep user s out st' Hlive Hrun)
        as [_ Hcase].
      rewrite Hfind in Hcase.
      destruct Hcase as (Htree & Hout & re & Hre & Hrules).
      assert (re = ra) as -> by congruence. done.
  - intros Hnone. unfold match_rule_get. fold (parsed_keys s).
    destruct (parsed_keys s) as [rp keys]. cbn [fst snd] in *. subst rp.
    cbn [c_truthy]. rewrite run_get. unfold c_rbtree_find_node.
    destruct (c_rbtree_find_slot _ _ _) as [a|slot] eqn:Hfind; [|done].
    exfalso. apply c_rbtree_find_slot_found in Hfind as [Hin Hz].
    apply rule_tree_compare_zero in Hz as (ra & Ha & Hcan).
    by apply (Hnone a ra).
Qed.

End Lookup.

(** ** The order of the tree under [match_owner_ref_rule] *)

Lemma c_rbtree_entries_node (l r : CRBTree) (x a : nat) :
  a ∈ c_rbtree_entries (CRB_Node l x r)
  <-> a ∈ c_rbtree_entries l \/ a = x \/ a ∈ c_rbtree_entries r.
Proof. simpl. rewrite elem_of_app, elem_of_cons. tauto. Qed.

(** The entries of a tree with a node linked at the slot that the descent
    has found are those of the tree and the node. *)
Lemma c_rbtree_link_entries {K : Type} (f : K -> nat -> Z) (k : K)
    (tree : CRBTree) (slot : list bool) (a x : nat) :
  c_rbtree_find_slot f k tree = inr slot ->
  x ∈ c_rbtree_entries (c_rbtree_link tree slot a)
  <-> x = a \/ x ∈ c_rbtree_entries tree.
Proof.
  revert slot. induction tree as [|l IHl y r IHr]; intros slot.
  - intros _. simpl. rewrite elem_of_cons. tauto.
  - cbn [c_rbtree_find_slot]. cbv zeta. destruct (f k y <? 0).
    { destruct (c_rbtree_find_slot f k l) as [|slot'] eqn:Hl; [done|].
      intros [= <-]. cbn [c_rbtree_link].
      rewrite !c_rbtree_entries_node, (IHl slot' eq_refl). tauto. }
    destruct (f k y >? 0); [|done].
    destruct (c_rbtree_find_slot f k r) as [|slot'] eqn:Hr; [done|].
    intros [= <-]. cbn [c_rbtree_link].
    rewrite !c_rbtree_entries_node, (IHr slot' eq_refl). tauto.
Qed.

(** The order of two rules rests on their keys only. *)
Lemma rule_before_keys (rules rules' : gmap nat MatchRule) (a b : nat) :
  (r_keys <$> rules !! a) = (r_keys <$> rules' !! a) ->
  (r_keys <$> rules !! b) = (r_keys <$> rules' !! b) ->
  rule_before rules a b -> rule_before rules' a b.
Proof.
  intros Ha Hb (ra & rb & Hra & Hrb & Hlt). rewrite Hra in Ha. rewrite Hrb in Hb.
  destruct (rules' !! a) as [ra'|] eqn:Hra'; [|done].
  destruct (rules' !! b) as [rb'|] eqn:Hrb'; [|done].
  simpl in Ha, Hb. injection Ha as Ha. injection Hb as Hb.
  exists ra', rb'. by rewrite <- Ha, <- Hb.
Qed.

Lemma c_rbtree_ordered_impl (P Q : nat -> nat -> Prop) (tree : CRBTree) :
  (forall a b, a ∈ c_rbtree_entries tree -> b ∈ c_rbtree_entries tree ->
               P a b -> Q a b) ->
  c_rbtree_ordered P tree -> c_rbtree_ordered Q tree.
Proof.
  induction tree as [|l IHl x r IHr]; [done|].
  cbn [c_rbtree_ordered]. intros HPQ (Hl & Hr & Hol & Hor).
  split; [|split; [|split]].
  - intros a Ha.
    apply HPQ;
      [apply c_rbtree_entries_node; by left
      | apply c_rbtree_entries_node; right; by left | by apply Hl].
  - intros b Hb.
    apply HPQ;
      [apply c_rbtree_entries_node; right; by left
      | apply c_rbtree_entries_node; right; by right | by apply Hr].
  - apply IHl; [|done]. intros a b Ha Hb.
    apply HPQ; apply c_rbtree_entries_node; by left.
  - apply IHr; [|done]. intros a b Ha Hb.
    apply HPQ; apply c_rbtree_entries_node; right; by right.
Qed.

(** A new rule that is linked at the slot which the descent for its keys
    has found leaves an ordered tree ordered. *)
Lemma c_rbtree_link_ordered (rules : gmap nat MatchRule) (new : MatchRule)
    (tree : CRBTree) (slot : list bool) (a : nat) :
  (forall x, x ∈ c_rbtree_entries tree -> is_Some (rules !! x)) ->
  rules !! a = None ->
  c_rbtree_ordered (rule_before rules) tree ->
  c_rbtree_find_slot (rule_tree_compare rules) (r_keys new) tree = inr slot ->
  c_rbtree_ordered (rule_before (<[a := new]> rules))
    (c_rbtree_link tree slot a).
Proof.
  intros Hlive Hnone.
  assert (forall x, is_Some (rules !! x) -> x <> a) as Hne
    by (intros x [? Hx] ->; congruence).
  assert (forall x y, x <> a -> y <> a -> rule_before rules x y ->
            rule_before (<[a := new]> rules) x y) as Hold.
  { intros x y Hx Hy. apply rule_before_keys; by rewrite lookup_insert_ne. }
  revert slot Hlive. induction tree as [|l IHl x r IHr]; intros slot Hlive.
  - intros _ _. cbn [c_rbtree_link c_rbtree_ordered c_rbtree_entries].
    repeat split; intros b Hb; by apply elem_of_nil in Hb.
  - cbn [c_rbtree_ordered c_rbtree_find_slot]. cbv zeta.
    intros (Hl & Hr & Hol & Hor).
    assert (forall b, b ∈ c_rbtree_entries l -> is_Some (rules !! b)) as Hlivel
      by (intros b Hb; apply Hlive, c_rbtree_entries_node; by left).
    assert (forall b, b ∈ c_rbtree_entries r -> is_Some (rules !! b)) as Hliver
      by (intros b Hb; apply Hlive, c_rbtree_entries_node; right; by right).
    destruct (Hlive x) as [rx Hrx];
      [apply c_rbtree_entries_node; right; by left|].
    assert (x <> a) as Hxa by (apply Hne; eauto).
    assert (rule_tree_compare rules (r_keys new) x
            = match_rules_compare (r_keys new) (r_keys rx)) as ->
      by (unfold rule_tree_compare; by rewrite Hrx).
    pose proof (match_rules_compare_opp (r_keys new) (r_keys rx)) as Hopp.
    destruct (Z.ltb_spec (match_rules_compare (r_keys new) (r_keys rx)) 0)
      as [Hlt|Hge].
    { destruct (c_rbtree_find_slot _ _ l) as [|slot'] eqn:Hslot; [done|].
      intros [= <-]. cbn [c_rbtree_link c_rbtree_ordered].
      split; [|split; [|split]].
      - intros b Hb.
        apply (c_rbtree_link_entries _ _ _ _ _ _ Hslot) in Hb as [->|Hb].
        + exists new, rx. by rewrite lookup_insert_eq, lookup_insert_ne.
        + apply Hold; [by apply Hne, Hlivel | done | by apply Hl].
      - intros b Hb. apply Hold; [done | by apply Hne, Hliver | by apply Hr].
      - by apply IHl.
      - apply (c_rbtree_ordered_impl (rule_before rules)); [|done].
        intros p q Hp Hq. apply Hold; by apply Hne, Hliver. }
    destruct (Z.gtb_spec (match_rules_compare (r_keys new) (r_keys rx)) 0)
      as [Hgt|Hle]; [|done].
    destruct (c_rbtree_find_slot _ _ r) as [|slot'] eqn:Hslot; [done|].
    intros [= <-]. cbn [c_rbtree_link c_rbtree_ordered].
    split; [|split; [|split]].
    + intros b Hb. apply Hold; [by apply Hne, Hlivel | done | by apply Hl].
    + intros b Hb.
      apply (c_rbtree_link_entries _ _ _ _ _ _ Hslot) in Hb as [->|Hb].
      * exists rx, new. rewrite lookup_insert_eq, lookup_insert_ne by done.
        split; [done|]. split; [done|]. lia.
      * apply Hold; [done | by apply Hne, Hliver | by apply Hr].
    + apply (c_rbtree_ordered_impl (rule_before rules)); [|done].
      intros p q Hp Hq. apply Hold; by apply Hne, Hlivel.
    + by apply IHr.
Qed.

(** X21. [match_owner_ref_rule] keeps the rule tree of an owner ordered,
    with a library that links a node at its slot and does not rotate: on a
    tree that is ordered by the keys of its rules, a call that returns 0
    leaves a tree that is ordered by them. The tree then holds a rule with
    the parsed keys, which is the one stored to [*rulep] and the one that
    [match_rule_get] finds under the rule string; the other entries are
    those from before. *)
Theorem match_owner_ref_rule_keeps_order (owner : Z) (rulep : bool) (user : Z)
    (s : string) (st st' : State Reference.World) (out : option nat) :
  owner_ordered st owner ->
  match_owner_ref_rule owner rulep user s st = Some ((R_OK, out), st') ->
  owner_ordered st' owner
  /\ exists a ra,
       a ∈ rule_tree (owner_at st' owner) /\ st_rules st' !! a = Some ra
       /\ canonical (r_keys ra) = canonical (snd (parsed_keys s))
       /\ out = (if rulep then Some a else None)
       /\ (forall b, b ∈ rule_tree (owner_at st' owner)
                     <-> b = a \/ b ∈ rule_tree (owner_at st owner))
       /\ match_rule_get owner s st' = Some ((R_OK, Some a), st').
Proof.
  intros [Hlive Hord] Hrun.
  destruct (match_owner_ref_rule_ok owner st rulep user s out st' Hlive Hrun)
    as [Hparse Hcase].
  destruct (c_rbtree_find_slot (rule_tree_compare (st_rules st))
              (snd (parsed_keys s)) (rule_tree (owner_at st owner)))
    as [e|slot] eqn:Hfind.
  - (* the rule exists: the keys of the rules are as before *)
    destruct Hcase as (Htree & Hout & re & Hre & Hrules).
    apply c_rbtree_find_slot_found in Hfind as [Hin Hz].
    apply rule_tree_compare_zero in Hz as (re' & Hre' & Hcan).
    assert (re' = re) as -> by congruence.
    assert (forall x, (r_keys <$> st_rules st !! x)
                      = (r_keys <$> st_rules st' !! x)) as Hkeys.
    { intros x. rewrite Hrules. destruct rulep; [|done].
      destruct (decide (x = e)) as [->|Hne].
      - by rewrite lookup_insert_eq, Hre.
      - by rewrite lookup_insert_ne. }
    assert (owner_ordered st' owner) as Hord'.
    { split.
      - intros x Hx. rewrite Htree in Hx. apply Hlive in Hx.
        apply (fmap_is_Some r_keys). rewrite <- Hkeys.
        by apply fmap_is_Some.
      - rewrite Htree.
        apply (c_rbtree_ordered_impl (rule_before (st_rules st))); [|done].
        intros p q _ _. by apply rule_before_keys. }
    split; [done|].
    exists e, (if rulep then incr_user_refs re else re).
    assert (st_rules st' !! e = Some (if rulep then incr_user_refs re else re))
      as Hre2.
    { rewrite Hrules. destruct rulep; [apply lookup_insert_eq | done]. }
    assert (canonical (r_keys (if rulep then incr_user_refs re else re))
            = canonical (snd (parsed_keys s))) as Hcan2
      by (by destruct rulep).
    split; [by rewrite Htree|]. split; [done|]. split; [done|].
    split; [done|]. split.
    { intros b. rewrite Htree. split; [by right|]. by intros [->|?]. }
    destruct Hord' as [_ Hord'].
    eapply match_rule_get_found; [done | done | by rewrite Htree | done | done].
  - (* the new rule is linked at the slot *)
    destruct Hcase as (Htree & Hout & new & Hrules & Hkeys & Hrefs).
    change (rule_tree (owner_at st' owner)
            = c_rbtree_link (rule_tree (owner_at st owner)) slot (st_brk st))
      in Htree.
    assert (st_rules st !! st_brk st = None) as Hnone
      by apply not_elem_of_dom, is_fresh.
    assert (forall b, b ∈ rule_tree (owner_at st' owner)
                      <-> b = st_brk st \/ b ∈ rule_tree (owner_at st owner))
      as Hentries.
    { intros b. rewrite Htree. by apply (c_rbtree_link_entries _ _ _ _ _ _ Hfind). }
    assert (owner_ordered st' owner) as Hord'.
    { split.
      - intros x Hx. apply Hentries in Hx as [->|Hx]; rewrite Hrules.
        + rewrite lookup_insert_eq. eauto.
        + rewrite lookup_insert_ne; [by apply Hlive|].
          intros <-. apply Hlive in Hx as [? Hx]. congruence.
      - rewrite Htree, Hrules. apply c_rbtree_link_ordered; try done.
        by rewrite Hkeys. }
    split; [done|]. exists (st_brk st), new.
    assert (st_rules st' !! st_brk st = Some new) as Hnew
      by (rewrite Hrules; apply lookup_insert_eq).
    assert (st_brk st ∈ rule_tree (owner_at st' owner)) as Hin
      by (apply Hentries; by left).
    split; [done|]. split; [done|]. split; [by rewrite Hkeys|].
    split; [done|]. split; [done|].
    destruct Hord' as [_ Hord'].
    eapply match_rule_get_found; [done | done | done | done | by rewrite Hkeys].
Qed.

(** The tree of the three rules of [Scenario.three_rules] is ordered. *)
Lemma three_rules_ordered : owner_ordered Scenario.three_rules 1.
Proof.
  assert (rule_tree (owner_at Scenario.three_rules 1)
          = CRB_Node (CRB_Node CRB_NULL 2%nat CRB_NULL) 0%nat
              (CRB_Node CRB_NULL 1%nat CRB_NULL)) as Htree
    by (vm_compute; reflexivity).
  unfold owner_ordered. rewrite Htree. split.
  - intros a Ha. vm_compute in Ha.
    repeat (apply elem_of_cons in Ha as [->|Ha]);
      [eexists; vm_compute; reflexivity ..|apply elem_of_nil in Ha as []].
  - cbn [c_rbtree_ordered c_rbtree_entries].
    repeat split; intros a Ha; simpl in Ha;
      (apply elem_of_nil in Ha as [])
      || (apply list_elem_of_singleton in Ha as ->;
          do 2 eexists; split; [vm_compute; reflexivity|];
          split; [vm_compute; reflexivity|]; vm_compute; reflexivity).
Qed.

(** Peer 1 takes the rules ["arg0='m'"], ["arg0='z'"] and ["arg0='a'"]:
    the tree is ordered after every call, the third rule is linked to the
    left of the first, and it is found under its string. *)
Lemma match_owner_ref_rule_keeps_order_witness :
  owner_ordered Scenario.three_rules 1
  /\ rule_tree (owner_at Scenario.three_rules 1)
     = CRB_Node (CRB_Node CRB_NULL 2%nat CRB_NULL) 0%nat
         (CRB_Node CRB_NULL 1%nat CRB_NULL)
  /\ match_rule_get 1 "arg0='a'" Scenario.three_rules
     = Some ((R_OK, Some 2%nat), Scenario.three_rules).
Proof.
  assert (owner_ordered Scenario.empty_bus 1) as H0.
  { split; [intros a Ha; vm_compute in Ha; by apply elem_of_nil in Ha|].
    assert (rule_tree (owner_at Scenario.empty_bus 1) = CRB_NULL) as ->
      by (vm_compute; reflexivity).
    done. }
  destruct (match_owner_ref_rule_keeps_order 1 true 1000 "arg0='m'"
              Scenario.empty_bus Scenario.first_rule (Some 0%nat) H0)
    as [H1 _]; [vm_compute; reflexivity|].
  destruct (match_owner_ref_rule_keeps_order 1 true 1000 "arg0='z'"
              Scenario.first_rule Scenario.second_rule (Some 1%nat) H1)
    as [H2 _]; [vm_compute; reflexivity|].
  destruct (match_owner_ref_rule_keeps_order 1 true 1000 "arg0='a'"
              Scenario.second_rule Scenario.three_rules (Some 2%nat) H2)
    as [H3 (a & ra & _ & _ & _ & Hout & _ & Hget)];
    [vm_compute; reflexivity|].
  injection Hout as <-.
  split; [exact H3|]. split; [vm_compute; reflexivity | exact Hget].
Defined.

(** Peer 1 has added ["type='signal'"]: the rule is found under that
    string and under ["type ='signal'"], which has the same keys, and a
    second call with that string returns the rule with two references. No
    rule is found under ["type='error'"]. In the tree of the three rules of
    [Scenario.three_rules] the rule to the right of the root and the one to
    its left are found, and none under ["arg0='b'"]. *)
Lemma rule_tree_lookup_ordered_witness :
  match_rule_get 1 "type ='signal'" Reference.one_rule
  = Some ((R_OK, Some 0%nat), Reference.one_rule)
  /\ (exists st',
        match_owner_ref_rule 1 true 1000 "type ='signal'" Reference.one_rule
        = Some ((R_OK, Some 0%nat), st')
        /\ rule_tree (owner_at st' 1) = CRB_Node CRB_NULL 0%nat CRB_NULL
        /\ (r_n_user_refs <$> st_rules st' !! 0%nat) = Some 2)
  /\ match_rule_get 1 "type='error'" Reference.one_rule
     = Some ((R_E MATCH_E_NOT_FOUND, None), Reference.one_rule)
  /\ match_rule_get 1 "arg0='z'" Scenario.three_rules
     = Some ((R_OK, Some 1%nat), Scenario.three_rules)
  /\ match_rule_get 1 "arg0='a'" Scenario.three_rules
     = Some ((R_OK, Some 2%nat), Scenario.three_rules)
  /\ match_rule_get 1 "arg0='b'" Scenario.three_rules
     = Some ((R_E MATCH_E_NOT_FOUND, None), Scenario.three_rules).
Proof.
  assert (forall a, a ∈ rule_tree (owner_at Scenario.three_rules 1) ->
            a = 2%nat \/ a = 0%nat \/ a = 1%nat) as Hthree.
  { intros a Ha. vm_compute in Ha.
    repeat (apply elem_of_cons in Ha as [->|Ha]); auto.
    apply elem_of_nil in Ha as []. }
  assert (rule_tree (owner_at Reference.one_rule 1)
          = CRB_Node CRB_NULL 0%nat CRB_NULL) as Htree0
    by (vm_compute; reflexivity).
  assert (owner_ordered Reference.one_rule 1) as Hord.
  { unfold owner_ordered. rewrite Htree0. split.
    - intros a Ha. apply list_elem_of_singleton in Ha as ->.
      eexists. vm_compute. reflexivity.
    - cbn [c_rbtree_ordered c_rbtree_entries].
      repeat split; intros a Ha; by apply elem_of_nil in Ha. }
  split; [|split; [|split; [|split; [|split]]]].
  - edestruct (rule_tree_lookup_ordered (W := Reference.World) 1
                 "type ='signal'" Reference.one_rule Hord) as [Hfound _];
      [vm_compute; reflexivity|].
    edestruct (Hfound 0%nat) as [Hget _];
      [ | vm_compute; reflexivity | vm_compute; reflexivity | exact Hget].
    apply list_elem_of_singleton. reflexivity.
  - eexists. split; [vm_compute; reflexivity|].
    edestruct (rule_tree_lookup_ordered (W := Reference.World) 1
                 "type ='signal'" Reference.one_rule Hord) as [Hfound _];
      [vm_compute; reflexivity|].
    edestruct (Hfound 0%nat) as [_ Href];
      [ | vm_compute; reflexivity | vm_compute; reflexivity |].
    { apply list_elem_of_singleton. reflexivity. }
    edestruct (Href true 1000) as (_ & Htree & Hrules);
      [vm_compute; reflexivity|].
    split; [rewrite Htree; vm_compute; reflexivity|].
    rewrite Hrules, lookup_insert_eq. vm_compute. reflexivity.
  - edestruct (rule_tree_lookup_ordered (W := Reference.World) 1
                 "type='error'" Reference.one_rule Hord) as [_ Hnone];
      [vm_compute; reflexivity|].
    apply Hnone. intros a ra Ha. vm_compute in Ha.
    apply list_elem_of_singleton in Ha as ->. vm_compute.
    intros [= <-]. discriminate.
  - edestruct (rule_tree_lookup_ordered (W := Reference.World) 1
                 "arg0='z'" Scenario.three_rules three_rules_ordered)
      as [Hfound _]; [vm_compute; reflexivity|].
    edestruct (Hfound 1%nat) as [Hget _];
      [ | vm_compute; reflexivity | vm_compute; reflexivity | exact Hget].
    vm_compute. apply elem_of_cons. right. apply elem_of_cons. right.
    apply elem_of_cons. by left.
  - edestruct (rule_tree_lookup_ordered (W := Reference.World) 1
                 "arg0='a'" Scenario.three_rules three_rules_ordered)
      as [Hfound _]; [vm_compute; reflexivity|].
    edestruct (Hfound 2%nat) as [Hget _];
      [ | vm_compute; reflexivity | vm_compute; reflexivity | exact Hget].
    vm_compute. apply elem_of_cons. by left.
  - edestruct (rule_tree_lookup_ordered (W := Reference.World) 1
                 "arg0='b'" Scenario.three_rules three_rules_ordered)
      as [_ Hnone]; [vm_compute; reflexivity|].
    apply Hnone. intros a ra Ha.
    destruct (Hthree a Ha) as [->|[->| ->]]; vm_compute;
      intros [= <-]; discriminate.
Defined.

(** ** What a broadcast does to the bus *)

Section BroadcastLog.

Context {W : Type} `{Collaborators W}.

Lemma log_grows_refl P (st : State W) : log_grows P st st.
Proof. exists []. split; [by rewrite app_nil_r | constructor]. Qed.

Lemma log_grows_trans P (st1 st2 st3 : State W) :
  log_grows P st1 st2 -> log_grows P st2 st3 -> log_grows P st1 st3.
Proof.
  intros (e1 & H1 & F1) (e2 & H2 & F2). exists (e1 ++ e2)%list.
  split; [by rewrite H2, H1, app_assoc | by apply Forall_app].
Qed.

Lemma same_bus_refl (st : State W) : same_bus st st.
Proof. by repeat split. Qed.

Lemma same_bus_trans (st1 st2 st3 : State W) :
  same_bus st1 st2 -> same_bus st2 st3 -> same_bus st1 st3.
Proof.
  intros (? & ? & ? & ?) (? & ? & ? & ?). repeat split; congruence.
Qed.

Lemma fatal_or_ok_fold r : fatal_or_ok (error_fold r).
Proof. by destruct r. Qed.

Lemma peer_result_fold r : peer_result (error_fold r).
Proof. by destruct r. Qed.

Lemma fatal_or_ok_peer_result r : fatal_or_ok r -> peer_result r.
Proof. by destruct r. Qed.

Lemma body_events flt sp sn txn msg a (st : State W) out st' :
  peer_broadcast_to_matches_body sp sn flt txn msg a st = Some (out, st') ->
  log_grows (broadcast_event txn (f_destination flt)) st st'
  /\ same_bus st st'
  /\ st_transaction_ids st' = st_transaction_ids st
  /\ (forall r, out = Some r -> fatal_or_ok r /\ r <> R_OK).
Proof.
  unfold peer_broadcast_to_matches_body, bind, load_rule.
  destruct (st_rules st !! a) as [r|]; simpl; [|discriminate].
  unfold do_policy_check_send, do_policy_check_receive, do_world, do_world_,
    log_event, modify, bind, ret.
  destruct (Z.eqb_spec (f_destination flt) (r_owner r)) as [Heq|Hne].
  { simpl. intros Hx. injection Hx as <- <-.
    split; [apply log_grows_refl|]. split; [apply same_bus_refl|]. done. }
  assert (forall x, c_truthy x = true ->
            fatal_or_ok (error_fold x) /\ error_fold x <> R_OK)
    as Hfold by (by intros []).
  destruct sp as [policy|]; simpl.
  - repeat case_match; intros; simplify_eq/=.
    all: split; [|split; [by repeat split|split; [done|]]].
    all: try (intros ? [= <-]; by apply Hfold).
    all: try done.
    all: eexists; split; [simpl; rewrite <- ?app_assoc; reflexivity|].
    all: repeat constructor; simpl; congruence.
  - repeat case_match; intros; simplify_eq/=.
    all: split; [|split; [by repeat split|split; [done|]]].
    all: try (intros ? [= <-]; by apply Hfold).
    all: try done.
    all: eexists; split; [simpl; rewrite <- ?app_assoc; reflexivity|].
    all: repeat constructor; simpl; congruence.
Qed.

Lemma loop_events fuel sp sn matches flt txn msg :
  forall rule (st : State W) r st',
    peer_broadcast_to_matches_loop fuel sp sn matches flt txn msg rule st
    = Some (r, st') ->
    log_grows (broadcast_event txn (f_destination flt)) st st'
    /\ same_bus st st'
    /\ st_transaction_ids st' = st_transaction_ids st
    /\ fatal_or_ok r.
Proof.
  induction fuel as [|fuel IH]; intros rule st r st'; simpl.
  - destruct rule; [discriminate|]. unfold ret. intros; simplify_eq/=.
    split; [apply log_grows_refl|]. split; [apply same_bus_refl|]. done.
  - destruct rule as [a|].
    2: { unfold ret; intros; simplify_eq/=.
         split; [apply log_grows_refl|]. split; [apply same_bus_refl|]. done. }
    unfold bind at 1.
    destruct (peer_broadcast_to_matches_body sp sn flt txn msg a st)
      as [[out st1]|] eqn:Hbody; [|discriminate].
    apply body_events in Hbody as (Hlog & Hbus & Htxn & Hout).
    destruct out as [r1|].
    + unfold ret. intros [= <- <-].
      destruct (Hout r1 eq_refl) as [Hf _]. done.
    + unfold bind at 1.
      destruct (do_match_rule_next_match matches (Some a) flt st1)
        as [[next st2]|] eqn:Hnext; [|discriminate].
      apply do_match_rule_next_match_state in Hnext as ->.
      intros Hloop. apply IH in Hloop as (Hlog2 & Hbus2 & Htxn2 & Hr).
      split; [by eapply log_grows_trans|].
      split; [by eapply same_bus_trans|]. split; [congruence|done].
Qed.

Lemma to_matches_events sp sn matches flt txn msg (st : State W) r st' :
  peer_broadcast_to_matches sp sn matches flt txn msg st = Some (r, st') ->
  log_grows (broadcast_event txn (f_destination flt)) st st'
  /\ same_bus st st'
  /\ st_transaction_ids st' = st_transaction_ids st
  /\ fatal_or_ok r.
Proof.
  unfold peer_broadcast_to_matches, bind at 1, get. unfold bind at 1.
  destruct (do_match_rule_next_match matches None flt st)
    as [[first st1]|] eqn:Hfirst; [|discriminate].
  apply do_match_rule_next_match_state in Hfirst as ->.
  apply loop_events.
Qed.

Lemma to_names_events sp sn names flt txn msg :
  forall (st : State W) r st',
    peer_broadcast_to_names sp sn names flt txn msg st = Some (r, st') ->
    log_grows (broadcast_event txn (f_destination flt)) st st'
    /\ same_bus st st'
    /\ st_transaction_ids st' = st_transaction_ids st
    /\ fatal_or_ok r.
Proof.
  induction names as [|name names IH]; intros st r st'; simpl.
  - unfold ret. intros; simplify_eq/=.
    split; [apply log_grows_refl|]. split; [apply same_bus_refl|]. done.
  - intros Hrun. apply bind_inv in Hrun as (r1 & st1 & Hm & Hrun).
    apply to_matches_events in Hm as (Hlog & Hbus & Htxn & Hr1).
    destruct (c_truthy r1).
    + apply ret_inv in Hrun as [-> ->]. done.
    + apply IH in Hrun as (Hlog2 & Hbus2 & Htxn2 & Hr).
      split; [by eapply log_grows_trans|].
      split; [by eapply same_bus_trans|]. split; [congruence|done].
Qed.

Lemma peer_broadcast_events sp sn sm sender_id dest flt msg (st : State W)
    r st' :
  peer_broadcast sp sn sm sender_id dest flt msg st = Some (r, st') ->
  let txn := (st_transaction_ids st + 1) mod (UINT64_MAX + 1) in
  st_transaction_ids st' = txn
  /\ same_bus st st'
  /\ log_grows
       (broadcast_event txn
          (f_destination (broadcast_filter sender_id dest flt msg))) st st'
  /\ fatal_or_ok r.
Proof.
  intros Hrun txn. unfold peer_broadcast in Hrun.
  fold (broadcast_filter sender_id dest flt msg) in Hrun.
  set (f := broadcast_filter sender_id dest flt msg) in *. clearbody f.
  rewrite run_modify, run_get in Hrun. st_simpl. fold txn in Hrun.
  set (st0 := set_st_transaction_ids txn st) in *.
  assert (log_grows (broadcast_event txn (f_destination f)) st st0) as Hl0
    by (exists []; split;
        [subst st0; st_simpl; by rewrite app_nil_r | constructor]).
  assert (same_bus st st0) as Hb0 by (by repeat split).
  assert (st_transaction_ids st0 = txn) as Ht0 by done.
  clearbody st0.
  apply bind_inv in Hrun as (r1 & st1 & Hm1 & Hrun).
  apply to_matches_events in Hm1 as (Hl1 & Hb1 & Ht1 & Hr1).
  pose proof (log_grows_trans _ _ _ _ Hl0 Hl1) as Hl01.
  pose proof (same_bus_trans _ _ _ Hb0 Hb1) as Hb01.
  destruct (c_truthy r1).
  { apply ret_inv in Hrun as [-> ->].
    split; [congruence|]. split; [done|]. split; [done|]. exact Hr1. }
  apply bind_inv in Hrun as (r2 & st2 & Hm2 & Hrun).
  assert (log_grows (broadcast_event txn (f_destination f)) st1 st2
          /\ same_bus st1 st2 /\ st_transaction_ids st2 = st_transaction_ids st1
          /\ fatal_or_ok r2) as (Hl2 & Hb2 & Ht2 & Hr2).
  { destruct sm as [m|]; [by apply to_matches_events in Hm2|].
    apply ret_inv in Hm2 as [-> ->].
    split; [apply log_grows_refl|]. split; [apply same_bus_refl|]. done. }
  pose proof (log_grows_trans _ _ _ _ Hl01 Hl2) as Hl02.
  pose proof (same_bus_trans _ _ _ Hb01 Hb2) as Hb02.
  destruct (c_truthy r2).
  { apply ret_inv in Hrun as [-> ->].
    split; [congruence|]. split; [done|]. split; [done|]. exact Hr2. }
  destruct sn as [[owner|names]|].
  - rewrite run_get in Hrun.
    apply to_names_events in Hrun as (Hl3 & Hb3 & Ht3 & Hr3).
    split; [congruence|]. split; [by eapply same_bus_trans|].
    split; [by eapply log_grows_trans|done].
  - apply to_names_events in Hrun as (Hl3 & Hb3 & Ht3 & Hr3).
    split; [congruence|]. split; [by eapply same_bus_trans|].
    split; [by eapply log_grows_trans|done].
  - apply bind_inv in Hrun as (r3 & st3 & Hm3 & Hrun).
    apply to_matches_events in Hm3 as (Hl3 & Hb3 & Ht3 & Hr3).
    assert (r = r3) as ->.
    { destruct (c_truthy r3) eqn:H3; apply ret_inv in Hrun as [-> _]; [done|].
      by apply c_truthy_false in H3. }
    assert (st' = st3) as ->
      by (destruct (c_truthy r3); by apply ret_inv in Hrun as [_ ->]).
    split; [congruence|]. split; [by eapply same_bus_trans|].
    split; [by eapply log_grows_trans|done].
Qed.

Lemma bus_wf_same (st st' : State W) : same_bus st st' -> bus_wf st -> bus_wf st'.
Proof.
  intros (Hr & _ & Hg & _) Hwf ref. unfold registry_at. rewrite Hr, Hg.
  apply Hwf.
Qed.

Lemma to_matches_total sp sn matches flt txn msg (st : State W) :
  bus_wf st ->
  exists r st',
    peer_broadcast_to_matches sp sn matches flt txn msg st = Some (r, st').
Proof.
  intros Hwf. specialize (Hwf matches).
  unfold peer_broadcast_to_matches, bind at 1, get.
  unfold bind at 1, do_match_rule_next_match, bind at 1, get, lift.
  rewrite match_rule_next_match_first by done.
  apply (peer_broadcast_to_matches_loop_total _ _ _ _ _ _ _ _ []);
    [done | done | apply walk_length].
Qed.

Lemma to_names_total sp sn names flt txn msg :
  forall (st : State W), bus_wf st ->
    exists r st',
      peer_broadcast_to_names sp sn names flt txn msg st = Some (r, st').
Proof.
  induction names as [|name names IH]; intros st Hwf; simpl.
  - unfold ret. eauto.
  - destruct (to_matches_total sp sn (REG_NAME name) flt txn msg st Hwf)
      as (r1 & st1 & Hrun).
    unfold bind at 1. rewrite Hrun.
    destruct (c_truthy r1); [unfold ret; eauto|].
    apply IH. apply to_matches_events in Hrun as (_ & Hbus & _).
    by eapply bus_wf_same.
Qed.

Lemma peer_broadcast_total sp sn sm sender_id dest flt msg (st : State W) :
  bus_wf st ->
  exists r st',
    peer_broadcast sp sn sm sender_id dest flt msg st = Some (r, st').
Proof.
  intros Hwf. unfold peer_broadcast.
  fold (broadcast_filter sender_id dest flt msg).
  set (f := broadcast_filter sender_id dest flt msg). clearbody f.
  rewrite run_modify, run_get. st_simpl.
  set (txn := (st_transaction_ids st + 1) mod (UINT64_MAX + 1)).
  set (st0 := set_st_transaction_ids txn st).
  assert (bus_wf st0) as Hwf0 by done.
  clearbody st0.
  destruct (to_matches_total sp sn REG_WILDCARD f txn msg st0 Hwf0)
    as (r1 & st1 & Hrun1).
  unfold bind at 1. rewrite Hrun1.
  apply to_matches_events in Hrun1 as (_ & Hbus1 & _).
  pose proof (bus_wf_same _ _ Hbus1 Hwf0) as Hwf1.
  destruct (c_truthy r1); [unfold ret; eauto|].
  assert (exists r2 st2,
            match sm with
            | Some m => peer_broadcast_to_matches sp sn m f txn msg
            | None => ret R_OK
            end st1 = Some (r2, st2) /\ bus_wf st2) as (r2 & st2 & Hrun2 & Hwf2).
  { destruct sm as [m|]; [|unfold ret; eauto].
    destruct (to_matches_total sp sn m f txn msg st1 Hwf1) as (r2 & st2 & Hrun2).
    exists r2, st2. split; [done|].
    apply to_matches_events in Hrun2 as (_ & Hbus2 & _). by eapply bus_wf_same. }
  unfold bind at 1. rewrite Hrun2.
  destruct (c_truthy r2); [unfold ret; eauto|].
  destruct sn as [[owner|names]|].
  - rewrite run_get. by apply to_names_total.
  - by apply to_names_total.
  - destruct (to_matches_total None None REG_DRIVER f txn msg st2 Hwf2)
      as (r3 & st3 & Hrun3).
    unfold bind. rewrite Hrun3. destruct (c_truthy r3); unfold ret; eauto.
Qed.

(** X12. A [peer_broadcast] that returns has taken the next transaction
    id of the bus (the counter plus one, modulo 2^64), and has left the
    rules, the owners, the registries and the peers as they were. All it
    did is check policies, queue the message under that one transaction id
    to peers other than the destination of the filter, and shut connections
    down; it returns 0 or a negative error, never an error constant of a
    module. On a bus whose registries are all well formed it does return. *)
Theorem peer_broadcast_transaction sp sn sm sender_id dest flt msg
    (st : State W) :
  (forall r st',
     peer_broadcast sp sn sm sender_id dest flt msg st = Some (r, st') ->
     st_transaction_ids st' = (st_transaction_ids st + 1) mod (UINT64_MAX + 1)
     /\ same_bus st st'
     /\ log_grows
          (broadcast_event ((st_transaction_ids st + 1) mod (UINT64_MAX + 1))
             (f_destination (broadcast_filter sender_id dest flt msg))) st st'
     /\ fatal_or_ok r)
  /\ (bus_wf st ->
      exists r st',
        peer_broadcast sp sn sm sender_id dest flt msg st = Some (r, st')).
Proof.
  split.
  - intros r st' Hrun. by apply peer_broadcast_events in Hrun.
  - apply peer_broadcast_total.
Qed.

End BroadcastLog.

(** ** Names: the policy comes first *)

Section Names.

Context {W : Type} `{Collaborators W}.

(** X13. For a name that is neither the name of the driver nor a unique
    name, [peer_request_name] checks the policy first. If the policy does
    not return 0, the name registry is not called: the result is
    [PEER_E_NAME_REFUSED] when the access is denied and the folded error
    otherwise, and the world is as before. If the policy returns 0, the name
    registry is called once, behind the policy; its world is the new world,
    and the result is that of the registry with its error constants turned
    into those of peer.h and any other error folded, 0 exactly when the
    registry returned 0. [peer_release_name] asks no policy and calls the
    name registry once, with its result turned into one of peer.h the same
    way. Both leave the rules,
    the owners, the registries and the peers as they are. *)
Theorem peer_names_policy_first (peer flags : Z) (name : string)
    (st : State W) :
  name <> "org.freedesktop.DBus" ->
  deref name <> ":"%char ->
  let policy := peer_policy_check_own (st_world st) peer name in
  (policy <> R_OK ->
   peer_request_name peer name flags st
   = Some (if bool_decide (policy = R_E POLICY_E_ACCESS_DENIED)
           then R_E PEER_E_NAME_REFUSED else error_fold policy,
           set_st_log (st_log st ++ [EV_policy_check_own peer name]) st))
  /\ (policy = R_OK ->
      forall rn w,
        name_registry_request_name (st_world st) peer name flags = (rn, w) ->
        exists r,
          peer_request_name peer name flags st
          = Some (r,
                  set_st_world w
                    (set_st_log
                       (st_log st
                        ++ [EV_policy_check_own peer name;
                            EV_name_registry_request_name peer name]) st))
          /\ peer_result r
          /\ (r = R_OK <-> rn = R_OK)
          /\ (rn = R_E NAME_E_QUOTA -> r = R_E PEER_E_QUOTA)
          /\ (rn = R_E NAME_E_ALREADY_OWNER -> r = R_E PEER_E_NAME_ALREADY_OWNER)
          /\ (rn = R_E NAME_E_IN_QUEUE -> r = R_E PEER_E_NAME_IN_QUEUE)
          /\ (rn = R_E NAME_E_EXISTS -> r = R_E PEER_E_NAME_EXISTS)
          /\ (forall e, rn = R_NEG e -> r = R_NEG e)
          /\ (rn <> R_E NAME_E_QUOTA -> rn <> R_E NAME_E_ALREADY_OWNER ->
              rn <> R_E NAME_E_IN_QUEUE -> rn <> R_E NAME_E_EXISTS ->
              r = error_fold rn))
  /\ (forall rn w,
        name_registry_release_name (st_world st) peer name = (rn, w) ->
        exists r,
          peer_release_name peer name st
          = Some (r,
                  set_st_world w
                    (set_st_log
                       (st_log st
                        ++ [EV_name_registry_release_name peer name]) st))
          /\ peer_result r
          /\ (r = R_OK <-> rn = R_OK)
          /\ (rn = R_E NAME_E_NOT_FOUND -> r = R_E PEER_E_NAME_NOT_FOUND)
          /\ (rn = R_E NAME_E_NOT_OWNER -> r = R_E PEER_E_NAME_NOT_OWNER)
          /\ (forall e, rn = R_NEG e -> r = R_NEG e)
          /\ (rn <> R_E NAME_E_NOT_FOUND -> rn <> R_E NAME_E_NOT_OWNER ->
              r = error_fold rn)).
Proof.
  intros Hdriver Hunique policy.
  assert ((strcmp name "org.freedesktop.DBus" =? 0) = false) as Hcmp.
  { destruct (Z.eqb_spec (strcmp name "org.freedesktop.DBus") 0) as [He|];
      [|done]. by apply strcmp_eq in He. }
  assert (Ascii.eqb (deref name) ":" = false) as Hcolon
    by (by apply Ascii.eqb_neq).
  split; [|split].
  - intros Hpolicy. unfold peer_request_name. rewrite Hcmp, Hcolon.
    unfold do_policy_check_own. rewrite run_bind, run_log_event.
    unfold bind at 1. st_simpl. fold policy.
    assert (c_truthy policy = true) as -> by (by destruct policy).
    by case_bool_decide.
  - intros Hpolicy rn w Hreg. unfold peer_request_name. rewrite Hcmp, Hcolon.
    unfold do_policy_check_own. rewrite run_bind, run_log_event.
    unfold bind at 1. st_simpl. fold policy. rewrite Hpolicy. cbn [c_truthy].
    unfold do_world. rewrite run_bind, run_log_event. unfold bind. st_simpl.
    rewrite Hreg. rewrite <- app_assoc. cbn [app].
    repeat case_bool_decide; subst; try (eexists; split; [reflexivity|];
      repeat split; intros; try done; discriminate).
    destruct (c_truthy rn) eqn:Hrn.
    + eexists. split; [reflexivity|].
      split; [apply peer_result_fold|].
      split; [split; [by destruct rn | by intros ->]|].
      repeat split; try done. by intros e ->.
    + apply c_truthy_false in Hrn as ->.
      eexists. split; [reflexivity|]. repeat split; intros; done.
  - intros rn w Hreg. unfold peer_release_name. rewrite Hcmp, Hcolon.
    unfold do_world. rewrite run_bind, run_log_event. unfold bind. st_simpl.
    rewrite Hreg.
    repeat case_bool_decide; subst; try (eexists; split; [reflexivity|];
      repeat split; intros; try done; discriminate).
    destruct (c_truthy rn) eqn:Hrn.
    + eexists. split; [reflexivity|].
      split; [apply peer_result_fold|].
      split; [split; [by destruct rn | by intros ->]|].
      repeat split; try done. by intros e ->.
    + apply c_truthy_false in Hrn as ->.
      eexists. split; [reflexivity|]. repeat split; intros; done.
Qed.

End Names.

(** Peer 1 requests and releases the name ["com.example"] on the
    reference bus, whose policy and name registry return 0. *)
Lemma peer_names_policy_first_witness :
  peer_request_name 1 "com.example" 0 Scenario.empty_bus
  = Some (R_OK,
          set_st_log [EV_policy_check_own 1 "com.example";
                      EV_name_registry_request_name 1 "com.example"]
            Scenario.empty_bus)
  /\ peer_release_name 1 "com.example" Scenario.empty_bus
     = Some (R_OK,
             set_st_log [EV_name_registry_release_name 1 "com.example"]
               Scenario.empty_bus).
Proof.
  edestruct (peer_names_policy_first (W := Reference.World) 1 0 "com.example"
               Scenario.empty_bus) as (_ & Hrequest & Hrelease);
    [discriminate | discriminate |].
  split.
  - edestruct Hrequest as (r & Hrun & _ & [_ Hok] & _);
      [reflexivity | reflexivity |].
    rewrite Hrun, (Hok eq_refl). reflexivity.
  - edestruct Hrelease as (r & Hrun & _ & [_ Hok] & _); [reflexivity|].
    rewrite Hrun, (Hok eq_refl). reflexivity.
Defined.

(** ** The registry a rule is linked to *)

Lemma strcmp_refl (s : string) : (strcmp s s =? 0) = true.
Proof. apply Z.eqb_eq. by apply strcmp_eq. Qed.

Lemma strcmp_ne (s t : string) : s <> t -> (strcmp s t =? 0) = false.
Proof.
  intros Hne. destruct (Z.eqb_spec (strcmp s t) 0) as [He|]; [|done].
  by apply strcmp_eq in He.
Qed.

Section LinkBySender.

Context {W : Type} `{Collaborators W}.

(** X14. Where [peer_link_match] links an unlinked rule, by its sender:
    without a sender to the wildcards, with the sender
    ["org.freedesktop.DBus"] to the driver, both without a call to the
    world. With a sender that is a well-known name or no address of a known
    kind, it takes a reference to the name, links the rule to the registry of
    the name and drops the reference again; when the reference cannot be
    taken it returns the error, folded, and links nothing. With an invalid
    address it returns [-ENOTRECOVERABLE] and changes nothing. *)
Theorem peer_link_match_by_sender (peer : Z) (a : nat) (monitor : bool)
    (st : State W) (r : MatchRule) :
  st_rules st !! a = Some r ->
  r_registry r = None ->
  (k_sender (r_keys r) = None ->
   exists st',
     peer_link_match peer a monitor st = Some (R_OK, st')
     /\ rule_linked_in st' a REG_WILDCARD monitor
     /\ st_log st' = st_log st /\ st_world st' = st_world st)
  /\ (k_sender (r_keys r) = Some "org.freedesktop.DBus" ->
      exists st',
        peer_link_match peer a monitor st = Some (R_OK, st')
        /\ rule_linked_in st' a REG_DRIVER monitor
        /\ st_log st' = st_log st /\ st_world st' = st_world st)
  /\ (forall s rn w,
        k_sender (r_keys r) = Some s -> s <> "org.freedesktop.DBus" ->
        (address_from_string s = ADDRESS_TYPE_OTHER
         \/ exists n, address_from_string s = ADDRESS_TYPE_NAME n) ->
        name_registry_ref_name (st_world st) s = (rn, w) ->
        (rn = R_OK ->
         exists st',
           peer_link_match peer a monitor st = Some (R_OK, st')
           /\ rule_linked_in st' a (REG_NAME s) monitor
           /\ st_log st'
              = (st_log st ++ [EV_name_registry_ref_name s; EV_name_ref s;
                               EV_name_unref s])%list
           /\ st_world st' = name_unref (name_ref w s) s)
        /\ (rn <> R_OK ->
            exists st',
              peer_link_match peer a monitor st = Some (error_fold rn, st')
              /\ c_truthy (error_fold rn) = true
              /\ st_rules st' = st_rules st
              /\ st_registries st' = st_registries st
              /\ st_log st' = (st_log st ++ [EV_name_registry_ref_name s])%list
              /\ st_world st' = w))
  /\ (forall s,
        k_sender (r_keys r) = Some s -> s <> "org.freedesktop.DBus" ->
        address_from_string s = ADDRESS_TYPE_INVALID ->
        peer_link_match peer a monitor st = Some (R_NEG ENOTRECOVERABLE, st)).
Proof.
  intros Ha Hreg. split; [|split; [|split]].
  - intros Hs.
    destruct (match_rule_link_unlinked a REG_WILDCARD monitor st r Ha Hreg)
      as (st' & Hlink & Hin & _ & _ & _ & Hworld & Hlog & _).
    exists st'. unfold peer_link_match.
    erewrite run_load_rule by eassumption. rewrite Hs.
    unfold bind. rewrite Hlink. by repeat split.
  - intros Hs.
    destruct (match_rule_link_unlinked a REG_DRIVER monitor st r Ha Hreg)
      as (st' & Hlink & Hin & _ & _ & _ & Hworld & Hlog & _).
    exists st'. unfold peer_link_match.
    erewrite run_load_rule by eassumption. rewrite Hs, strcmp_refl.
    unfold bind. rewrite Hlink. by repeat split.
  - intros s rn w Hs Hne Haddr Href. split.
    + intros ->.
      set (st1 := set_st_world w
                    (set_st_log (st_log st ++ [EV_name_registry_ref_name s]) st)).
      assert (st_rules st1 !! a = Some r) as Ha1 by done.
      destruct (match_rule_link_unlinked a (REG_NAME s) monitor st1 r Ha1 Hreg)
        as (st2 & Hlink & (r2 & Hr2 & Hreg2 & Hlast) & _ & _ & _ & Hworld
            & Hlog & _).
      eexists. split.
      * unfold peer_link_match.
        erewrite run_load_rule by eassumption. rewrite Hs, strcmp_ne by done.
        match goal with
        | |- match address_from_string s with
             | ADDRESS_TYPE_ID id => @?k1 id
             | ADDRESS_TYPE_NAME _ | ADDRESS_TYPE_OTHER => ?k2
             | _ => _
             end st = _ =>
            assert (match address_from_string s with
                    | ADDRESS_TYPE_ID id => k1 id
                    | ADDRESS_TYPE_NAME _ | ADDRESS_TYPE_OTHER => k2
                    | ADDRESS_TYPE_INVALID =>
                        ret (error_origin (R_NEG ENOTRECOVERABLE))
                    end = k2) as -> by (destruct Haddr as [->|[n ->]]; done)
        end.
        erewrite run_do_world by eassumption. cbn [c_truthy]. fold st1.
        unfold bind at 1. rewrite Hlink. rewrite !run_do_world_. reflexivity.
      * st_simpl. split.
        -- exists r2. split; [done|]. split; [done|].
           unfold registry_at in *. st_simpl. done.
        -- rewrite Hlog, Hworld. subst st1. st_simpl.
           by rewrite <- !app_assoc.
    + intros Hrn. eexists. split.
      * unfold peer_link_match.
        erewrite run_load_rule by eassumption. rewrite Hs, strcmp_ne by done.
        match goal with
        | |- match address_from_string s with
             | ADDRESS_TYPE_ID id => @?k1 id
             | ADDRESS_TYPE_NAME _ | ADDRESS_TYPE_OTHER => ?k2
             | _ => _
             end st = _ =>
            assert (match address_from_string s with
                    | ADDRESS_TYPE_ID id => k1 id
                    | ADDRESS_TYPE_NAME _ | ADDRESS_TYPE_OTHER => k2
                    | ADDRESS_TYPE_INVALID =>
                        ret (error_origin (R_NEG ENOTRECOVERABLE))
                    end = k2) as -> by (destruct Haddr as [->|[n ->]]; done)
        end.
        erewrite run_do_world by eassumption.
        assert (c_truthy rn = true) as -> by (by destruct rn).
        reflexivity.
      * repeat split. by destruct rn.
  - intros s Hs Hne Haddr. unfold peer_link_match.
    erewrite run_load_rule by eassumption. rewrite Hs, strcmp_ne, Haddr by done.
    reflexivity.
Qed.

Lemma peer_link_match_codes (peer : Z) (a : nat) (monitor : bool)
    (st st' : State W) (r : retcode) :
  peer_link_match peer a monitor st = Some (r, st') -> fatal_or_ok r.
Proof.
  unfold peer_link_match. intros Hrun.
  apply bind_inv in Hrun as (rule & st1 & _ & Hrun).
  repeat first
    [ apply ret_inv in Hrun as [-> _]
    | apply bind_inv in Hrun as (? & ? & _ & Hrun)
    | match type of Hrun with
      | context [match ?x with _ => _ end] => destruct x eqn:?
      end ];
    try done; apply fatal_or_ok_fold.
Qed.


End LinkBySender.

(** The rule ["type='signal'"] of peer 1 has no sender: it goes to the
    wildcards. *)
Lemma peer_link_match_by_sender_witness :
  exists st',
    peer_link_match 1 0%nat false Reference.one_rule = Some (R_OK, st')
    /\ rule_linked_in st' 0%nat REG_WILDCARD false
    /\ st_log st' = st_log Reference.one_rule.
Proof.
  edestruct (peer_link_match_by_sender (W := Reference.World) 1 0%nat false
               Reference.one_rule) as [Hwild _];
    [vm_compute; reflexivity | reflexivity |].
  destruct Hwild as (st' & Hrun & Hin & Hlog & _); [reflexivity|].
  exists st'. by repeat split.
Defined.


(** ** Calls, replies and the reply slot *)

Section QueueCall.

Context {W : Type} `{Collaborators W}.

Lemma broadcast_event_no_slot_free txn dest evs :
  Forall (broadcast_event txn dest) evs -> Forall (fun e => ~ is_slot_free e) evs.
Proof.
  intros HF. induction HF as [|e l He _ IH]; [constructor|].
  constructor; [destruct e; simpl in *; tauto | done].
Qed.

Lemma free_slot_inv {A} (slot : bool) (e : Event) (f : W -> W) (k : M W A)
    (st st' : State W) (r : A) :
  ((if slot then do_world_ e f else ret tt) >> k) st = Some (r, st') ->
  exists st1,
    k st1 = Some (r, st') /\ same_bus st st1
    /\ st_log st1 = (st_log st ++ if slot then [e] else [])%list.
Proof.
  destruct slot.
  - rewrite run_do_world_. intros Hk. eexists. split; [exact Hk|].
    by repeat split.
  - rewrite run_ret. intros Hk. eexists. split; [exact Hk|].
    repeat split. by rewrite app_nil_r.
Qed.

Lemma last_app_slot (slot : bool) (l : list Event) (e : Event) :
  slot = true -> last (l ++ if slot then [e] else []) = Some e.
Proof. intros ->. apply last_snoc. Qed.

Lemma Forall_app_slot (P : Event -> Prop) (slot : bool) (l : list Event)
    (e : Event) :
  slot = false -> Forall P l -> Forall P (l ++ if slot then [e] else []).
Proof. intros ->. by rewrite app_nil_r. Qed.

(** X16. A [peer_queue_call] that returns gives 0, a negative error or an
    error constant of peer.h, and leaves the rules, the owners, the
    registries and the peers as they are. When the receiver or the sender
    policy denies the message, nothing was queued. The reply slot that the
    call created is kept if and only if the call returns 0: on every other
    result the last thing done is [reply_slot_free] of that slot, and a call
    that returns 0 or created no slot frees none. *)
Theorem peer_queue_call_events (sender_policy : Z)
    (sender_names : option NameSet) (sender_matches : option RegistryRef)
    (sender_replies : option Z) (sender_user sender_id receiver : Z)
    (message : Message) (st st' : State W) (r : retcode) :
  peer_queue_call sender_policy sender_names sender_matches sender_replies
    sender_user sender_id receiver message st = Some (r, st') ->
  let created :=
    slot_created sender_replies sender_user sender_id receiver message st in
  let free := EV_reply_slot_free receiver sender_id (m_serial message) in
  peer_result r
  /\ same_bus st st'
  /\ exists evs,
       st_log st' = (st_log st ++ evs)%list
       /\ (r = R_E PEER_E_RECEIVE_DENIED \/ r = R_E PEER_E_SEND_DENIED ->
           Forall (fun e => ~ is_queue e) evs)
       /\ (r = R_OK \/ created = false -> Forall (fun e => ~ is_slot_free e) evs)
       /\ (r <> R_OK -> created = true -> last evs = Some free).
Proof.
  intros Hrun created free. unfold peer_queue_call in Hrun.
  apply bind_inv in Hrun as (rcv & st0 & Hload & Hrun).
  assert (c_rbtree_find_entry peer_compare receiver (peer_tree (st_peers st))
          = Some rcv /\ st0 = st) as [Hrcv ->].
  { unfold load_peer in Hload.
    destruct (c_rbtree_find_entry _ _ _); by simplify_eq/=. }
  clear Hload.
  set (serial := m_serial message) in *.
  set (new := EV_reply_slot_new receiver sender_id serial) in *.
  apply bind_inv in Hrun as (early & st1 & Hearly & Hrun).
  (* the reply slot *)
  assert ((exists r0, early = inl r0 /\ r0 <> R_OK /\ peer_result r0
             /\ created = false /\ same_bus st st1
             /\ st_log st1 = (st_log st ++ [new])%list)
          \/ (exists slot pre, early = inr slot /\ created = slot
                /\ same_bus st st1 /\ st_log st1 = (st_log st ++ pre)%list
                /\ Forall (fun e => ~ is_slot_free e /\ ~ is_queue e) pre))
    as Hslot.
  { subst created. unfold slot_created. rewrite Hrcv.
    destruct sender_replies as [replies|].
    2: { apply ret_inv in Hearly as [-> ->]. right. exists false, [].
         repeat split; [by rewrite app_nil_r | constructor]. }
    destruct ((m_type message =? _) && _).
    2: { apply ret_inv in Hearly as [-> ->]. right. exists false, [].
         repeat split; [by rewrite app_nil_r | constructor]. }
    unfold do_world in Hearly.
    rewrite run_bind, run_log_event in Hearly.
    unfold bind in Hearly. st_simpl. fold serial in Hearly.
    cbn [andb]. fold serial.
    destruct (reply_slot_new _ _ _ _ _ _ _) as [rs w]. cbn [fst].
    repeat case_bool_decide; subst.
    - apply ret_inv in Hearly as [-> ->]. left. eexists. by repeat split.
    - apply ret_inv in Hearly as [-> ->]. left. eexists. by repeat split.
    - destruct (c_truthy rs) eqn:Hrs; apply ret_inv in Hearly as [-> ->].
      + left. eexists.
        repeat split; try done; [by destruct rs|apply peer_result_fold].
      + right. exists true, [new]. repeat split.
        repeat constructor; by intros []. }
  destruct Hslot as [(r0 & -> & Hr0 & Hp0 & Hcreated & Hbus1 & Hlog1)
                    |(slot & pre & -> & Hcreated & Hbus1 & Hlog1 & Hpre)].
  { apply ret_inv in Hrun as [-> ->]. split; [done|]. split; [done|].
    exists [new]. split; [done|].
    split; [intros _; repeat constructor; by intros []|].
    split; [intros _; repeat constructor; by intros []|].
    intros _ Hc. congruence. }
  (* the receive policy *)
  apply bind_inv in Hrun as (r1 & st2 & Hrecv & Hrun).
  assert (same_bus st st2
          /\ st_log st2
             = (st_log st ++ pre ++ [EV_policy_check_receive receiver])%list)
    as [Hbus2 Hlog2].
  { unfold do_policy_check_receive in Hrecv. rewrite run_log_event in Hrecv.
    injection Hrecv as _ <-. st_simpl. split; [done|].
    by rewrite Hlog1, <- app_assoc. }
  clear Hrecv.
  assert (forall l, Forall (fun e => ~ is_slot_free e /\ ~ is_queue e) l ->
            Forall (fun e => ~ is_slot_free e) l
            /\ Forall (fun e => ~ is_queue e) l) as Hboth.
  { intros l Hl. split; (eapply Forall_impl; [exact Hl|]); by intros ? [? ?]. }
  destruct (c_truthy r1) eqn:Hr1.
  { apply free_slot_inv in Hrun as (st3 & Hrun & Hbus3 & Hlog3).
    assert (st' = st3 /\ r <> R_OK /\ peer_result r) as (-> & Hne & Hres).
    { case_bool_decide; apply ret_inv in Hrun as [-> ->];
        [done | repeat split; [by destruct r1 | apply peer_result_fold]]. }
    split; [done|]. split; [by eapply same_bus_trans|].
    eexists. split; [rewrite Hlog3, Hlog2, <- !app_assoc; reflexivity|].
    assert (Forall (fun e => ~ is_slot_free e /\ ~ is_queue e)
              (pre ++ [EV_policy_check_receive receiver])) as Hall.
    { apply Forall_app. split; [done|]. repeat constructor; by intros []. }
    apply Hboth in Hall as [Hnf Hnq].
    split; [intros _; rewrite app_assoc; apply Forall_app; split; [done|];
            destruct slot; repeat constructor; by intros []|].
    split.
    - intros [->|Hc]; [done|]. rewrite app_assoc.
      apply Forall_app_slot; congruence.
    - intros _ Hc. rewrite app_assoc. apply last_app_slot. congruence. }
  (* the send policy *)
  apply bind_inv in Hrun as (r2 & st3 & Hsend & Hrun).
  assert (same_bus st st3
          /\ st_log st3
             = (st_log st
                ++ pre ++ [EV_policy_check_receive receiver;
                           EV_policy_check_send sender_policy receiver])%list)
    as [Hbus3 Hlog3].
  { unfold do_policy_check_send in Hsend. rewrite run_log_event in Hsend.
    injection Hsend as _ <-. st_simpl. split; [done|].
    by rewrite Hlog2, <- !app_assoc. }
  clear Hsend.
  destruct (c_truthy r2) eqn:Hr2.
  { apply free_slot_inv in Hrun as (st4 & Hrun & Hbus4 & Hlog4).
    assert (st' = st4 /\ r <> R_OK /\ peer_result r) as (-> & Hne & Hres).
    { case_bool_decide; apply ret_inv in Hrun as [-> ->];
        [done | repeat split; [by destruct r2 | apply peer_result_fold]]. }
    split; [done|]. split; [by eapply same_bus_trans|].
    eexists. split; [rewrite Hlog4, Hlog3, <- !app_assoc; reflexivity|].
    assert (Forall (fun e => ~ is_slot_free e /\ ~ is_queue e)
              (pre ++ [EV_policy_check_receive receiver;
                       EV_policy_check_send sender_policy receiver])) as Hall.
    { apply Forall_app. split; [done|]. repeat constructor; by intros []. }
    apply Hboth in Hall as [Hnf Hnq].
    split; [intros _; rewrite app_assoc; apply Forall_app; split; [done|];
            destruct slot; repeat constructor; by intros []|].
    split.
    - intros [->|Hc]; [done|]. rewrite app_assoc.
      apply Forall_app_slot; congruence.
    - intros _ Hc. rewrite app_assoc. apply last_app_slot. congruence. }
  (* the queue of the receiver *)
  apply bind_inv in Hrun as (r3 & st4 & Hqueue & Hrun).
  assert (same_bus st st4
          /\ st_log st4
             = (st_log st
                ++ pre ++ [EV_policy_check_receive receiver;
                           EV_policy_check_send sender_policy receiver;
                           EV_connection_queue receiver 0])%list)
    as [Hbus4 Hlog4].
  { unfold do_world in Hqueue. rewrite run_log_event in Hqueue.
    st_simpl. destruct (connection_queue _ _ _ _ _).
    injection Hqueue as _ <-. st_simpl. split; [done|].
    by rewrite Hlog3, <- !app_assoc. }
  clear Hqueue.
  assert (Forall (fun e => ~ is_slot_free e)
            (pre ++ [EV_policy_check_receive receiver;
                     EV_policy_check_send sender_policy receiver;
                     EV_connection_queue receiver 0])) as Hnf.
  { apply Forall_app. split; [by apply Hboth|].
    repeat constructor; by intros []. }
  destruct (c_truthy r3) eqn:Hr3.
  { apply free_slot_inv in Hrun as (st5 & Hrun & Hbus5 & Hlog5).
    cbn [c_truthy] in Hrun. apply ret_inv in Hrun as [-> ->].
    split; [done|]. split; [by eapply same_bus_trans|].
    eexists. split; [rewrite Hlog5, Hlog4, <- !app_assoc; reflexivity|].
    split; [intros [?|?]; discriminate|].
    split.
    - intros [?|Hc]; [discriminate|]. rewrite app_assoc.
      apply Forall_app_slot; congruence.
    - intros _ Hc. rewrite app_assoc. apply last_app_slot. congruence. }
  (* for eavesdropping *)
  apply bind_inv in Hrun as (r4 & st5 & Hcast & Hrun).
  apply peer_broadcast_events in Hcast
    as (_ & Hbus5 & (evs & Hlog5 & Hevs) & Hr4).
  apply broadcast_event_no_slot_free in Hevs.
  destruct (c_truthy r4) eqn:Hr4'.
  - apply free_slot_inv in Hrun as (st6 & Hrun & Hbus6 & Hlog6).
    apply ret_inv in Hrun as [-> ->].
    split; [by apply fatal_or_ok_peer_result|].
    split; [eapply same_bus_trans; [|exact Hbus6]; by eapply same_bus_trans|].
    eexists. split; [rewrite Hlog6, Hlog5, Hlog4, <- !app_assoc; reflexivity|].
    split; [intros [Hx|Hx]; unfold error_trace in Hx; rewrite Hx in Hr4; done|].
    split.
    + intros [Hx|Hc];
        [unfold error_trace in Hx; rewrite Hx in Hr4'; discriminate|].
      rewrite !app_assoc.
      apply Forall_app_slot; [congruence|]. apply Forall_app. by split.
    + intros _ Hc. rewrite !app_assoc. apply last_app_slot. congruence.
  - apply ret_inv in Hrun as [-> ->].
    split; [done|]. split; [by eapply same_bus_trans|].
    eexists. split; [rewrite Hlog5, Hlog4, <- !app_assoc; reflexivity|].
    split; [intros [?|?]; discriminate|].
    split; [|done]. intros _. rewrite app_assoc. apply Forall_app. by split.
Qed.

End QueueCall.

Section QueueReply.

Context {W : Type} `{Collaborators W}.

Variable reply_slot_get_by_id : W -> Z -> Z -> Z -> option Z.

(** What a [peer_queue_reply] that returns has done. *)
Lemma peer_queue_reply_events (sender : Z) (destination : string)
    (reply_serial : Z) (message : Message) (st st' : State W) (r : retcode) :
  peer_queue_reply reply_slot_get_by_id sender destination reply_serial message
    st = Some (r, st') ->
  peer_result r /\ same_bus st st'
  /\ match address_from_string destination with
     | ADDRESS_TYPE_ID id =>
         match reply_slot_get_by_id (st_world st) sender id reply_serial with
         | Some receiver =>
             r <> R_E PEER_E_UNEXPECTED_REPLY
             /\ exists evs,
                  st_log st'
                  = (st_log st ++ EV_connection_queue receiver 0 :: evs
                       ++ [EV_reply_slot_free sender id reply_serial])%list
                  /\ Forall (fun e => ~ is_slot_free e) evs
                  /\ (fst (connection_queue (st_world st) receiver None 0
                             message) = R_E CONNECTION_E_QUOTA ->
                      head evs = Some (EV_connection_shutdown receiver))
         | None => r = R_E PEER_E_UNEXPECTED_REPLY /\ st' = st
         end
     | _ => r = R_E PEER_E_UNEXPECTED_REPLY /\ st' = st
     end.
Proof.
  unfold peer_queue_reply. intros Hrun.
  destruct (address_from_string destination) as [| |id|name];
    try (apply ret_inv in Hrun as [-> ->]; by repeat split).
  rewrite run_get in Hrun.
  destruct (reply_slot_get_by_id (st_world st) sender id reply_serial)
    as [receiver|]; [|apply ret_inv in Hrun as [-> ->]; by repeat split].
  unfold do_world in Hrun at 1. rewrite !run_bind, run_log_event in Hrun.
  unfold bind at 1 in Hrun. st_simpl.
  destruct (connection_queue (st_world st) receiver None 0 message) as [rq w].
  cbn [fst].
  destruct (c_truthy rq) eqn:Hrq.
  - case_bool_decide as Hquota.
    + (* the queue of the receiver is full: its connection is shut down *)
      subst rq. rewrite run_bind, run_do_world_, run_ret in Hrun. st_simpl.
      apply bind_inv in Hrun as (rb & st1 & Hcast & Hrun).
      apply peer_broadcast_events in Hcast
        as (_ & Hbus & (evs & Hlog & Hevs) & Hrb).
      apply broadcast_event_no_slot_free in Hevs.
      rewrite run_do_world_ in Hrun.
      assert (r = rb
              /\ st' = set_st_world
                         (reply_slot_free (st_world st1) sender id reply_serial)
                         (set_st_log
                            (st_log st1
                             ++ [EV_reply_slot_free sender id reply_serial])
                            st1))
        as [-> ->].
      { destruct (c_truthy rb) eqn:Hc; apply ret_inv in Hrun as [-> ->];
          [done|]. by apply c_truthy_false in Hc as ->. }
      split; [by apply fatal_or_ok_peer_result|].
      split; [eapply same_bus_trans; [|exact Hbus]; by repeat split|].
      split; [by destruct rb|].
      exists (EV_connection_shutdown receiver :: evs). st_simpl.
      split; [rewrite Hlog; st_simpl; by rewrite <- !app_assoc|].
      split; [constructor; [by intros []|done] | done].
    + rewrite run_ret in Hrun. rewrite run_do_world_ in Hrun.
      apply ret_inv in Hrun as [-> ->].
      split; [apply peer_result_fold|]. split; [by repeat split|].
      split; [by destruct rq|].
      exists []. st_simpl. split; [by rewrite <- !app_assoc|].
      split; [constructor|]. intros ->. done.
  - apply c_truthy_false in Hrq as ->. rewrite run_ret in Hrun.
    apply bind_inv in Hrun as (rb & st1 & Hcast & Hrun).
    apply peer_broadcast_events in Hcast
      as (_ & Hbus & (evs & Hlog & Hevs) & Hrb).
    apply broadcast_event_no_slot_free in Hevs.
    rewrite run_do_world_ in Hrun.
    assert (r = rb
            /\ st' = set_st_world
                       (reply_slot_free (st_world st1) sender id reply_serial)
                       (set_st_log
                          (st_log st1
                           ++ [EV_reply_slot_free sender id reply_serial]) st1))
      as [-> ->].
    { destruct (c_truthy rb) eqn:Hc; apply ret_inv in Hrun as [-> ->]; [done|].
      by apply c_truthy_false in Hc as ->. }
    split; [by apply fatal_or_ok_peer_result|].
    split; [eapply same_bus_trans; [|exact Hbus]; by repeat split|].
    split; [by destruct rb|].
    exists evs. st_simpl.
    split; [rewrite Hlog; st_simpl; by rewrite <- !app_assoc|].
    split; [done | discriminate].
Qed.

(** On a bus whose registries are well formed, [peer_queue_reply]
    returns. *)
Lemma peer_queue_reply_total (sender : Z) (destination : string)
    (reply_serial : Z) (message : Message) (st : State W) :
  bus_wf st ->
  exists r st',
    peer_queue_reply reply_slot_get_by_id sender destination reply_serial
      message st = Some (r, st').
Proof.
  intros Hwf. unfold peer_queue_reply.
  destruct (address_from_string destination) as [| |id|name];
    try (unfold ret; by eauto).
  rewrite run_get.
  destruct (reply_slot_get_by_id (st_world st) sender id reply_serial)
    as [receiver|]; [|unfold ret; by eauto].
  unfold do_world at 1. rewrite !run_bind, run_log_event.
  unfold bind at 1. st_simpl.
  destruct (connection_queue (st_world st) receiver None 0 message) as [rq w].
  assert (forall (early : option retcode) (st0 : State W),
            bus_wf st0 ->
            exists r st',
              match early with
              | Some e =>
                  do_world_ (EV_reply_slot_free sender id reply_serial)
                    (fun w => reply_slot_free w sender id reply_serial) >>
                  ret e
              | None =>
                  let! r :=
                    peer_broadcast (Some sender)
                      (Some (NAME_SET_TYPE_OWNER sender))
                      (Some (REG_PEER sender)) sender (Some receiver) None
                      message in
                  do_world_ (EV_reply_slot_free sender id reply_serial)
                    (fun w => reply_slot_free w sender id reply_serial) >>
                  if c_truthy r then ret (error_trace r) else ret R_OK
              end st0 = Some (r, st')) as Hrest.
  { intros [e|] st0 Hwf0.
    - rewrite run_do_world_. unfold ret. eauto.
    - destruct (peer_broadcast_total (Some sender)
                  (Some (NAME_SET_TYPE_OWNER sender)) (Some (REG_PEER sender))
                  sender (Some receiver) None message st0 Hwf0)
        as (rb & st1 & Hcast).
      unfold bind at 1. rewrite Hcast. rewrite run_do_world_.
      destruct (c_truthy rb); unfold ret; eauto. }
  destruct (c_truthy rq).
  - case_bool_decide.
    + rewrite run_bind, run_do_world_, run_ret. by apply (Hrest None).
    + rewrite run_ret. by apply (Hrest (Some _)).
  - rewrite run_ret. by apply (Hrest None).
Qed.

(** X17. [peer_queue_reply] returns [PEER_E_UNEXPECTED_REPLY], and has
    done nothing, when the destination is no unique id or the sender has no
    slot for that id and serial. With a slot it returns on every bus whose
    registries are well formed, and never that code: it queues the reply to
    the owner of the slot first, and the last thing it does, on every result,
    is [reply_slot_free] of the slot, once; when the queue of the receiver is
    full, its connection is shut down right behind the queueing. The rules,
    the owners, the registries and the peers stay as they are. *)
Theorem peer_queue_reply_consumes_slot (sender : Z) (destination : string)
    (reply_serial : Z) (message : Message) (st : State W) :
  match address_from_string destination with
  | ADDRESS_TYPE_ID id =>
      match reply_slot_get_by_id (st_world st) sender id reply_serial with
      | Some receiver =>
          (bus_wf st ->
           exists r st',
             peer_queue_reply reply_slot_get_by_id sender destination
               reply_serial message st = Some (r, st'))
          /\ forall r st',
               peer_queue_reply reply_slot_get_by_id sender destination
                 reply_serial message st = Some (r, st') ->
               peer_result r /\ same_bus st st'
               /\ r <> R_E PEER_E_UNEXPECTED_REPLY
               /\ exists evs,
                    st_log st'
                    = (st_log st ++ EV_connection_queue receiver 0 :: evs
                         ++ [EV_reply_slot_free sender id reply_serial])%list
                    /\ Forall (fun e => ~ is_slot_free e) evs
                    /\ (fst (connection_queue (st_world st) receiver None 0
                               message) = R_E CONNECTION_E_QUOTA ->
                        head evs = Some (EV_connection_shutdown receiver))
      | None =>
          peer_queue_reply reply_slot_get_by_id sender destination
            reply_serial message st
          = Some (R_E PEER_E_UNEXPECTED_REPLY, st)
      end
  | _ =>
      peer_queue_reply reply_slot_get_by_id sender destination reply_serial
        message st
      = Some (R_E PEER_E_UNEXPECTED_REPLY, st)
  end.
Proof.
  pose proof (peer_queue_reply_events sender destination reply_serial message
                st) as Hevents.
  pose proof (peer_queue_reply_total sender destination reply_serial message
                st) as Htotal.
  unfold peer_queue_reply in *.
  destruct (address_from_string destination) as [| |id|name]; try done.
  rewrite run_get in *.
  destruct (reply_slot_get_by_id (st_world st) sender id reply_serial)
    as [receiver|]; [|done].
  split; [exact Htotal|]. intros r st' Hrun.
  destruct (Hevents st' r Hrun) as (Hres & Hbus & Hne & Hlog). done.
Qed.

End QueueReply.

(** Peer 1 calls peer 2, whose queue is full: the call returns
    [PEER_E_QUOTA], and the slot for the reply is freed last. *)
Lemma peer_queue_call_events_witness :
  exists st',
    Reference.call_1_to_2 (Reference.queue_returns (R_E CONNECTION_E_QUOTA))
    = Some (R_E PEER_E_QUOTA, st')
    /\ last (st_log st') = Some (EV_reply_slot_free 2 1 5)
    /\ st_peers st' = st_peers (Reference.queue_returns (R_E CONNECTION_E_QUOTA)).
Proof.
  eexists. split; [vm_compute; reflexivity|].
  edestruct (peer_queue_call_events (W := Reference.World) 1
               (Some (NAME_SET_TYPE_OWNER 1)) (Some (REG_PEER 1)) (Some 1)
               1000 1 2 Reference.method_call
               (Reference.queue_returns (R_E CONNECTION_E_QUOTA)))
    as (_ & Hbus & evs & Hlog & _ & _ & Hlast);
    [vm_compute; reflexivity|].
  split; [|apply Hbus].
  rewrite Hlog. change (st_log (Reference.queue_returns _)) with (@nil Event).
  rewrite app_nil_l. apply Hlast; [discriminate | vm_compute; reflexivity].
Defined.

(** Peer 2 answers the call of peer 1: the reply is queued to peer 1, and
    the slot is freed last. *)
Lemma peer_queue_reply_consumes_slot_witness :
  (exists st' evs,
     Scenario.reply_2_to_1 Scenario.empty_bus = Some (R_OK, st')
     /\ st_log st'
        = (EV_connection_queue 1 0 :: evs ++ [EV_reply_slot_free 2 1 5])%list
     /\ Forall (fun e => ~ is_slot_free e) evs)
  /\ peer_queue_reply Scenario.slot_of_call 2 ":1.1" 7 Scenario.method_return
       Scenario.empty_bus
     = Some (R_E PEER_E_UNEXPECTED_REPLY, Scenario.empty_bus).
Proof.
  split.
  - eexists.
    pose proof (peer_queue_reply_consumes_slot (W := Reference.World)
                  Scenario.slot_of_call 2 ":1.1" 5 Scenario.method_return
                  Scenario.empty_bus) as Hslot.
    change (address_from_string ":1.1") with (ADDRESS_TYPE_ID 1) in Hslot.
    change (Scenario.slot_of_call (st_world Scenario.empty_bus) 2 1 5)
      with (Some 1) in Hslot.
    destruct Hslot as [_ Hslot].
    edestruct Hslot as (_ & _ & _ & evs & Hlog & Hevs & _);
      [vm_compute; reflexivity|].
    exists evs. split; [vm_compute; reflexivity|].
    split; [exact Hlog|exact Hevs].
  - exact (peer_queue_reply_consumes_slot (W := Reference.World)
             Scenario.slot_of_call 2 ":1.1" 7 Scenario.method_return
             Scenario.empty_bus).
Defined.

(** ** Becoming a monitor *)

Section Monitor.

Context {W : Type} `{Collaborators W}.

Lemma rules_kept_refl (st : State W) : rules_kept st st.
Proof. repeat split. eauto. Qed.

Lemma rules_kept_trans (st1 st2 st3 : State W) :
  rules_kept st1 st2 -> rules_kept st2 st3 -> rules_kept st1 st3.
Proof.
  intros (Ho1 & Hp1 & Hr1) (Ho2 & Hp2 & Hr2).
  split; [congruence|]. split; [congruence|].
  intros b rb Hb. destruct (Hr1 b rb Hb) as (rb1 & Hb1 & He1 & Hw1).
  destruct (Hr2 b rb1 Hb1) as (rb2 & Hb2 & He2 & Hw2).
  exists rb2. split; [done|]. split; congruence.
Qed.

Lemma rules_kept_world (st : State W) w l :
  rules_kept st (set_st_world w (set_st_log l st)).
Proof. repeat split. eauto. Qed.

Lemma match_rule_link_kept a ref monitor (st st' : State W) :
  match_rule_link a ref monitor st = Some (tt, st') -> rules_kept st st'.
Proof.
  unfold match_rule_link. intros Hrun.
  apply bind_inv in Hrun as (r & st0 & [Ha ->]%load_rule_inv & Hrun).
  case_bool_decide.
  - apply assert_inv in Hrun as [_ ->]. apply rules_kept_refl.
  - rewrite run_store_rule in Hrun. apply modify_inv in Hrun as ->.
    repeat split. st_simpl. intros b rb Hb.
    destruct (decide (b = a)) as [->|Hne].
    + rewrite lookup_insert_eq. eexists. split; [done|].
      assert (rb = r) as -> by congruence. done.
    + rewrite lookup_insert_ne by done. eauto.
Qed.

Lemma store_rule_kept a r r' (st : State W) :
  st_rules st !! a = Some r ->
  k_eavesdrop (r_keys r') = k_eavesdrop (r_keys r) -> r_owner r' = r_owner r ->
  rules_kept st (set_st_rules (<[a := r']> (st_rules st)) st).
Proof.
  intros Ha He Ho. repeat split. st_simpl. intros b rb Hb.
  destruct (decide (b = a)) as [->|Hne].
  - rewrite lookup_insert_eq. eexists. split; [done|].
    assert (rb = r) as -> by congruence. done.
  - rewrite lookup_insert_ne by done. eauto.
Qed.

Lemma peer_link_match_kept peer a monitor (st st' : State W) r :
  peer_link_match peer a monitor st = Some (r, st') -> rules_kept st st'.
Proof.
  unfold peer_link_match. intros Hrun.
  apply bind_inv in Hrun as (x & st0 & [Ha ->]%load_rule_inv & Hrun).
  destruct (k_sender (r_keys x)) as [s|].
  2: { apply bind_inv in Hrun as ([] & st1 & Hlink & [_ ->]%ret_inv).
       by apply match_rule_link_kept in Hlink. }
  destruct (strcmp s "org.freedesktop.DBus" =? 0).
  { apply bind_inv in Hrun as ([] & st1 & Hlink & [_ ->]%ret_inv).
    by apply match_rule_link_kept in Hlink. }
  destruct (address_from_string s) as [| |id|name].
  - apply ret_inv in Hrun as [_ ->]. apply rules_kept_refl.
  - unfold do_world in Hrun. rewrite run_bind, run_log_event in Hrun.
    unfold bind at 1 in Hrun. st_simpl.
    destruct (name_registry_ref_name (st_world st) s) as [rn w].
    destruct (c_truthy rn).
    + apply ret_inv in Hrun as [_ ->]. apply rules_kept_world.
    + apply bind_inv in Hrun as ([] & st1 & Hlink & Hrun).
      apply match_rule_link_kept in Hlink.
      rewrite !run_do_world_ in Hrun. apply ret_inv in Hrun as [_ ->].
      eapply rules_kept_trans; [apply rules_kept_world|].
      eapply rules_kept_trans; [exact Hlink|].
      eapply rules_kept_trans; apply rules_kept_world.
  - rewrite run_get in Hrun.
    destruct (peer_registry_find_peer (st_peers st) id).
    + apply bind_inv in Hrun as ([] & st1 & Hlink & [_ ->]%ret_inv).
      by apply match_rule_link_kept in Hlink.
    + destruct (id >=? ids (st_peers st)).
      * rewrite run_store_rule in Hrun.
        apply bind_inv in Hrun as ([] & st1 & Hlink & [_ ->]%ret_inv).
        apply match_rule_link_kept in Hlink.
        eapply rules_kept_trans; [|exact Hlink].
        by apply (store_rule_kept a x).
      * apply ret_inv in Hrun as [_ ->]. apply rules_kept_refl.
  - unfold do_world in Hrun. rewrite run_bind, run_log_event in Hrun.
    unfold bind at 1 in Hrun. st_simpl.
    destruct (name_registry_ref_name (st_world st) s) as [rn w].
    destruct (c_truthy rn).
    + apply ret_inv in Hrun as [_ ->]. apply rules_kept_world.
    + apply bind_inv in Hrun as ([] & st1 & Hlink & Hrun).
      apply match_rule_link_kept in Hlink.
      rewrite !run_do_world_ in Hrun. apply ret_inv in Hrun as [_ ->].
      eapply rules_kept_trans; [apply rules_kept_world|].
      eapply rules_kept_trans; [exact Hlink|].
      eapply rules_kept_trans; apply rules_kept_world.
Qed.

Lemma monitor_rule_kept (st st' : State W) peer a :
  rules_kept st st' -> monitor_rule st peer a -> monitor_rule st' peer a.
Proof.
  intros (_ & _ & Hr) (r & Ha & He & Ho).
  destruct (Hr a r Ha) as (r' & Ha' & He' & Ho'). exists r'.
  split; [done|]. split; congruence.
Qed.

Lemma peer_become_monitor_loop_spec peer tree :
  forall poison (st st' : State W) r,
    fatal_or_ok poison ->
    peer_become_monitor_loop peer tree poison st = Some (r, st') ->
    st_owners st' = st_owners st /\ st_peers st' = st_peers st
    /\ fatal_or_ok r
    /\ (poison <> R_OK -> r = poison)
    /\ (forall b, monitor_rule st peer b -> monitor_rule st' peer b)
    /\ (forall a, a ∈ tree -> monitor_rule st' peer a).
Proof.
  induction tree as [|a tree IH]; intros poison st st' r Hp Hrun; simpl in Hrun.
  - apply ret_inv in Hrun as [-> ->]. repeat split; try done.
    intros a Ha. by apply elem_of_nil in Ha.
  - apply bind_inv in Hrun as (x & st0 & [Ha ->]%load_rule_inv & Hrun).
    rewrite run_store_rule in Hrun.
    apply bind_inv in Hrun as (r1 & st2 & Hlink & Hrun).
    pose proof (peer_link_match_codes _ _ _ _ _ _ Hlink) as Hr1.
    apply peer_link_match_kept in Hlink as Hkept.
    apply IH in Hrun as (Ho & Hpe & Hr & Hpoison & Hkeep & Hall).
    2: { destruct (c_truthy r1 && negb (c_truthy poison)); done. }
    pose proof Hkept as (Ho2 & Hp2 & _).
    assert (monitor_rule st2 peer a) as Hmon.
    { eapply monitor_rule_kept; [exact Hkept|].
      eexists. split; [st_simpl; apply lookup_insert_eq|]. done. }
    split; [by rewrite Ho, Ho2|]. split; [by rewrite Hpe, Hp2|].
    split; [done|]. split.
    { intros Hne. assert (c_truthy poison = true) as Ht by (by destruct poison).
      rewrite Ht, andb_false_r in Hpoison. by apply Hpoison. }
    split.
    + intros b Hb. apply Hkeep. eapply monitor_rule_kept; [exact Hkept|].
      destruct Hb as (rb & Hb & He & Hw).
      destruct (decide (b = a)) as [->|Hne].
      * eexists. split; [st_simpl; apply lookup_insert_eq|]. done.
      * exists rb. split; [st_simpl; by rewrite lookup_insert_ne|]. done.
    + intros b [->|Hb]%elem_of_cons; [by apply Hkeep | by apply Hall].
Qed.

(** X18. A [peer_become_monitor] that returns has moved the rules of the
    owner handed in to the peer: the tree of the peer is the tree that owner
    had, that owner is empty, and every rule of the tree is an eavesdropping
    rule of the peer, also when an error is returned. The result is 0 or a
    negative error; the peer is marked as a monitor if and only if it is 0,
    and nothing else changes in the peers. The peer was neither registered
    nor a monitor and owned no rule, or the assertions had stopped the
    call. *)
Theorem peer_become_monitor_adopts (peer owned : Z) (st st' : State W)
    (r : retcode) :
  peer_become_monitor peer owned st = Some (r, st') ->
  fatal_or_ok r
  /\ rule_tree (owner_at st' peer) = rule_tree (owner_at st owned)
  /\ (owned <> peer -> rule_tree (owner_at st' owned) = CRB_NULL)
  /\ (forall a, a ∈ rule_tree (owner_at st owned) -> monitor_rule st' peer a)
  /\ exists p,
       c_rbtree_find_entry peer_compare peer (peer_tree (st_peers st)) = Some p
       /\ p_registered p = false /\ p_monitor p = false
       /\ rule_tree (owner_at st peer) = CRB_NULL
       /\ st_peers st'
          = if c_truthy r then st_peers st
            else mkPeerRegistry
                   (map (fun q => if p_id q =? p_id p then set_p_monitor true p
                                  else q) (peer_tree (st_peers st)))
                   (ids (st_peers st)).
Proof.
  unfold peer_become_monitor. intros Hrun.
  apply bind_inv in Hrun as (p & st0 & Hload & Hrun).
  assert (c_rbtree_find_entry peer_compare peer (peer_tree (st_peers st))
          = Some p /\ st0 = st) as [Hp ->].
  { unfold load_peer in Hload.
    destruct (c_rbtree_find_entry _ _ _); by simplify_eq/=. }
  clear Hload.
  apply bind_inv in Hrun as ([] & st0 & [Hreg ->]%assert_inv & Hrun).
  apply bind_inv in Hrun as ([] & st0 & [Hmon ->]%assert_inv & Hrun).
  rewrite run_get in Hrun.
  apply bind_inv in Hrun as ([] & st0 & [Hempty ->]%assert_inv & Hrun).
  assert (rule_tree (owner_at st peer) = CRB_NULL) as Hempty'
    by (by destruct (rule_tree (owner_at st peer))).
  clear Hempty. rename Hempty' into Hempty.
  apply negb_true_iff in Hreg, Hmon.
  rewrite run_modify, run_get in Hrun.
  set (st1 := set_st_owners _ st) in *.
  assert (rule_tree (owner_at st1 peer) = rule_tree (owner_at st owned))
    as Htree.
  { subst st1. unfold owner_at at 1. st_simpl.
    destruct (decide (owned = peer)) as [->|Hne].
    - rewrite lookup_insert_eq. by rewrite Hempty.
    - rewrite lookup_insert_ne, lookup_insert_eq by done. done. }
  assert (owned <> peer -> rule_tree (owner_at st1 owned) = CRB_NULL)
    as Howned.
  { intros _. subst st1. unfold owner_at at 1. st_simpl.
    by rewrite lookup_insert_eq. }
  apply bind_inv in Hrun as (poison & st2 & Hloop & Hrun).
  apply peer_become_monitor_loop_spec in Hloop
    as (Ho & Hpe & Hr & _ & _ & Hall); [|done].
  rewrite Htree in Hall.
  assert (forall o, owner_at st2 o = owner_at st1 o) as Hat
    by (intros o; unfold owner_at; by rewrite Ho).
  destruct (c_truthy poison) eqn:Hpoison.
  - apply ret_inv in Hrun as [-> ->]. rewrite Hpoison.
    split; [done|]. split; [by rewrite Hat|].
    split; [intros Hne; rewrite Hat; by apply Howned|].
    split; [done|]. exists p. by rewrite Hpe.
  - unfold store_peer in Hrun. rewrite run_modify in Hrun.
    apply ret_inv in Hrun as [-> ->].
    split; [done|]. split; [by rewrite <- Htree, <- Hat|].
    split; [intros Hne; rewrite <- (Howned Hne), <- Hat; done|].
    split; [intros a Ha; destruct (Hall a Ha) as (ra & ? & ? & ?); by exists ra|].
    exists p. cbn [c_truthy]. st_simpl. by rewrite Hpe.
Qed.

End Monitor.

(** Peer 9 takes over the rule ["type='signal'"] of the owner 100: the
    rule becomes an eavesdropping rule of peer 9 in the monitor list of the
    wildcards. *)
Lemma peer_become_monitor_adopts_witness :
  exists st',
    peer_become_monitor 9 100 Scenario.with_temporary_owner = Some (R_OK, st')
    /\ rule_tree (owner_at st' 9) = CRB_Node CRB_NULL 0%nat CRB_NULL
    /\ rule_tree (owner_at st' 100) = CRB_NULL
    /\ monitor_rule st' 9 0%nat
    /\ monitor_list (registry_at st' REG_WILDCARD) = [0%nat]
    /\ c_rbtree_find_entry peer_compare 9 (peer_tree (st_peers st'))
       = Some (mkPeer 9 0 false true).
Proof.
  eexists. split; [vm_compute; reflexivity|].
  edestruct (peer_become_monitor_adopts (W := Reference.World) 9 100
               Scenario.with_temporary_owner)
    as (_ & Htree & Howned & Hall & _); [vm_compute; reflexivity|].
  split; [rewrite Htree; vm_compute; reflexivity|].
  split; [by apply Howned|].
  split; [apply Hall; vm_compute; by apply list_elem_of_singleton|].
  split; vm_compute; reflexivity.
Defined.

(** ** Hello and goodbye *)

Lemma store_peer_back (tree : list Peer) (p p' : Peer) :
  NoDup (map p_id tree) -> p ∈ tree -> p_id p' = p_id p ->
  map (fun q => if p_id q =? p_id p then p else q)
    (map (fun q => if p_id q =? p_id p' then p' else q) tree) = tree.
Proof.
  intros Hnd Hin Hid. rewrite map_map. rewrite <- (map_id tree) at 2.
  apply map_ext_in. intros q Hq. rewrite Hid.
  destruct (Z.eqb_spec (p_id q) (p_id p)) as [He|Hne].
  - rewrite Hid, Z.eqb_refl.
    apply list_elem_of_In in Hq.
    apply list_elem_of_lookup in Hq as [i Hi], Hin as [j Hj].
    assert (i = j) as ->; [|congruence].
    eapply NoDup_lookup; [exact Hnd| |];
      rewrite list_lookup_fmap;
      [by rewrite Hi | by rewrite Hj; simpl; rewrite He].
  - by rewrite (proj2 (Z.eqb_neq _ _) Hne).
Qed.

Section RegisterRoundTrip.

Context {W : Type} `{Collaborators W}.

(** X19. For a peer of the bus that is neither registered nor a monitor,
    on a bus without two peers of the same id, [peer_register] and
    [peer_unregister] behind it give back the state as it was. The
    assertions stop [peer_unregister] of a peer that is not registered, and
    [peer_register] of one that is: neither can be done twice. *)
Theorem peer_register_unregister (st : State W) (p : Peer) :
  NoDup (map p_id (peer_tree (st_peers st))) ->
  p ∈ peer_tree (st_peers st) ->
  p_registered p = false ->
  p_monitor p = false ->
  (peer_register (p_id p) >> peer_unregister (p_id p)) st = Some (tt, st)
  /\ peer_unregister (p_id p) st = None
  /\ (peer_register (p_id p) >> peer_register (p_id p)) st = None
  /\ (peer_register (p_id p) >> peer_unregister (p_id p)
      >> peer_unregister (p_id p)) st = None.
Proof.
  intros Hnd Hin Hreg Hmon.
  assert (c_rbtree_find_entry peer_compare (p_id p) (peer_tree (st_peers st))
          = Some p) as Hfind by (by apply c_rbtree_find_entry_peer).
  set (p' := set_p_registered true p).
  set (st1 := set_st_peers
                (mkPeerRegistry
                   (map (fun q => if p_id q =? p_id p' then p' else q)
                      (peer_tree (st_peers st)))
                   (ids (st_peers st))) st).
  assert (peer_register (p_id p) st = Some (tt, st1)) as Hrun1.
  { unfold peer_register, bind, load_peer. rewrite Hfind. unfold assert.
    by rewrite Hreg, Hmon. }
  assert (c_rbtree_find_entry peer_compare (p_id p) (peer_tree (st_peers st1))
          = Some p') as Hfind1.
  { subst st1. st_simpl. cbn [peer_tree].
    by apply (store_peer_find _ p p'). }
  assert (peer_unregister (p_id p) st1 = Some (tt, st)) as Hrun2.
  { unfold peer_unregister, bind, load_peer. rewrite Hfind1. unfold assert. cbn.
    rewrite Hmon. cbn. unfold store_peer, modify. f_equal. f_equal.
    subst st1. unfold set_st_peers. st_simpl. cbn [peer_tree ids].
    replace (set_p_registered false p') with p
      by (destruct p; cbn in *; by subst).
    rewrite store_peer_back by done.
    by destruct st as [? ? ? [? ?] ? ? ?]. }
  split; [unfold bind; by rewrite Hrun1|].
  split.
  { unfold peer_unregister, bind, load_peer. rewrite Hfind. unfold assert.
    by rewrite Hreg. }
  split.
  { unfold bind at 1. rewrite Hrun1.
    unfold peer_register, bind, load_peer. rewrite Hfind1. done. }
  unfold bind at 1. rewrite Hrun1. unfold bind at 1. rewrite Hrun2.
  unfold peer_unregister, bind, load_peer. rewrite Hfind. unfold assert.
  by rewrite Hreg.
Qed.

End RegisterRoundTrip.

(** Peer 3 of the reference bus has not said Hello. *)
Lemma peer_register_unregister_witness :
  (peer_register 3 >> peer_unregister 3) Scenario.empty_bus
  = Some (tt, Scenario.empty_bus)
  /\ peer_unregister 3 Scenario.empty_bus = None.
Proof.
  edestruct (peer_register_unregister (W := Reference.World)
               Scenario.empty_bus (mkPeer 3 1000 false false))
    as (Hround & Hstop & _); [ | | reflexivity | reflexivity |].
  - apply (bool_decide_unpack _). vm_compute. exact I.
  - vm_compute. apply list_elem_of_In. simpl. tauto.
  - split; [exact Hround | exact Hstop].
Defined.
